(** * Orphan block container and peer manager of the epic node

    A shallow embedding of [src/storage/obc.cpp] (the orphan block
    container, OBC), of the sweeps and handlers of
    [src/peer/peer_manager.cpp], of the containers of
    [src/utils/concurrent_container.h] and of the handle map of
    [src/db_wrapper.cpp], with the properties of the node's specification
    stated and settled over it, and further properties read off the code.

    Conventions of the embedding.
    - A [uint256] hash is an [N]; no arithmetic is done on hashes.
    - The objects behind [std::shared_ptr<obc_dep>] live in a heap, a list
      indexed by allocation order: the pointer returned by [make_shared] is
      the length of the heap at that moment.  Two containers that hold the
      same pointer alias the same [obc_dep], as in the source.
    - [std::unordered_map] is a [gmap], [std::unordered_set] a [gset];
      iterating a set visits [elements] of it.  Where a loop walks a map,
      the map is the list of its entries in the order of the walk.
    - The mutex is not modelled: every call runs to completion before the
      next one starts. *)

From stdpp Require Import gmap list fin_maps fin_sets strings.
From Stdlib Require Import ZArith Lia.

(** * The peer manager *)

Module PeerManager.

(** ** Peers and addresses *)

(** A 64-bit unsigned value: sums and differences of times wrap around. *)
Definition u64 (x : Z) : Z := (x mod 2 ^ 64)%Z.

(** Modelled from the spec: [net_address.h] is not among the sources; a
    [NetAddress] is an IP address with a port, compared field by field. *)
Record NetAddress := mkNetAddress {
  GetIpInt : N;
  GetPort : N
}.

#[global] Instance NetAddress_eq_dec : EqDecision NetAddress.
Proof. solve_decision. Defined.

(** Modelled from the spec: the version message a peer sends in the
    handshake; [address_me_] is the address the peer reports for this node. *)
Record VersionMessage := mkVersionMessage {
  address_me_ : NetAddress
}.

(** Modelled from the spec: [peer.h] is not among the sources; a peer is the
    record of what the peer manager reads from it.  [versionMessage] is a
    pointer: it is null ([None]) until the peer's version message has
    arrived.  Times are [uint64_t] seconds. *)
Record Peer := mkPeer {
  address : NetAddress;
  isSeed : bool;
  isFullyConnected : bool;
  IsVaild : bool;
  IsSyncTimeout : bool;
  GetLastPingTime : Z;
  GetNPingFailed : Z;
  connected_time : Z;
  versionMessage : option VersionMessage
}.

#[global] Instance VersionMessage_eq_dec : EqDecision VersionMessage.
Proof. solve_decision. Defined.

#[global] Instance Peer_eq_dec : EqDecision Peer.
Proof. solve_decision. Defined.

(** The constants of [peer_manager.h]. *)
Definition kMax_outbound : Z := 8.
Definition kConnectionSetupTimeout : Z := 3 * 60.
Definition kPingWaitTimeout : Z := 3 * 60.
Definition kMaxPingFailures : Z := 3.

(** [peerMap_] is the sequence of its entries, a connection handle with its
    peer, in the order the loops visit them. *)
Definition peer_map := list (N * Peer).

(** ** CheckTimeout *)

(** The sweep returns the entries left in [peerMap_] and the entries whose
    peer it called [Disconnect()] on. *)
Fixpoint CheckTimeout (now : Z) (peerMap_ : peer_map) : peer_map * peer_map :=
  match peerMap_ with
  | [] => ([], [])
  | it :: rest =>
      let peer := it.2 in
      let swept := CheckTimeout now rest in
      if negb (IsVaild peer) then swept
      else if isFullyConnected peer then
        if (u64 (GetLastPingTime peer + kPingWaitTimeout) <? now)%Z
           || (kMaxPingFailures <? GetNPingFailed peer)%Z
        then (swept.1, it :: swept.2)
        else if IsSyncTimeout peer then (swept.1, it :: swept.2)
        else (it :: swept.1, swept.2)
      else
        if (u64 (connected_time peer + kConnectionSetupTimeout) <? now)%Z
        then (swept.1, it :: swept.2)
        else (it :: swept.1, swept.2)
  end.

(** What [CheckTimeout] decides for one peer. *)
Inductive verdict := Keep | Erase | DisconnectErase.

Definition judge (now : Z) (peer : Peer) : verdict :=
  if negb (IsVaild peer) then Erase
  else if isFullyConnected peer then
    if (u64 (GetLastPingTime peer + kPingWaitTimeout) <? now)%Z
       || (kMaxPingFailures <? GetNPingFailed peer)%Z
    then DisconnectErase
    else if IsSyncTimeout peer then DisconnectErase else Keep
  else
    if (u64 (connected_time peer + kConnectionSetupTimeout) <? now)%Z
    then DisconnectErase else Keep.

(** ** HasConnectedTo *)

(** [None] is the failure of dereferencing a null [versionMessage]. *)
Fixpoint HasConnectedTo (addr : NetAddress) (peerMap_ : peer_map) : option bool :=
  match peerMap_ with
  | [] => Some false
  | peer :: rest =>
      if decide (addr = address peer.2) then Some true
      else
        match versionMessage peer.2 with
        | None => None
        | Some version =>
            if decide (addr = address_me_ version) then Some true
            else HasConnectedTo addr rest
        end
  end.

(** ** What the handlers do to their collaborators *)

Inductive action :=
| AddNewAddress (addr : NetAddress)
| RelayAddressMsg (addressList : list NetAddress) (msg_from : N)
| Disconnect (peer : N)
| ConnectTo (addr : NetAddress)
| SetLastTry (addr : NetAddress) (now : Z).

(** What the address manager and the clock answer in one round of the inner
    loop of [OpenConnection]: [GetOneAddress(false)], [time(nullptr)] and
    [GetLastTry]. *)
Record round := mkRound {
  try_to_connect : option NetAddress;
  round_now : Z;
  round_lastTry : Z
}.

Section Handlers.

(** [AddressMessage::kMaxAddressSize] and [NetAddress::IsRoutable] belong to
    sources that are not at hand; they are parameters. *)
Variable kMaxAddressSize : nat.
Variable IsRoutable : NetAddress → bool.

(** ** ProcessAddressMessage *)

Definition ProcessAddressMessage (addressList : list NetAddress) (peer : N * Peer)
    : list action :=
  (if decide (kMaxAddressSize < length addressList) then []
   else
     let relayMessage := filter (λ addr, IsRoutable addr = true) addressList in
     (AddNewAddress <$> relayMessage) ++
     (if decide (relayMessage = []) then [] else [RelayAddressMsg relayMessage peer.1]))
  ++ (if isSeed peer.2 then [Disconnect peer.1] else []).

(** ** OpenConnection *)

(** The inner [while (num_tries < 100)] loop; [tries] counts the rounds that
    are left. *)
Fixpoint try_addresses (tries : nat) (rounds : list round) (peerMap_ : peer_map)
    : option (list action) :=
  match tries, rounds with
  | O, _ => Some []
  | _, [] => Some []
  | S tries, r :: rounds =>
      match try_to_connect r with
      | None => Some []
      | Some addr =>
          match HasConnectedTo addr peerMap_ with
          | None => None
          | Some true => try_addresses tries rounds peerMap_
          | Some false =>
              if (u64 (round_now r - round_lastTry r) <? 120)%Z
              then try_addresses tries rounds peerMap_
              else Some [ConnectTo addr; SetLastTry addr (round_now r)]
          end
      end
  end.

(** One iteration of the loop of [OpenConnection], after its sleep:
    [outbound] is [GetOutboundNum()], [seed] is [GetOneSeed()] with the
    default port. *)
Definition OpenConnection_iteration (outbound : Z) (seed : option NetAddress)
    (rounds : list round) (peerMap_ : peer_map) : option (list action) :=
  if (kMax_outbound <? outbound)%Z then Some []
  else
    match try_addresses 100 rounds peerMap_ with
    | None => None
    | Some dialed =>
        Some (match seed with Some s => [ConnectTo s] | None => [] end ++ dialed)
    end.

End Handlers.

(** ** The sizes of the peer map *)

Definition GetConnectedPeerSize (peerMap_ : peer_map) : nat := length peerMap_.

(** The loop counts the entries whose peer is fully connected. *)
Definition GetFullyConnectedPeerSize (peerMap_ : peer_map) : nat :=
  foldl (λ count it, if isFullyConnected it.2 then S count else count) 0 peerMap_.

(** ** RelayAddressMsg *)

(** The [for] loop of [RelayAddressMsg].  [draws] lists what [dis(gen)]
    answers in the successive iterations, one draw for each of the
    [kMaxPeersToRelayAddr] iterations.  A peer is identified by the
    connection handle of its entry, as in [ProcessAddressMessage]; the result
    lists the peers whose [RelayAddrMsg] is called, in order.  [None] is an
    iterator advanced past the end of the map. *)
Fixpoint relay_offsets (draws : list nat) (selectedOffset : gset nat) (msg_from : N)
    (peerMap_ : list (N * Peer)) : option (list N) :=
  match draws with
  | [] => Some []
  | offset :: draws =>
      if decide (offset ∈ selectedOffset)
      then relay_offsets draws selectedOffset msg_from peerMap_
      else
        match peerMap_ !! offset with
        | None => None
        | Some it =>
            match relay_offsets draws (selectedOffset ∪ {[offset]}) msg_from peerMap_ with
            | None => None
            | Some sent => Some (if decide (it.1 = msg_from) then sent else it.1 :: sent)
            end
        end
  end.

Definition RelayAddressMsg_sends (draws : list nat) (msg_from : N)
    (peerMap_ : list (N * Peer)) : option (list N) :=
  match peerMap_ with
  | [] => Some []
  | _ => relay_offsets draws ∅ msg_from peerMap_
  end.

(** ** The entries of the peer map *)

#[global] Instance verdict_eq_dec : EqDecision verdict.
Proof. solve_decision. Defined.

(** [peerMap_.find(connection)]: the peer of the entry with that handle, or
    [nullptr]. *)
Fixpoint GetPeer (connection : N) (peerMap_ : list (N * Peer)) : option Peer :=
  match peerMap_ with
  | [] => None
  | it :: rest => if decide (it.1 = connection) then Some it.2 else GetPeer connection rest
  end.

(** [peerMap_.insert(...)] leaves the map as it is when it has an entry with
    that handle.  Where a new entry comes to stand in the order of the visits
    is up to the hash table; it is put last here, and no property below
    depends on the place. *)
Definition AddPeer (connection : N) (peer : Peer) (peerMap_ : list (N * Peer))
    : list (N * Peer) :=
  match GetPeer connection peerMap_ with
  | Some _ => peerMap_
  | None => peerMap_ ++ [(connection, peer)]
  end.

Definition RemovePeer (connection : N) (peerMap_ : list (N * Peer)) : list (N * Peer) :=
  filter (λ it, it.1 ≠ connection) peerMap_.

End PeerManager.

(** * The concurrent containers

    The containers of [utils/concurrent_container.h] wrap a standard
    container [c] and take its lock around every operation.  With the lock
    not modelled, an operation is a function of [c]. *)

Module ConcurrentContainer.

Section ConcurrentHashMap.

Context `{Countable K} {V : Type}.

Definition contains (k : K) (c : gmap K V) : bool := bool_decide (is_Some (c !! k)).

(** [extract] takes the node of [oldKey] out of [c]; [insert] of the node
    under [newKey] fails when [c] has that key, and the node that was not
    inserted is destroyed with the value returned by [insert]. *)
Definition update_key (oldKey newKey : K) (c : gmap K V) : gmap K V * bool :=
  match c !! oldKey with
  | Some entry =>
      let c := delete oldKey c in
      match c !! newKey with
      | None => (<[newKey := entry]> c, true)
      | Some _ => (c, false)
      end
  | None => (c, false)
  end.

Definition update_value (k : K) (v : V) (c : gmap K V) : gmap K V * bool :=
  match c !! k with
  | Some _ => (<[k := v]> c, true)
  | None => (c, false)
  end.

(** [v] is the reference the value is written to: it is returned as it
    came when the key is missing. *)
Definition get_value (k : K) (v : V) (c : gmap K V) : V * bool :=
  match c !! k with
  | Some entry => (entry, true)
  | None => (v, false)
  end.

(** The loop [for (size_t i = 0; i < rand() % c.size(); ++i) ++it] of
    [random_value]: its test calls [rand()] anew in every round, and
    [rand i] is what that call answers in round [i].  The result is the
    number of times the iterator was advanced; [None] is a loop that is still
    running after [fuel] rounds. *)
Fixpoint random_steps (fuel : nat) (rand : nat → nat) (size i : nat) : option nat :=
  match fuel with
  | O => None
  | S fuel =>
      if decide (i < rand i mod size) then random_steps fuel rand size (S i) else Some i
  end.

(** [entries] lists the entries of [c] in the order [begin()] visits them.
    The outer [None] is a call that does not return a value: the loop still
    running, or the iterator dereferenced at [end()]. *)
Definition random_value (fuel : nat) (rand : nat → nat) (entries : list (K * V))
    : option (option V) :=
  match entries with
  | [] => Some None
  | _ =>
      match random_steps fuel rand (length entries) 0 with
      | None => None
      | Some i =>
          match entries !! i with
          | Some it => Some (Some it.2)
          | None => None
          end
      end
  end.

End ConcurrentHashMap.

Section ConcurrentQueue.

Context {T : Type}.

(** The loop of [drain_to]: [i] counts up to [n] in an [int]; [None] is the
    loop that reads [front()] of an empty deque. *)
Fixpoint drain_loop (rounds : nat) (dest c : list T) : option (list T * list T) :=
  match rounds with
  | O => Some (dest, c)
  | S rounds =>
      match c with
      | [] => None
      | front :: c => drain_loop rounds (dest ++ [front]) c
      end
  end.

(** The result is the pair of [dest] and [c] after the call, with the number
    returned; the counter [i] is an [int] of 32 bits, and counting it beyond
    its range is undefined ([None]). *)
Definition drain_to (dest : list T) (n : nat) (c : list T)
    : option (list T * list T) * nat :=
  let n := n `min` length c in
  (if decide (Z.of_nat n < 2 ^ 31)%Z then drain_loop n dest c else None, n).

End ConcurrentQueue.

End ConcurrentContainer.

(** * The database wrapper *)

Module DBWrapper.

Section HandleMap.

(** [Handle] is the type of a [ColumnFamilyHandle*]. *)
Context {Handle : Type}.

(** The loop of [InitHandleMap], which walks the column names and the
    handles side by side until one of them ends. *)
Fixpoint InitHandleMap_loop (handles : list Handle) (columnNames : list string)
    (handleMap_ : gmap string Handle) {struct columnNames} : gmap string Handle :=
  match columnNames, handles with
  | keyIter :: columnNames, valIter :: handles =>
      InitHandleMap_loop handles columnNames (<[keyIter := valIter]> handleMap_)
  | _, _ => handleMap_
  end.

(** [None] is the failure of [assert(!handleMap_.empty())]. *)
Definition InitHandleMap (handles : list Handle) (columnNames : list string)
    (handleMap_ : gmap string Handle) : option (gmap string Handle) :=
  let handleMap_ := InitHandleMap_loop handles columnNames handleMap_ in
  if decide (handleMap_ = ∅) then None else Some handleMap_.

End HandleMap.

End DBWrapper.

(** * The orphan block container *)

Module OBC.

(** ** Blocks and dependency records *)

(** The part of a block the container reads: its own hash and the hashes of
    its three predecessors. *)
Record Block := mkBlock {
  GetHash : N;
  GetMilestoneHash : N;
  GetTipHash : N;
  GetPrevHash : N
}.

#[global] Instance Block_eq_dec : EqDecision Block.
Proof. solve_decision. Defined.

(** [struct obc_dep]: the number of predecessors still missing, the
    dependencies that wait for this block, and the block. *)
Record obc_dep := mk_dep {
  ndeps : Z;
  deps : list nat;
  block : Block
}.

(** The container: the heap of [obc_dep] objects and the two maps. *)
Record OBC := mkOBC {
  heap : list obc_dep;
  block_dep_map_ : gmap N nat;
  lose_ends_ : gmap N (gset nat)
}.

Definition empty : OBC :=
  {| heap := []; block_dep_map_ := ∅; lose_ends_ := ∅ |}.

Definition push_back (p : nat) (d : obc_dep) : obc_dep :=
  {| ndeps := ndeps d; deps := deps d ++ [p]; block := block d |}.

Definition set_ndeps (n : Z) (d : obc_dep) : obc_dep :=
  {| ndeps := n; deps := deps d; block := block d |}.

(** ** Observers *)

Definition Size (s : OBC) : nat := size (block_dep_map_ s).

Definition DependencySize (s : OBC) : nat := size (lose_ends_ s).

Definition IsEmpty (s : OBC) : bool := bool_decide (Size s = 0).

Definition Contains (hash : N) (s : OBC) : bool :=
  bool_decide (is_Some (block_dep_map_ s !! hash)).

(** ** Counting the places a dependency is waiting in *)

(** Occurrences of a pointer in a vector of pointers. *)
Definition occ (x : nat) (l : list nat) : nat := length (filter (eq x) l).

(** The number of [lose_ends_] entries whose set holds the pointer. *)
Definition ends_count (x : nat) (le : gmap N (gset nat)) : nat :=
  size (filter (λ kv, x ∈ kv.2) le).

(** A dependency whose counter is within 1..3 is still to be released. *)
Definition live (d : obc_dep) : bool := (0 <? ndeps d)%Z && (ndeps d <=? 3)%Z.

(** Occurrences of a pointer in the [deps] of the dependencies still to be
    released. *)
Definition held (x : nat) (d : obc_dep) : nat :=
  if live d then occ x (deps d) else 0.

Definition held_count (x : nat) (hp : list obc_dep) : nat := sum_list (held x <$> hp).

Definition held_size (d : obc_dep) : nat := if live d then length (deps d) else 0.

Definition held_total (hp : list obc_dep) : nat := sum_list (held_size <$> hp).

(** Occurrences of a pointer in the [deps] of all dependencies. *)
Definition any_count (x : nat) (hp : list obc_dep) : nat :=
  sum_list ((λ d, occ x (deps d)) <$> hp).

(** All the places from which the pointer will still be popped: the stack of
    a running [SubmitHash], the [deps] of live dependencies and the lose ends. *)
Definition pending (x : nat) (hp : list obc_dep) (le : gmap N (gset nat))
    (stack : list nat) : nat :=
  occ x stack + held_count x hp + ends_count x le.

(** The calls of a client of the container. *)
Inductive call :=
| CallAddBlock (b : Block) (missing_mask : N)
| CallSubmitHash (hash : N).

#[global] Instance call_eq_dec : EqDecision call.
Proof. solve_decision. Defined.

(** The blocks a sequence of calls adds to the container: those of the
    [AddBlock] calls whose mask is not zero. *)
Fixpoint added_blocks (cs : list call) : list Block :=
  match cs with
  | [] => []
  | CallAddBlock b m :: cs =>
      if (m =? 0)%N then added_blocks cs else b :: added_blocks cs
  | CallSubmitHash _ :: cs => added_blocks cs
  end.

(** Sample blocks: B waits for the hash 10, C for the hash of B; the twin
    names the hash of B in two parent fields and the hash 77 in the third. *)
Definition sample_B : Block :=
  {| GetHash := 11; GetMilestoneHash := 0; GetTipHash := 0; GetPrevHash := 10 |}.

Definition sample_C : Block :=
  {| GetHash := 12; GetMilestoneHash := 0; GetTipHash := 0; GetPrevHash := 11 |}.

Definition sample_twin : Block :=
  {| GetHash := 13; GetMilestoneHash := 11; GetTipHash := 11; GetPrevHash := 77 |}.

Section Container.

(** The declarations of [obc.h] are not part of the sources at hand: the three
    bits of the missing mask and the width of the unsigned counter [ndeps] are
    taken as parameters. *)
Variables M_MISSING T_MISSING P_MISSING : N.
Variable ndeps_bits : Z.

Definition ndeps_modulus : Z := 2 ^ ndeps_bits.

(** ** AddBlock *)

(** The lambda [common_insert] of [AddBlock]; it captures the new dependency
    [dep], the two maps and the set [unique_missing_hashes]. *)
Definition common_insert (dep : nat) (hash : N) (st : OBC * gset N) : OBC * gset N :=
  let s := st.1 in
  let unique_missing_hashes := st.2 ∪ {[hash]} in
  match block_dep_map_ s !! hash with
  | None =>
      ({| heap := heap s;
          block_dep_map_ := block_dep_map_ s;
          lose_ends_ := <[hash := default ∅ (lose_ends_ s !! hash) ∪ {[dep]}]> (lose_ends_ s) |},
       unique_missing_hashes)
  | Some it =>
      ({| heap := alter (push_back dep) it (heap s);
          block_dep_map_ := block_dep_map_ s;
          lose_ends_ := lose_ends_ s |},
       unique_missing_hashes)
  end.

Definition insert_if (mask bit : N) (dep : nat) (hash : N) (st : OBC * gset N) : OBC * gset N :=
  if (N.land mask bit =? 0)%N then st else common_insert dep hash st.

Definition AddBlock (b : Block) (missing_mask : N) (s : OBC) : OBC :=
  if (missing_mask =? 0)%N then s
  else
    let dep := length (heap s) in
    let s0 := {| heap := heap s ++ [{| ndeps := 0; deps := []; block := b |}];
                 block_dep_map_ := <[GetHash b := dep]> (block_dep_map_ s);
                 lose_ends_ := lose_ends_ s |} in
    let st := insert_if missing_mask M_MISSING dep (GetMilestoneHash b) (s0, ∅) in
    let st := insert_if missing_mask T_MISSING dep (GetTipHash b) st in
    let st := insert_if missing_mask P_MISSING dep (GetPrevHash b) st in
    {| heap := alter (set_ndeps (Z.of_nat (size st.2) mod ndeps_modulus)) dep (heap st.1);
       block_dep_map_ := block_dep_map_ st.1;
       lose_ends_ := lose_ends_ st.1 |}.

(** The parents [AddBlock] looks up for a mask, in the order it does. *)
Definition missing_parents (b : Block) (mask : N) : list N :=
  (if (N.land mask M_MISSING =? 0)%N then [] else [GetMilestoneHash b]) ++
  (if (N.land mask T_MISSING =? 0)%N then [] else [GetTipHash b]) ++
  (if (N.land mask P_MISSING =? 0)%N then [] else [GetPrevHash b]).

(** The two ends of [AddBlock]: the new dependency is allocated and entered in
    [block_dep_map_]; its counter is set last. *)
Definition alloc (b : Block) (s : OBC) : OBC :=
  {| heap := heap s ++ [{| ndeps := 0; deps := []; block := b |}];
     block_dep_map_ := <[GetHash b := length (heap s)]> (block_dep_map_ s);
     lose_ends_ := lose_ends_ s |}.

Definition finish (dep : nat) (st : OBC * gset N) : OBC :=
  {| heap := alter (set_ndeps (Z.of_nat (size st.2) mod ndeps_modulus)) dep (heap st.1);
     block_dep_map_ := block_dep_map_ st.1;
     lose_ends_ := lose_ends_ st.1 |}.

(** ** SubmitHash *)

(** The [while (!stack.empty())] loop.  The head of the list is the back of the
    vector [stack].  [None] stands for a loop that has not finished within
    [fuel] iterations (or that follows a pointer outside the heap, which a
    [shared_ptr] never does). *)
Fixpoint release (fuel : nat) (hp : list obc_dep) (bdm : gmap N nat)
    (stack : list nat) (result : list Block)
    : option (list obc_dep * gmap N nat * list Block) :=
  match stack with
  | [] => Some (hp, bdm, result)
  | cursor :: stack =>
      match fuel with
      | O => None
      | S fuel =>
          match hp !! cursor with
          | None => None
          | Some d =>
              let n := ((ndeps d - 1) mod ndeps_modulus)%Z in
              let hp := <[cursor := set_ndeps n d]> hp in
              if (0 <? n)%Z then release fuel hp bdm stack result
              else release fuel hp (delete (GetHash (block d)) bdm)
                     (reverse (deps d) ++ stack) (result ++ [block d])
          end
      end
  end.

Definition SubmitHash (fuel : nat) (hash : N) (s : OBC) : option (OBC * option (list Block)) :=
  match lose_ends_ s !! hash with
  | None => Some (s, None)
  | Some range =>
      match release fuel (heap s) (block_dep_map_ s) (reverse (elements range)) [] with
      | None => None
      | Some (hp, bdm, result) =>
          Some ({| heap := hp; block_dep_map_ := bdm;
                   lose_ends_ := delete hash (lose_ends_ s) |}, Some result)
      end
  end.

(** ** Sequences of calls *)

(** Runs the calls in order from [s]; the second component collects the blocks
    of all [SubmitHash] results, in the order they were returned. *)
Fixpoint run (fuel : nat) (cs : list call) (s : OBC) : option (OBC * list Block) :=
  match cs with
  | [] => Some (s, [])
  | CallAddBlock b m :: cs => run fuel cs (AddBlock b m s)
  | CallSubmitHash h :: cs =>
      match SubmitHash fuel h s with
      | None => None
      | Some (s', r) =>
          match run fuel cs s' with
          | None => None
          | Some (s'', out) => Some (s'', default [] r ++ out)
          end
      end
  end.

(** The states the container can be in. *)
Inductive reachable : OBC → Prop :=
| reachable_empty : reachable empty
| reachable_AddBlock s b m : reachable s → reachable (AddBlock b m s)
| reachable_SubmitHash s fuel h s' r :
    reachable s → SubmitHash fuel h s = Some (s', r) → reachable s'.

(** ** Invariants

    The predicates the proofs below maintain over the heap and the maps. *)

(** What a released dependency has been popped beyond its release, plus one:
    zero for a live dependency. *)
Definition debt (d : obc_dep) : Z :=
  (if live d then 0 else (ndeps_modulus - ndeps d) mod ndeps_modulus + 1)%Z.

(** Every pointer held anywhere points into the heap. *)
Record closed (hp : list obc_dep) (le : gmap N (gset nat)) (stack : list nat) : Prop := {
  closed_stack : ∀ x, x ∈ stack → x < length hp;
  closed_deps : ∀ q d x, hp !! q = Some d → x ∈ deps d → x < length hp;
  closed_ends : ∀ h X x, le !! h = Some X → x ∈ X → x < length hp
}.

(** A dependency is waiting in at most three places, less what it has already
    been popped after its release. *)
Record counted (hp : list obc_dep) (le : gmap N (gset nat)) (stack : list nat) : Prop := {
  counted_closed : closed hp le stack;
  counted_range : ∀ x d, hp !! x = Some d → (0 ≤ ndeps d < ndeps_modulus)%Z;
  counted_bound : ∀ x d, hp !! x = Some d → (Z.of_nat (pending x hp le stack) + debt d ≤ 3)%Z
}.

(** What one run of the loop does to the heap and to [block_dep_map_]: [rl]
    lists the pointers it released, in order, and [bs] their blocks. *)
Record released_by (hp hp' : list obc_dep) (bdm bdm' : gmap N nat)
    (rl : list nat) (bs : list Block) : Prop := {
  rb_length : length hp' = length hp;
  rb_same : ∀ x d, hp !! x = Some d →
    ∃ d', hp' !! x = Some d' ∧ block d' = block d ∧ deps d' = deps d ∧
          (live d' = true ↔ live d = true ∧ x ∉ rl);
  rb_blocks : Forall2 (λ x b, ∃ d, hp !! x = Some d ∧ live d = true ∧ block d = b) rl bs;
  rb_nodup : NoDup rl;
  rb_bdm : ∀ h q, bdm' !! h = Some q ↔
    bdm !! h = Some q ∧ ∀ x d, x ∈ rl → hp !! x = Some d → GetHash (block d) ≠ h
}.

(** How the state [s1] reached after looking up the parents [ps] relates to
    the state [s0] in which the new dependency [dep] was allocated. *)
Record placing (dep : nat) (s0 s1 : OBC) (ps : list N) : Prop := {
  pl_length : length (heap s1) = length (heap s0);
  pl_bdm : block_dep_map_ s1 = block_dep_map_ s0;
  pl_heap : ∀ x d, heap s0 !! x = Some d →
    ∃ d', heap s1 !! x = Some d' ∧ ndeps d' = ndeps d ∧ block d' = block d ∧
      (∀ y, y ≠ dep → occ y (deps d') = occ y (deps d)) ∧
      (∀ y, y ∈ deps d' →
         y ∈ deps d ∨ (y = dep ∧ ∃ h, h ∈ ps ∧ block_dep_map_ s0 !! h = Some x)) ∧
      (∀ y, y ∈ deps d → y ∈ deps d');
  pl_ends_other : ∀ x, x ≠ dep →
    ends_count x (lose_ends_ s1) = ends_count x (lose_ends_ s0);
  pl_ends : ∀ h X x, lose_ends_ s1 !! h = Some X → x ∈ X →
    (∃ X0, lose_ends_ s0 !! h = Some X0 ∧ x ∈ X0) ∨
    (x = dep ∧ h ∈ ps ∧ block_dep_map_ s0 !! h = None);
  pl_ends_keep : ∀ h X0 x, lose_ends_ s0 !! h = Some X0 → x ∈ X0 →
    ∃ X, lose_ends_ s1 !! h = Some X ∧ x ∈ X;
  pl_placed : ∀ h, h ∈ ps →
    match block_dep_map_ s0 !! h with
    | None => ∃ X, lose_ends_ s1 !! h = Some X ∧ dep ∈ X
    | Some q => ∀ d, heap s0 !! q = Some d → ∃ d', heap s1 !! q = Some d' ∧ dep ∈ deps d'
    end;
  pl_count :
    any_count dep (heap s1) + ends_count dep (lose_ends_ s1) ≤
    any_count dep (heap s0) + ends_count dep (lose_ends_ s0) + length ps
}.

(** The iterations [SubmitHash] needs at most. *)
Definition fuel_needed (hash : N) (s : OBC) : nat :=
  size (default ∅ (lose_ends_ s !! hash)) + held_total (heap s).

(** [block_dep_map_] maps a hash to a dependency of the heap whose block has
    that hash. *)
Definition indexed (s : OBC) : Prop :=
  ∀ h p, block_dep_map_ s !! h = Some p →
    ∃ d, heap s !! p = Some d ∧ GetHash (block d) = h.

(** A dependency waits in [lose_ends_] only under hashes that were not keys
    of [block_dep_map_] when it was added: an orphan stored under such a hash
    was added later. *)
Definition waiters_older (s : OBC) : Prop :=
  ∀ h p X x, block_dep_map_ s !! h = Some p → lose_ends_ s !! h = Some X →
    x ∈ X → x < p.

(** The invariant of a sequence of calls that adds no block twice: [acc]
    collects the blocks released so far. *)
Record single (s : OBC) (acc : list Block) : Prop := {
  sg_counted : counted (heap s) (lose_ends_ s) [];
  sg_nodup : NoDup acc;
  sg_dead : ∀ x d, heap s !! x = Some d → block d ∈ acc → live d = false;
  sg_from : ∀ b, b ∈ acc → ∃ x d, heap s !! x = Some d ∧ block d = b;
  sg_inj : ∀ x y d e, heap s !! x = Some d → heap s !! y = Some e →
    block d = block e → x = y
}.

(** The caller's contract for one [AddBlock]: the mask selects at least one
    parent, the selected parents carry pairwise distinct hashes, and none of
    them is the block's own hash. *)
Definition well_added (b : Block) (mask : N) : Prop :=
  missing_parents b mask ≠ [] ∧ NoDup (missing_parents b mask) ∧
  GetHash b ∉ missing_parents b mask.

Fixpoint contract (cs : list call) : Prop :=
  match cs with
  | [] => True
  | CallAddBlock b m :: cs => well_added b m ∧ contract cs
  | CallSubmitHash _ :: cs => contract cs
  end.

(** Under the contract [ndeps] is exactly the number of places a dependency
    is waiting in, the dependencies in [block_dep_map_] are live, and no two
    dependencies carry blocks with the same hash. *)
Record exact (s : OBC) : Prop := {
  ex_closed : closed (heap s) (lose_ends_ s) [];
  ex_count : ∀ x d, heap s !! x = Some d →
    (0 ≤ ndeps d ≤ 3)%Z ∧ ndeps d = Z.of_nat (pending x (heap s) (lose_ends_ s) []);
  ex_bdm : ∀ h q, block_dep_map_ s !! h = Some q →
    ∃ d, heap s !! q = Some d ∧ GetHash (block d) = h ∧ live d = true;
  ex_hash : ∀ x y d e, heap s !! x = Some d → heap s !! y = Some e →
    GetHash (block d) = GetHash (block e) → x = y
}.

(** The same count while the loop of [SubmitHash] runs. *)
Record exact_loop (hp : list obc_dep) (le : gmap N (gset nat)) (stack : list nat) : Prop := {
  el_closed : closed hp le stack;
  el_count : ∀ x d, hp !! x = Some d →
    (0 ≤ ndeps d ≤ 3)%Z ∧ ndeps d = Z.of_nat (pending x hp le stack)
}.

(** No dependency of the container carries a block with the hash of [b]. *)
Definition fresh_hash (s : OBC) (b : Block) : Prop :=
  ∀ x d, heap s !! x = Some d → GetHash (block d) ≠ GetHash b.

(** The block [b] was added with [mask] in the state [s0]; since then the
    calls [done] have run, have returned the blocks [out] and have led to the
    state [s].  The dependency of [b] waits in [lose_ends_] under the parents
    that were not in the container and have not been submitted since, and in
    the [deps] of the parents that were in the container; a dependency that
    was live when [b] was added has been released since exactly when its block
    is in [out]. *)
Record tracked (s0 : OBC) (b : Block) (mask : N) (done : list call)
    (out : list Block) (s : OBC) : Prop := {
  tr_length : length (heap s0) < length (heap s);
  tr_ends : ∀ h,
    (∃ X, lose_ends_ s !! h = Some X ∧ length (heap s0) ∈ X) ↔
    (h ∈ missing_parents b mask ∧ block_dep_map_ s0 !! h = None ∧
     CallSubmitHash h ∉ done);
  tr_deps : ∀ q d, heap s !! q = Some d →
    (length (heap s0) ∈ deps d ↔
     ∃ h, h ∈ missing_parents b mask ∧ block_dep_map_ s0 !! h = Some q);
  tr_out : ∀ x d1, heap (AddBlock b mask s0) !! x = Some d1 → live d1 = true →
    ∃ d, heap s !! x = Some d ∧ block d = block d1 ∧
         (block d ∈ out ↔ live d = false)
}.

(** The invariant of a sequence of calls that adds no hash twice and selects
    a parent in every mask: [block_dep_map_] stores the dependencies still to
    be released, each under the hash of its block, and [acc], the blocks
    released so far, are the blocks of the other dependencies. *)
Record accounted (s : OBC) (acc : list Block) : Prop := {
  ac_single : single s acc;
  ac_hash : ∀ x y d e, heap s !! x = Some d → heap s !! y = Some e →
    GetHash (block d) = GetHash (block e) → x = y;
  ac_bdm : ∀ h q, block_dep_map_ s !! h = Some q ↔
    ∃ d, heap s !! q = Some d ∧ GetHash (block d) = h ∧ live d = true;
  ac_dead : ∀ x d, heap s !! x = Some d → live d = false → block d ∈ acc
}.

(** Every mask that is not zero selects at least one parent. *)
Fixpoint selecting (cs : list call) : Prop :=
  match cs with
  | [] => True
  | CallAddBlock b m :: cs => (m = 0%N ∨ missing_parents b m ≠ []) ∧ selecting cs
  | CallSubmitHash _ :: cs => selecting cs
  end.

(** The count of [exact_loop] for a dependency that [AddBlock] entered in more
    places than it counted: the counter of [x] falls short of its places by
    [off x], which is at most one, and that many of its places are lose
    ends. *)
Record exact_off (off : nat → Z) (hp : list obc_dep) (le : gmap N (gset nat))
    (stack : list nat) : Prop := {
  eo_closed : closed hp le stack;
  eo_off : ∀ x, (0 ≤ off x ≤ 1)%Z ∧ (off x ≤ Z.of_nat (ends_count x le))%Z;
  eo_count : ∀ x d, hp !! x = Some d →
    (0 ≤ ndeps d)%Z ∧ (ndeps d + off x ≤ 3)%Z ∧
    (ndeps d + off x)%Z = Z.of_nat (pending x hp le stack)
}.

(** [ndeps] is an unsigned integer: it has at least eight bits. *)
Hypothesis ndeps_wide : (8 ≤ ndeps_bits)%Z.

(** ** Counting lemmas *)

Lemma occ_nil x : occ x [] = 0.
Proof. reflexivity. Qed.

Lemma occ_cons x y l : occ x (y :: l) = (if decide (x = y) then 1 else 0) + occ x l.
Proof. unfold occ. rewrite filter_cons. destruct (decide (x = y)); reflexivity. Qed.

Lemma occ_app x l k : occ x (l ++ k) = occ x l + occ x k.
Proof. unfold occ. rewrite filter_app, length_app. reflexivity. Qed.

Lemma occ_reverse x l : occ x (reverse l) = occ x l.
Proof.
  induction l as [|y l IH]; [reflexivity|].
  rewrite reverse_cons, occ_app, IH, !occ_cons, occ_nil. lia.
Qed.

Lemma occ_zero x l : occ x l = 0 ↔ x ∉ l.
Proof.
  induction l as [|y l IH].
  - split; [intros _; apply not_elem_of_nil | reflexivity].
  - rewrite occ_cons, not_elem_of_cons. destruct (decide (x = y)); split; intros; try lia; tauto.
Qed.

Lemma occ_pos x l : 0 < occ x l ↔ x ∈ l.
Proof.
  destruct (decide (x ∈ l)) as [H|H].
  - split; [tauto|]. intros _. destruct (occ x l) eqn:E; [|lia]. apply occ_zero in E. tauto.
  - apply occ_zero in H as H'. rewrite H'. split; [lia|tauto].
Qed.

Lemma occ_NoDup x l : NoDup l → occ x l = if decide (x ∈ l) then 1 else 0.
Proof.
  induction 1 as [|y l Hy Hl IH]; rewrite ?occ_cons.
  - rewrite occ_nil. destruct (decide (x ∈ [])) as [H|]; [inversion H|reflexivity].
  - rewrite IH. destruct (decide (x = y)) as [->|Hne].
    + rewrite (decide_False (P := y ∈ l)), (decide_True (P := y ∈ y :: l)) by (auto; left). reflexivity.
    + destruct (decide (x ∈ l)).
      * rewrite decide_True by (by right). reflexivity.
      * rewrite decide_False; [reflexivity|]. rewrite elem_of_cons; tauto.
Qed.

Lemma ends_count_empty x : ends_count x ∅ = 0.
Proof. unfold ends_count. rewrite map_filter_empty. apply map_size_empty. Qed.

Lemma ends_count_insert_fresh x h X (le : gmap N (gset nat)) :
  le !! h = None →
  ends_count x (<[h := X]> le) = (if decide (x ∈ X) then 1 else 0) + ends_count x le.
Proof.
  intros Hh. unfold ends_count.
  destruct (decide (x ∈ X)) as [Hx|Hx].
  - rewrite map_filter_insert_True by done.
    rewrite map_size_insert_None; [reflexivity|].
    rewrite map_lookup_filter_None. left; done.
  - rewrite map_filter_insert_False by done.
    rewrite delete_id by done. reflexivity.
Qed.

Lemma ends_count_delete x h X (le : gmap N (gset nat)) :
  le !! h = Some X →
  ends_count x le = (if decide (x ∈ X) then 1 else 0) + ends_count x (delete h le).
Proof.
  intros Hh. rewrite <- (insert_delete_id le h X) at 1 by done.
  rewrite ends_count_insert_fresh by apply lookup_delete_eq. reflexivity.
Qed.

Lemma ends_count_delete_None x h (le : gmap N (gset nat)) :
  le !! h = None → ends_count x (delete h le) = ends_count x le.
Proof. intros. rewrite delete_id by done. reflexivity. Qed.

Lemma ends_count_insert x h X (le : gmap N (gset nat)) :
  ends_count x (<[h := X]> le) = (if decide (x ∈ X) then 1 else 0) + ends_count x (delete h le).
Proof.
  rewrite <- insert_delete_eq. apply ends_count_insert_fresh, lookup_delete_eq.
Qed.

Lemma ends_count_zero x (le : gmap N (gset nat)) :
  ends_count x le = 0 ↔ ∀ h X, le !! h = Some X → x ∉ X.
Proof.
  unfold ends_count. rewrite map_size_empty_iff. split.
  - intros He h X Hh Hx.
    assert (filter (λ kv : N * gset nat, x ∈ kv.2) le !! h = Some X) as Hf
      by (apply map_lookup_filter_Some; done).
    rewrite He, lookup_empty in Hf. discriminate.
  - intros H. apply map_eq. intros h. rewrite lookup_empty.
    apply map_lookup_filter_None. destruct (le !! h) as [X|] eqn:E; [right|left; done].
    intros X' [= <-]. simpl. eauto.
Qed.

(** ** The invariant behind termination and single release *)

Lemma modulus_big : (256 ≤ ndeps_modulus)%Z.
Proof.
  unfold ndeps_modulus. change 256%Z with (2 ^ 8)%Z. apply Z.pow_le_mono_r; lia.
Qed.

Lemma sum_list_insert (f : obc_dep → nat) hp c d d' :
  hp !! c = Some d →
  (sum_list (f <$> <[c := d']> hp) + f d = sum_list (f <$> hp) + f d')%nat.
Proof.
  revert c. induction hp as [|e hp IH]; intros [|c] H; simplify_eq/=; try lia.
  specialize (IH c H). lia.
Qed.

Lemma held_count_insert x hp c d d' :
  hp !! c = Some d →
  (held_count x (<[c := d']> hp) + held x d = held_count x hp + held x d')%nat.
Proof. apply sum_list_insert. Qed.

Lemma held_total_insert hp c d d' :
  hp !! c = Some d →
  (held_total (<[c := d']> hp) + held_size d = held_total hp + held_size d')%nat.
Proof. apply sum_list_insert. Qed.

Lemma live_range d : live d = true ↔ (1 ≤ ndeps d ≤ 3)%Z.
Proof. unfold live. rewrite andb_true_iff, Z.ltb_lt, Z.leb_le. lia. Qed.

Lemma live_false d : live d = false ↔ (ndeps d ≤ 0 ∨ 3 < ndeps d)%Z.
Proof. unfold live. rewrite andb_false_iff, Z.ltb_ge, Z.leb_gt. lia. Qed.

Lemma decr_mod n :
  (0 ≤ n < ndeps_modulus)%Z →
  ((n - 1) mod ndeps_modulus = if n =? 0 then ndeps_modulus - 1 else n - 1)%Z.
Proof.
  intros Hn. pose proof modulus_big as HM.
  destruct (Z.eqb_spec n 0) as [->|Hne].
  - symmetry. apply (Z.mod_unique_pos _ _ (-1)); lia.
  - apply Z.mod_small. lia.
Qed.

Lemma debt_live d : live d = true → debt d = 0%Z.
Proof. unfold debt. intros ->. reflexivity. Qed.

Lemma debt_dead d :
  live d = false → (0 ≤ ndeps d < ndeps_modulus)%Z →
  debt d = (if ndeps d =? 0 then 1 else ndeps_modulus - ndeps d + 1)%Z.
Proof.
  unfold debt. intros -> Hn. pose proof modulus_big as HM.
  destruct (Z.eqb_spec (ndeps d) 0) as [->|Hne].
  - rewrite Z.sub_0_r, Z_mod_same_full. reflexivity.
  - rewrite Z.mod_small by lia. reflexivity.
Qed.

Lemma lookup_insert_cases (hp : list obc_dep) c d1 x dx :
  <[c := d1]> hp !! x = Some dx →
  (x = c ∧ dx = d1 ∧ c < length hp) ∨ (x ≠ c ∧ hp !! x = Some dx).
Proof.
  intros H. destruct (decide (x = c)) as [->|Hne].
  - left. assert (c < length hp) as Hlt.
    { apply lookup_lt_Some in H. rewrite length_insert in H. done. }
    rewrite list_lookup_insert_eq in H by done. naive_solver.
  - right. rewrite list_lookup_insert_ne in H by done. done.
Qed.

Lemma closed_pop hp le c stack d n extra :
  closed hp le (c :: stack) → hp !! c = Some d →
  (∀ x, x ∈ extra → x ∈ deps d) →
  closed (<[c := set_ndeps n d]> hp) le (extra ++ stack).
Proof.
  intros [Hs Hd He] Hc Hex. split.
  - intros x Hx. rewrite length_insert. apply elem_of_app in Hx as [Hx|Hx].
    + eapply Hd; eauto.
    + apply Hs. by right.
  - intros q dq x Hq Hx. rewrite length_insert.
    apply lookup_insert_cases in Hq as [(-> & -> & _)|[_ Hq]]; eapply Hd; eauto.
  - intros h X x Hh Hx. rewrite length_insert. eauto.
Qed.

(** One iteration of the loop of [SubmitHash] keeps the invariant and uses up
    one pending place. *)
Lemma pop_counted hp le c stack d :
  counted hp le (c :: stack) → hp !! c = Some d →
  let n := ((ndeps d - 1) mod ndeps_modulus)%Z in
  let hp1 := <[c := set_ndeps n d]> hp in
  if (0 <? n)%Z
  then counted hp1 le stack ∧ held_total hp1 = held_total hp ∧
       live (set_ndeps n d) = live d
  else live d = true ∧ live (set_ndeps n d) = false ∧
       counted hp1 le (reverse (deps d) ++ stack) ∧
       held_total hp1 + length (deps d) = held_total hp.
Proof.
  intros [Hcl Hrg Hbd] Hc n hp1. pose proof modulus_big as HM.
  pose proof (Hrg _ _ Hc) as Hr. pose proof (Hbd _ _ Hc) as Hb.
  assert (1 ≤ pending c hp le (c :: stack)) as Hp1.
  { unfold pending. rewrite occ_cons, decide_True by done. lia. }
  assert (n = if (ndeps d =? 0)%Z then (ndeps_modulus - 1)%Z else (ndeps d - 1)%Z) as Hn
    by (apply decr_mod; done).
  assert (0 ≤ n < ndeps_modulus)%Z as Hnr by (apply Z.mod_pos_bound; lia).
  pose proof (held_total_insert hp c d (set_ndeps n d) Hc) as Htot.
  fold hp1 in Htot.
  assert (∀ x, held_count x hp1 + held x d = held_count x hp + held x (set_ndeps n d)) as Hheld
    by (intros x; apply held_count_insert; done).
  assert (∀ x dx, hp1 !! x = Some dx →
            (x = c ∧ dx = set_ndeps n d) ∨ (x ≠ c ∧ hp !! x = Some dx)) as Hlk.
  { intros x dx Hx. apply lookup_insert_cases in Hx as [(? & ? & _)|?]; [left|right]; done. }
  destruct (live d) eqn:Hlive.
  - (* the dependency is still to be released *)
    apply live_range in Hlive as Hld.
    rewrite (debt_live d Hlive) in Hb.
    destruct (Z.eqb_spec (ndeps d) 0) as [?|_]; [lia|].
    destruct (Z.ltb_spec 0 n) as [Hpos|Hnpos].
    + assert (live (set_ndeps n d) = true) as Hl1 by (apply live_range; simpl; lia).
      split; [|split; [|done]].
      * split.
        -- apply (closed_pop hp le c stack d n []); [done..|]. intros x Hx. inversion Hx.
        -- intros x dx Hx. apply Hlk in Hx as [[-> ->]|[_ Hx]]; simpl; eauto.
        -- intros x dx Hx. specialize (Hheld x).
           assert (held x (set_ndeps n d) = held x d) as E
             by (unfold held; rewrite Hl1, Hlive; done).
           assert (pending x hp1 le stack ≤ pending x hp le (c :: stack)) as Hle.
           { unfold pending. rewrite occ_cons. lia. }
           apply Hlk in Hx as [[-> ->]|[_ Hx]].
           ++ rewrite (debt_live _ Hl1). lia.
           ++ specialize (Hbd _ _ Hx). lia.
      * unfold held_size in Htot. rewrite Hl1, Hlive in Htot. simpl in Htot. lia.
    + assert (n = 0%Z) as Hn0 by lia.
      assert (live (set_ndeps n d) = false) as Hl1 by (apply live_false; simpl; lia).
      split; [done|]. split; [done|]. split.
      * split.
        -- apply (closed_pop hp le c stack d n (reverse (deps d))); [done..|].
           intros x Hx. exact (proj1 (elem_of_reverse _ _) Hx).
        -- intros x dx Hx. apply Hlk in Hx as [[-> ->]|[_ Hx]]; simpl; eauto.
        -- intros x dx Hx. specialize (Hheld x).
           assert (held x (set_ndeps n d) = 0) as E1 by (unfold held; rewrite Hl1; done).
           assert (held x d = occ x (deps d)) as E2 by (unfold held; rewrite Hlive; done).
           assert (pending x hp1 le (reverse (deps d) ++ stack)
                   + (if decide (x = c) then 1 else 0) = pending x hp le (c :: stack)) as Heq.
           { unfold pending. rewrite occ_cons, occ_app, occ_reverse. lia. }
           apply Hlk in Hx as [[-> ->]|[_ Hx]].
           ++ rewrite decide_True in Heq by done.
              rewrite (debt_dead _ Hl1) by (simpl; lia). simpl. rewrite Hn0. simpl. lia.
           ++ specialize (Hbd _ _ Hx). lia.
      * unfold held_size in Htot. rewrite Hl1, Hlive in Htot. simpl in Htot. lia.
  - (* the dependency was released before *)
    apply live_false in Hlive as Hld.
    rewrite (debt_dead d Hlive Hr) in Hb.
    assert (ndeps d = 0 ∨ ndeps d = ndeps_modulus - 1)%Z as Hcases.
    { destruct (Z.eqb_spec (ndeps d) 0); lia. }
    assert (4 ≤ n)%Z as Hn4.
    { destruct (Z.eqb_spec (ndeps d) 0); lia. }
    destruct (Z.ltb_spec 0 n) as [Hpos|Hnpos]; [|lia].
    assert (live (set_ndeps n d) = false) as Hl1 by (apply live_false; simpl; lia).
    split; [|split].
    + split.
      * apply (closed_pop hp le c stack d n []); [done..|]. intros x Hx. inversion Hx.
      * intros x dx Hx. apply Hlk in Hx as [[-> ->]|[_ Hx]]; simpl; eauto.
      * intros x dx Hx. specialize (Hheld x).
        assert (held x (set_ndeps n d) = held x d) as E
          by (unfold held; rewrite Hl1, Hlive; done).
        assert (pending x hp1 le stack + (if decide (x = c) then 1 else 0)
                = pending x hp le (c :: stack)) as Heq.
        { unfold pending. rewrite occ_cons. lia. }
        apply Hlk in Hx as [[-> ->]|[_ Hx]].
        -- rewrite decide_True in Heq by done.
           rewrite (debt_dead _ Hl1) by (simpl; lia). simpl.
           destruct (Z.eqb_spec n 0); [lia|].
           destruct (Z.eqb_spec (ndeps d) 0); lia.
        -- specialize (Hbd _ _ Hx). lia.
    + unfold held_size in Htot. rewrite Hl1, Hlive in Htot. lia.
    + rewrite Hl1. done.
Qed.

(** ** The loop of [SubmitHash] *)

Lemma released_by_refl hp bdm : released_by hp hp bdm bdm [] [].
Proof.
  split; [done| |constructor|constructor|].
  - intros x d Hx. exists d. split; [done|]. split; [done|]. split; [done|].
    split; [intros H; split; [done|apply not_elem_of_nil]|intros [H _]; done].
  - intros h q. split; [|tauto]. intros H. split; [done|]. intros x d Hx. inversion Hx.
Qed.

Lemma lookup_insert_set_ndeps (hp : list obc_dep) c d n x dx :
  hp !! c = Some d → hp !! x = Some dx →
  ∃ dx1, <[c := set_ndeps n d]> hp !! x = Some dx1 ∧ block dx1 = block dx ∧
         deps dx1 = deps dx ∧ (x ≠ c → dx1 = dx) ∧ (x = c → dx1 = set_ndeps n d).
Proof.
  intros Hc Hx. destruct (decide (x = c)) as [->|Hne].
  - exists (set_ndeps n d). rewrite list_lookup_insert_eq by (eapply lookup_lt_Some; done).
    simplify_eq. done.
  - exists dx. rewrite list_lookup_insert_ne by done. done.
Qed.

(** An iteration that does not release the popped dependency. *)
Lemma released_by_keep hp hp' bdm bdm' rl bs c d n :
  hp !! c = Some d → live (set_ndeps n d) = live d →
  released_by (<[c := set_ndeps n d]> hp) hp' bdm bdm' rl bs →
  released_by hp hp' bdm bdm' rl bs.
Proof.
  intros Hc Hlive [Hlen Hsame Hbl Hnd Hbdm].
  assert (∀ x dx, hp !! x = Some dx →
            ∃ dx1, <[c := set_ndeps n d]> hp !! x = Some dx1 ∧ block dx1 = block dx ∧
                   deps dx1 = deps dx ∧ live dx1 = live dx) as Hlk.
  { intros x dx Hx.
    destruct (lookup_insert_set_ndeps hp c d n x dx Hc Hx) as (dx1 & H1 & H2 & H3 & H4 & H5).
    exists dx1. repeat split; try done.
    destruct (decide (x = c)) as [->|Hne]; [|by rewrite H4].
    rewrite H5 by done. simplify_eq. done. }
  assert (∀ x dx1, <[c := set_ndeps n d]> hp !! x = Some dx1 →
            ∃ dx, hp !! x = Some dx ∧ block dx1 = block dx ∧ live dx1 = live dx) as Hlk'.
  { intros x dx1 Hx. apply lookup_insert_cases in Hx as [(-> & -> & _)|[_ Hx]]; eauto. }
  split.
  - rewrite Hlen. apply length_insert.
  - intros x dx Hx. destruct (Hlk x dx Hx) as (dx1 & H1 & H2 & H3 & H4).
    destruct (Hsame x dx1 H1) as (d' & G1 & G2 & G3 & G4).
    exists d'. rewrite G2, G3, G4, H4. done.
  - eapply Forall2_impl; [exact Hbl|]. simpl. intros x b (dx1 & H1 & H2 & H3).
    destruct (Hlk' x dx1 H1) as (dx & G1 & G2 & G3). exists dx. rewrite <- G3, <- G2. done.
  - done.
  - intros h q. rewrite Hbdm. split; intros [H1 H2]; (split; [done|]); intros x dx Hx Hdx.
    + destruct (Hlk x dx Hdx) as (dx1 & G1 & G2 & _). rewrite <- G2. eauto.
    + destruct (Hlk' x dx Hdx) as (dx0 & G1 & G2 & _). rewrite G2. eauto.
Qed.

(** An iteration that releases the popped dependency. *)
Lemma released_by_release hp hp' bdm bdm' rl bs c d n :
  hp !! c = Some d → live d = true → live (set_ndeps n d) = false →
  released_by (<[c := set_ndeps n d]> hp) hp' (delete (GetHash (block d)) bdm) bdm' rl bs →
  released_by hp hp' bdm bdm' (c :: rl) (block d :: bs).
Proof.
  intros Hc Hlive Hdead [Hlen Hsame Hbl Hnd Hbdm].
  assert (∀ x dx1 b, <[c := set_ndeps n d]> hp !! x = Some dx1 → live dx1 = true →
            block dx1 = b → x ≠ c ∧ hp !! x = Some dx1) as Hlk'.
  { intros x dx1 b Hx Hl _. apply lookup_insert_cases in Hx as [(-> & -> & _)|[? Hx]]; [|done].
    congruence. }
  assert (c ∉ rl) as Hcrl.
  { intros Hin. apply list_elem_of_lookup in Hin as [i Hi].
    destruct (Forall2_lookup_l _ _ _ _ _ Hbl Hi) as (b & _ & dx1 & H1 & H2 & _).
    apply lookup_insert_cases in H1 as [(_ & -> & _)|[? _]]; [congruence|done]. }
  split.
  - rewrite Hlen. apply length_insert.
  - intros x dx Hx.
    destruct (lookup_insert_set_ndeps hp c d n x dx Hc Hx) as (dx1 & H1 & H2 & H3 & H4 & H5).
    destruct (Hsame x dx1 H1) as (d' & G1 & G2 & G3 & G4).
    exists d'. rewrite G2, G3, G4, H2, H3. repeat split; try done.
    + destruct (decide (x = c)) as [->|Hne].
      * rewrite H5 in H by done. destruct H. congruence.
      * rewrite H4 in H by done. tauto.
    + destruct (decide (x = c)) as [->|Hne].
      * rewrite H5 in H by done. destruct H. congruence.
      * rewrite not_elem_of_cons. tauto.
    + destruct H as [Hl Hni]. apply not_elem_of_cons in Hni as [Hne Hni].
      rewrite H4 by done. done.
    + destruct H as [Hl Hni]. apply not_elem_of_cons in Hni. tauto.
  - constructor; [eauto|].
    eapply Forall2_impl; [exact Hbl|]. simpl. intros x b (dx1 & H1 & H2 & H3).
    destruct (Hlk' x dx1 b H1 H2 H3) as [_ G]. eauto.
  - constructor; done.
  - intros h q. rewrite Hbdm, lookup_delete_Some. split.
    + intros [[Hne Hq] Hall]. split; [done|]. intros x dx Hx Hdx.
      apply elem_of_cons in Hx as [->|Hx]; [simplify_eq; done|].
      destruct (lookup_insert_set_ndeps hp c d n x dx Hc Hdx) as (dx1 & H1 & H2 & _).
      rewrite <- H2. eauto.
    + intros [Hq Hall]. split; [split; [|done]|].
      * apply (Hall c d); [left|done].
      * intros x dx1 Hx Hdx1.
        apply lookup_insert_cases in Hdx1 as [(-> & -> & _)|[_ Hdx1]]; [done|].
        apply (Hall x dx1); [by right|done].
Qed.

(** More fuel does not change the result of a loop that has finished. *)
Lemma release_mono fuel fuel' hp bdm stack result r :
  release fuel hp bdm stack result = Some r → fuel ≤ fuel' →
  release fuel' hp bdm stack result = Some r.
Proof.
  revert fuel' hp bdm stack result.
  induction fuel as [|fuel IH]; intros fuel' hp bdm stack result H Hle.
  - destruct stack; [|discriminate]. destruct fuel'; done.
  - destruct stack as [|c stack]; [destruct fuel'; done|].
    destruct fuel' as [|fuel']; [lia|]. simpl in *.
    destruct (hp !! c) as [d|]; [|done].
    destruct (0 <? _)%Z; apply IH; (done || lia).
Qed.

(** The loop finishes within as many iterations as there are pending places,
    keeps the invariant, and releases every dependency at most once. *)
Lemma release_counted le fuel : ∀ hp bdm stack result,
  counted hp le stack → length stack + held_total hp ≤ fuel →
  ∃ hp' bdm' rl bs,
    release fuel hp bdm stack result = Some (hp', bdm', result ++ bs) ∧
    counted hp' le [] ∧ released_by hp hp' bdm bdm' rl bs.
Proof.
  induction fuel as [|fuel IH]; intros hp bdm stack result Hinv Hfuel.
  - destruct stack; [|simpl in Hfuel; lia].
    exists hp, bdm, [], []. rewrite app_nil_r. split; [done|]. split; [done|].
    apply released_by_refl.
  - destruct stack as [|c stack].
    { exists hp, bdm, [], []. rewrite app_nil_r. split; [done|]. split; [done|].
      apply released_by_refl. }
    assert (is_Some (hp !! c)) as [d Hc].
    { apply lookup_lt_is_Some. apply Hinv. left. }
    pose proof (pop_counted hp le c stack d Hinv Hc) as Hpop.
    simpl in Hpop. simpl. rewrite Hc.
    destruct (0 <? _)%Z.
    + destruct Hpop as (Hinv1 & Htot & Hlive).
      destruct (IH _ bdm stack result Hinv1) as (hp' & bdm' & rl & bs & Hrel & Hinv' & Hrb).
      { simpl in Hfuel. lia. }
      exists hp', bdm', rl, bs. split; [done|]. split; [done|].
      eapply released_by_keep; done.
    + destruct Hpop as (Hlive & Hdead & Hinv1 & Htot).
      destruct (IH _ (delete (GetHash (block d)) bdm) (reverse (deps d) ++ stack)
                  (result ++ [block d]) Hinv1)
        as (hp' & bdm' & rl & bs & Hrel & Hinv' & Hrb).
      { rewrite length_app, length_reverse. simpl in Hfuel. lia. }
      exists hp', bdm', (c :: rl), (block d :: bs).
      split; [rewrite Hrel, <- app_assoc; done|]. split; [done|].
      eapply released_by_release; done.
Qed.

(** ** AddBlock, one [common_insert] at a time *)

Lemma missing_parents_length b mask : length (missing_parents b mask) ≤ 3.
Proof.
  unfold missing_parents. rewrite !length_app.
  repeat match goal with |- context [if ?c then _ else _] => destruct c end; simpl; lia.
Qed.

Lemma AddBlock_fold b mask s :
  mask ≠ 0%N →
  AddBlock b mask s =
    finish (length (heap s))
      (foldl (λ st h, common_insert (length (heap s)) h st) (alloc b s, ∅)
         (missing_parents b mask)).
Proof.
  intros Hm. unfold AddBlock, missing_parents, insert_if.
  destruct (N.eqb_spec mask 0) as [?|_]; [done|].
  repeat match goal with |- context [if ?c then _ else _] => destruct c end; reflexivity.
Qed.

Lemma AddBlock_zero b s : AddBlock b 0 s = s.
Proof. reflexivity. Qed.

Lemma sum_list_pointwise (f : obc_dep → nat) (l l' : list obc_dep) :
  length l' = length l →
  (∀ i d d', l !! i = Some d → l' !! i = Some d' → f d' = f d) →
  sum_list (f <$> l') = sum_list (f <$> l).
Proof.
  revert l'. induction l as [|d l IH]; intros [|d' l'] Hlen Hf; simplify_eq/=; [done|].
  rewrite (Hf 0 d d') by done. f_equal. apply IH; [done|].
  intros i e e' He He'. apply (Hf (S i)); done.
Qed.

Lemma sum_list_pointwise_le (f g : obc_dep → nat) (l l' : list obc_dep) :
  length l' = length l →
  (∀ i d d', l !! i = Some d → l' !! i = Some d' → f d' ≤ g d) →
  sum_list (f <$> l') ≤ sum_list (g <$> l).
Proof.
  revert l'. induction l as [|d l IH]; intros [|d' l'] Hlen Hf; simplify_eq/=; [done|].
  pose proof (Hf 0 d d' eq_refl eq_refl).
  assert (sum_list (f <$> l') ≤ sum_list (g <$> l)); [|lia].
  apply IH; [done|]. intros i e e' He He'. apply (Hf (S i)); done.
Qed.

Lemma any_count_alter x dep q (hp : list obc_dep) :
  any_count x (alter (push_back dep) q hp) =
    any_count x hp + (if decide (x = dep ∧ q < length hp) then 1 else 0).
Proof.
  unfold any_count. revert q. induction hp as [|d hp IH]; intros q.
  - simpl. rewrite decide_False by (simpl; lia). done.
  - destruct q as [|q].
    + change (alter (push_back dep) 0 (d :: hp)) with (push_back dep d :: hp).
      rewrite !fmap_cons. cbn [sum_list push_back deps length].
      rewrite occ_app, occ_cons, occ_nil.
      unfold id. repeat case_decide; try lia; exfalso; intuition lia.
    + change (alter (push_back dep) (S q) (d :: hp)) with (d :: alter (push_back dep) q hp).
      rewrite !fmap_cons. cbn [sum_list length]. rewrite IH.
      unfold id. repeat case_decide; try lia; exfalso; intuition lia.
Qed.

Lemma lookup_alter_cases (g : obc_dep → obc_dep) (hp : list obc_dep) q x dx' :
  alter g q hp !! x = Some dx' →
  ∃ dx, hp !! x = Some dx ∧ ((x = q ∧ dx' = g dx) ∨ (x ≠ q ∧ dx' = dx)).
Proof.
  intros H. destruct (decide (x = q)) as [->|Hne].
  - rewrite list_lookup_alter_eq in H. destruct (hp !! q) as [dx|]; [|done].
    simplify_eq/=. eauto.
  - rewrite list_lookup_alter_ne in H by done. eauto.
Qed.

Lemma lookup_alter_Some (g : obc_dep → obc_dep) (hp : list obc_dep) q x dx :
  hp !! x = Some dx →
  alter g q hp !! x = Some (if decide (x = q) then g dx else dx).
Proof.
  intros H. destruct (decide (x = q)) as [->|Hne].
  - rewrite list_lookup_alter_eq, H. done.
  - rewrite list_lookup_alter_ne by done. done.
Qed.

Lemma placing_refl dep s : placing dep s s [].
Proof.
  split; try done.
  - intros x d Hx. exists d. repeat split; try done. intros y Hy. by left.
  - intros h X x Hh Hx. left. eauto.
  - intros h X x Hh Hx. eauto.
  - intros h Hh. inversion Hh.
  - simpl. lia.
Qed.

Lemma ends_count_add x h dep (le : gmap N (gset nat)) :
  ends_count x (<[h := default ∅ (le !! h) ∪ {[dep]}]> le) =
    ends_count x le +
      (if decide (x = dep ∧ dep ∉ default ∅ (le !! h)) then 1 else 0).
Proof.
  rewrite ends_count_insert. destruct (le !! h) as [X|] eqn:Hh; simpl.
  - rewrite (ends_count_delete x h X le Hh).
    repeat case_decide; try lia; exfalso; set_solver.
  - rewrite ends_count_delete_None by done.
    repeat case_decide; try lia; exfalso; set_solver.
Qed.

Lemma placing_step dep s0 s1 U ps h :
  placing dep s0 s1 ps →
  placing dep s0 (common_insert dep h (s1, U)).1 (ps ++ [h]).
Proof.
  intros [Hlen Hbdm Hheap Heo Hends Hkeep Hpl Hcnt].
  unfold common_insert. cbn [fst snd].
  destruct (block_dep_map_ s1 !! h) as [q|] eqn:Hq; cbn [fst heap block_dep_map_ lose_ends_].
  - (* the parent is an orphan of the container *)
    rewrite Hbdm in Hq. split; cbn [heap block_dep_map_ lose_ends_].
    + rewrite length_alter. done.
    + done.
    + intros x d Hx. destruct (Hheap x d Hx) as (d1 & H1 & H2 & H3 & H4 & H5 & H6).
      exists (if decide (x = q) then push_back dep d1 else d1).
      split; [apply lookup_alter_Some; done|].
      destruct (decide (x = q)) as [->|Hne]; cbn [push_back ndeps block deps].
      * split; [done|]. split; [done|]. split; [|split].
        -- intros y Hy. rewrite occ_app, occ_cons, occ_nil, decide_False by done.
           rewrite H4 by done. lia.
        -- intros y Hy. apply elem_of_app in Hy as [Hy|Hy].
           ++ destruct (H5 y Hy) as [?|(-> & h' & Hh' & Hb)]; [by left|right].
              split; [done|]. exists h'. split; [|done]. apply elem_of_app. by left.
           ++ apply list_elem_of_singleton in Hy as ->. right. split; [done|].
              exists h. split; [|done]. apply elem_of_app. right. left.
        -- intros y Hy. apply elem_of_app. left. eauto.
      * split; [done|]. split; [done|]. split; [done|]. split; [|done].
        intros y Hy. destruct (H5 y Hy) as [?|(-> & h' & Hh' & Hb)]; [by left|right].
        split; [done|]. exists h'. split; [|done]. apply elem_of_app. by left.
    + done.
    + intros h' X x Hh' Hx. destruct (Hends h' X x Hh' Hx) as [?|(-> & ? & ?)]; [by left|right].
      split; [done|]. split; [|done]. apply elem_of_app. by left.
    + done.
    + intros h' Hh'. apply elem_of_app in Hh' as [Hh'|Hh'].
      * specialize (Hpl h' Hh'). destruct (block_dep_map_ s0 !! h') as [q'|]; [|done].
        intros d Hd. destruct (Hpl d Hd) as (d' & G1 & G2).
        exists (if decide (q' = q) then push_back dep d' else d').
        split; [apply lookup_alter_Some; done|].
        destruct (decide (q' = q)); [|done]. simpl. apply elem_of_app. by left.
      * apply list_elem_of_singleton in Hh' as ->. rewrite Hq.
        intros d Hd. destruct (Hheap q d Hd) as (d1 & H1 & _).
        exists (push_back dep d1). split.
        -- rewrite (lookup_alter_Some _ _ q q d1 H1), decide_True by done. done.
        -- simpl. apply elem_of_app. right. left.
    + rewrite any_count_alter, length_app. simpl. case_decide; lia.
  - (* the parent is not in the container: a lose end *)
    rewrite Hbdm in Hq. split; cbn [heap block_dep_map_ lose_ends_].
    + done.
    + done.
    + intros x d Hx. destruct (Hheap x d Hx) as (d1 & H1 & H2 & H3 & H4 & H5 & H6).
      exists d1. split; [done|]. split; [done|]. split; [done|]. split; [done|]. split; [|done].
      intros y Hy. destruct (H5 y Hy) as [?|(-> & h' & Hh' & Hb)]; [by left|right].
      split; [done|]. exists h'. split; [|done]. apply elem_of_app. by left.
    + intros x Hx. rewrite ends_count_add, decide_False by tauto. rewrite Heo by done. lia.
    + intros h' X x Hh' Hx. destruct (decide (h' = h)) as [->|Hne].
      * rewrite lookup_insert_eq in Hh'. simplify_eq.
        apply elem_of_union in Hx as [Hx|Hx].
        -- destruct (lose_ends_ s1 !! h) as [X1|] eqn:E; simpl in Hx; [|set_solver].
           destruct (Hends h X1 x E Hx) as [?|(-> & ? & ?)]; [by left|right].
           split; [done|]. split; [|done]. apply elem_of_app. by left.
        -- apply elem_of_singleton in Hx as ->. right.
           split; [done|]. split; [|done]. apply elem_of_app. right. left.
      * rewrite lookup_insert_ne in Hh' by done.
        destruct (Hends h' X x Hh' Hx) as [?|(-> & ? & ?)]; [by left|right].
        split; [done|]. split; [|done]. apply elem_of_app. by left.
    + intros h' X0 x Hh' Hx. destruct (Hkeep h' X0 x Hh' Hx) as (X & G1 & G2).
      destruct (decide (h' = h)) as [->|Hne].
      * rewrite lookup_insert_eq, G1. simpl. eexists. split; [done|]. set_solver.
      * rewrite lookup_insert_ne by done. eauto.
    + intros h' Hh'.
      assert (∀ X, lose_ends_ s1 !! h' = Some X → dep ∈ X →
                ∃ X', <[h := default ∅ (lose_ends_ s1 !! h) ∪ {[dep]}]> (lose_ends_ s1) !! h'
                      = Some X' ∧ dep ∈ X') as Hmono.
      { intros X G1 G2. destruct (decide (h' = h)) as [->|Hne].
        - rewrite lookup_insert_eq. eexists. split; [done|]. set_solver.
        - rewrite lookup_insert_ne by done. eauto. }
      apply elem_of_app in Hh' as [Hh'|Hh'].
      * specialize (Hpl h' Hh'). destruct (block_dep_map_ s0 !! h') as [q'|]; [done|].
        destruct Hpl as (X & G1 & G2). eauto.
      * apply list_elem_of_singleton in Hh' as ->. rewrite Hq.
        rewrite lookup_insert_eq. eexists. split; [done|]. set_solver.
    + rewrite ends_count_add, length_app. simpl. case_decide; lia.
Qed.

Lemma placing_fold dep s0 ps : ∀ st done,
  placing dep s0 st.1 done →
  placing dep s0 (foldl (λ st h, common_insert dep h st) st ps).1 (done ++ ps) ∧
  (foldl (λ st h, common_insert dep h st) st ps).2 = st.2 ∪ list_to_set ps.
Proof.
  induction ps as [|h ps IH]; intros [s1 U] done Hpl.
  - simpl. rewrite app_nil_r. split; [done|]. set_solver.
  - simpl foldl. destruct (IH (common_insert dep h (s1, U)) (done ++ [h])) as [G1 G2].
    { apply placing_step. done. }
    rewrite <- app_assoc in G1. split; [done|]. rewrite G2.
    unfold common_insert. cbn [fst snd]. destruct (block_dep_map_ s1 !! h); simpl; set_solver.
Qed.

Lemma size_list_to_set_remove_dups (l : list N) :
  size (list_to_set l : gset N) = length (remove_dups l).
Proof.
  rewrite <- (size_list_to_set (C := gset N) (remove_dups l)) by apply NoDup_remove_dups.
  f_equal. apply set_eq. intros x.
  rewrite !elem_of_list_to_set, elem_of_remove_dups. done.
Qed.

Lemma length_remove_dups (l : list N) : length (remove_dups l) ≤ length l.
Proof.
  induction l as [|x l IH]; [done|]. simpl. case_decide; simpl; lia.
Qed.

(** [AddBlock] with a mask that is not zero: the new dependency is allocated,
    placed once for each parent the mask selects, and its counter is set to
    the number of distinct hashes among those parents. *)
Lemma AddBlock_placing b mask s :
  mask ≠ 0%N →
  ∃ s1, placing (length (heap s)) (alloc b s) s1 (missing_parents b mask) ∧
        AddBlock b mask s =
          finish (length (heap s)) (s1, list_to_set (missing_parents b mask)).
Proof.
  intros Hm. rewrite (AddBlock_fold b mask s Hm).
  destruct (placing_fold (length (heap s)) (alloc b s) (missing_parents b mask)
              (alloc b s, ∅) []) as [Hpl HU].
  { apply placing_refl. }
  simpl in Hpl, HU.
  eexists. split; [exact Hpl|].
  unfold finish. rewrite HU. cbn [fst snd]. rewrite (left_id_L ∅ (∪)). done.
Qed.

Lemma ndeps_stored (ps : list N) :
  length ps ≤ 3 →
  (Z.of_nat (size (list_to_set ps : gset N)) mod ndeps_modulus)%Z
  = Z.of_nat (length (remove_dups ps)).
Proof.
  intros Hps. pose proof modulus_big. pose proof (length_remove_dups ps).
  rewrite size_list_to_set_remove_dups. apply Z.mod_small. lia.
Qed.

Lemma lookup_alloc_old b s x :
  x < length (heap s) → heap (alloc b s) !! x = heap s !! x.
Proof. intros Hx. simpl. apply lookup_app_l. done. Qed.

Lemma lookup_alloc_new b s :
  heap (alloc b s) !! length (heap s) = Some {| ndeps := 0; deps := []; block := b |}.
Proof. simpl. rewrite lookup_app_r by lia. rewrite Nat.sub_diag. done. Qed.

Lemma lookup_alloc_cases b s x d :
  heap (alloc b s) !! x = Some d →
  (x < length (heap s) ∧ heap s !! x = Some d) ∨
  (x = length (heap s) ∧ d = {| ndeps := 0; deps := []; block := b |}).
Proof.
  intros H. destruct (decide (x < length (heap s))) as [Hlt|Hge].
  - left. rewrite lookup_alloc_old in H by done. done.
  - right. simpl in H. rewrite lookup_app_r in H by lia.
    destruct (x - length (heap s)) as [|k] eqn:E; simpl in H; [|done].
    split; [lia|congruence].
Qed.

Lemma length_alloc b s : length (heap (alloc b s)) = S (length (heap s)).
Proof. simpl. rewrite length_app. simpl. lia. Qed.

(** The heap after [AddBlock], entry by entry. *)
Lemma AddBlock_heap b mask s s1 U :
  placing (length (heap s)) (alloc b s) s1 (missing_parents b mask) →
  let n := length (heap s) in
  let s' := finish n (s1, U) in
  length (heap s') = S n ∧
  (∀ x d, heap s !! x = Some d →
     ∃ d', heap s' !! x = Some d' ∧ ndeps d' = ndeps d ∧ block d' = block d ∧
       (∀ y, y ≠ n → occ y (deps d') = occ y (deps d)) ∧
       (∀ y, y ∈ deps d' → y ∈ deps d ∨
          (y = n ∧ ∃ h, h ∈ missing_parents b mask ∧
                        <[GetHash b := n]> (block_dep_map_ s) !! h = Some x)) ∧
       (∀ y, y ∈ deps d → y ∈ deps d')) ∧
  (∃ dn, heap s' !! n = Some dn ∧
     ndeps dn = (Z.of_nat (size U) mod ndeps_modulus)%Z ∧ block dn = b ∧
     (∀ y, y ∈ deps dn →
        y = n ∧ ∃ h, h ∈ missing_parents b mask ∧
                     <[GetHash b := n]> (block_dep_map_ s) !! h = Some n)) ∧
  (∀ x d', heap s' !! x = Some d' → x < n ∨ x = n).
Proof.
  intros Hpl n s'. destruct Hpl as [Hlen Hbdm Hheap _ _ _ _ _].
  assert (length (heap s') = S n) as Hlen'.
  { unfold s', finish. cbn [heap fst]. rewrite length_alter, Hlen. apply length_alloc. }
  split; [done|]. split; [|split].
  - intros x d Hx.
    assert (x < n) as Hlt by (eapply lookup_lt_Some; done).
    destruct (Hheap x d) as (d1 & H1 & H2 & H3 & H4 & H5 & H6).
    { rewrite lookup_alloc_old by done. done. }
    exists d1. split; [|done].
    unfold s', finish. cbn [heap fst]. rewrite (lookup_alter_Some _ _ n x d1 H1).
    rewrite decide_False by lia. done.
  - destruct (Hheap n _ (lookup_alloc_new b s)) as (d1 & H1 & H2 & H3 & H4 & H5 & H6).
    exists (set_ndeps (Z.of_nat (size U) mod ndeps_modulus) d1).
    split; [|split; [done|split; [done|]]].
    + unfold s', finish. cbn [heap fst snd]. rewrite (lookup_alter_Some _ _ n n d1 H1).
      rewrite decide_True by done. done.
    + intros y Hy. simpl in Hy. destruct (H5 y Hy) as [Hin|(-> & h & Hh & Hb)]; [inversion Hin|].
      split; [done|]. exists h. done.
  - intros x d' Hx. apply lookup_lt_Some in Hx. lia.
Qed.

Lemma sum_list_zero (f : obc_dep → nat) (l : list obc_dep) :
  (∀ i d, l !! i = Some d → f d = 0) → sum_list (f <$> l) = 0.
Proof.
  induction l as [|d l IH]; intros Hf; [done|].
  rewrite fmap_cons. cbn [sum_list]. rewrite (Hf 0 d eq_refl), IH; [done|].
  intros i e He. apply (Hf (S i)). done.
Qed.

Lemma sum_list_snoc (f : obc_dep → nat) (l : list obc_dep) d :
  sum_list (f <$> l ++ [d]) = sum_list (f <$> l) + f d.
Proof.
  induction l as [|e l IH]; simpl; [lia|]. unfold id in *. 
  change (list_fmap obc_dep nat f (l ++ [d])) with (f <$> l ++ [d]).
  change (list_fmap obc_dep nat f l) with (f <$> l). lia.
Qed.

Lemma held_le_occ x d : held x d ≤ occ x (deps d).
Proof. unfold held. destruct (live d); lia. Qed.

Lemma debt_ndeps d d' : ndeps d' = ndeps d → debt d' = debt d.
Proof. unfold debt, live. intros ->. done. Qed.

Lemma live_ndeps d d' : ndeps d' = ndeps d → live d' = live d.
Proof. unfold live. intros ->. done. Qed.

(** A pointer that is not yet allocated is waiting nowhere. *)
Lemma fresh_any_count hp le stack x :
  closed hp le stack → length hp ≤ x → any_count x hp = 0.
Proof.
  intros Hcl Hx. apply sum_list_zero. intros i d Hi. apply occ_zero.
  intros Hin. pose proof (closed_deps _ _ _ Hcl i d x Hi Hin). lia.
Qed.

Lemma fresh_ends_count hp le stack x :
  closed hp le stack → length hp ≤ x → ends_count x le = 0.
Proof.
  intros Hcl Hx. apply ends_count_zero. intros h X Hh Hin.
  pose proof (closed_ends _ _ _ Hcl h X x Hh Hin). lia.
Qed.

Lemma any_count_alloc x b s : any_count x (heap (alloc b s)) = any_count x (heap s).
Proof.
  unfold any_count. cbn [alloc heap]. rewrite sum_list_snoc. cbn [deps].
  rewrite occ_nil. lia.
Qed.

Lemma held_count_alloc x b s : held_count x (heap (alloc b s)) = held_count x (heap s).
Proof.
  unfold held_count. cbn [alloc heap]. rewrite sum_list_snoc.
  change (held x {| ndeps := 0; deps := []; block := b |}) with 0. lia.
Qed.

(** [AddBlock] keeps the invariant. *)
Lemma AddBlock_counted b mask s :
  counted (heap s) (lose_ends_ s) [] →
  counted (heap (AddBlock b mask s)) (lose_ends_ (AddBlock b mask s)) [].
Proof.
  intros Hinv. destruct (N.eq_dec mask 0) as [->|Hm]; [done|].
  destruct (AddBlock_placing b mask s Hm) as (s1 & Hpl & ->).
  set (n := length (heap s)). set (ps := missing_parents b mask).
  set (U := list_to_set ps : gset N).
  destruct (AddBlock_heap b mask s s1 U Hpl) as (Hlen & Hold & (dn & Hn1 & Hn2 & Hn3 & Hn4) & Hdom).
  fold n in Hlen, Hold, Hn1, Hn4, Hdom.
  set (s' := finish n (s1, U)) in *.
  destruct Hinv as [Hcl Hrg Hbd].
  pose proof (missing_parents_length b mask) as Hps3. fold ps in Hps3.
  assert (ndeps dn = Z.of_nat (length (remove_dups ps))) as Hnd.
  { rewrite Hn2. apply ndeps_stored. done. }
  pose proof (length_remove_dups ps) as Hrd.
  pose proof modulus_big as HM.
  (* every entry of the new heap *)
  assert (∀ x d', heap s' !! x = Some d' →
            (x = n ∧ d' = dn) ∨
            (x < n ∧ ∃ d, heap s !! x = Some d ∧ ndeps d' = ndeps d ∧
               (∀ y, y ≠ n → occ y (deps d') = occ y (deps d)) ∧
               (∀ y, y ∈ deps d' → y ∈ deps d ∨ y = n))) as Hall.
  { intros x d' Hx. destruct (Hdom x d' Hx) as [Hlt| ->].
    - right. split; [done|].
      destruct (lookup_lt_is_Some_2 (heap s) x Hlt) as [d Hd].
      destruct (Hold x d Hd) as (d'' & G1 & G2 & G3 & G4 & G5 & G6).
      simplify_eq. exists d. split; [done|]. split; [done|]. split; [done|].
      intros y Hy. destruct (G5 y Hy) as [?|[? _]]; [by left|by right].
    - left. split; [done|]. congruence. }
  assert (lose_ends_ s' = lose_ends_ s1) as Hle by done.
  assert (lose_ends_ (alloc b s) = lose_ends_ s) as Hle0 by done.
  split.
  - (* closed *)
    split.
    + intros x Hx. inversion Hx.
    + intros q d' y Hq Hy. rewrite Hlen.
      destruct (Hall q d' Hq) as [[-> ->]|(Hlt & d & Hd & _ & _ & Hin)].
      * destruct (Hn4 y Hy) as [-> _]. lia.
      * destruct (Hin y Hy) as [Hy'| ->]; [|lia].
        pose proof (closed_deps _ _ _ Hcl q d y Hd Hy'). fold n in H. lia.
    + intros h X x Hh Hx. rewrite Hlen. rewrite Hle in Hh.
      destruct (pl_ends _ _ _ _ Hpl h X x Hh Hx) as [(X0 & G1 & G2)|(-> & _)]; [|lia].
      rewrite Hle0 in G1. pose proof (closed_ends _ _ _ Hcl h X0 x G1 G2). fold n in H. lia.
  - (* range *)
    intros x d' Hx. destruct (Hall x d' Hx) as [[-> ->]|(Hlt & d & Hd & Hnd' & _)].
    + rewrite Hnd. lia.
    + rewrite Hnd'. eauto.
  - (* bound *)
    intros x d' Hx. unfold pending. rewrite occ_nil, Hle.
    destruct (Hall x d' Hx) as [[-> ->]|(Hlt & d & Hd & Hnd' & _)].
    + (* the new dependency *)
      assert (held_count n (heap s') + ends_count n (lose_ends_ s1) ≤ length ps) as Hcount.
      { pose proof (pl_count _ _ _ _ Hpl) as Hc. fold n ps in Hc.
        rewrite any_count_alloc, Hle0 in Hc.
        rewrite (fresh_any_count _ _ _ n Hcl), (fresh_ends_count _ _ _ n Hcl) in Hc by done.
        assert (held_count n (heap s') ≤ any_count n (heap s1)); [|lia].
        apply sum_list_pointwise_le.
        - unfold s', finish. cbn [heap fst]. apply length_alter.
        - intros i d d' Hd Hd'. unfold s', finish in Hd'. cbn [heap fst] in Hd'.
          rewrite (lookup_alter_Some _ _ n i d Hd) in Hd'. simplify_eq.
          etrans; [apply held_le_occ|]. case_decide; done. }
      destruct (decide (length (remove_dups ps) = 0)) as [Hz|Hnz].
      * assert (ps = []) as Hnil.
        { destruct ps as [|p ps']; [done|]. exfalso.
          assert (p ∈ remove_dups (p :: ps')) as Hin by (apply elem_of_remove_dups; left).
          destruct (remove_dups (p :: ps')); [inversion Hin|done]. }
        rewrite Hnil in Hcount. simpl in Hcount.
        rewrite debt_dead by (rewrite ?Hnd; first [apply live_false; lia|lia]).
        rewrite Hnd, Hz. simpl. lia.
      * rewrite debt_live by (apply live_range; lia). lia.
    + (* an older dependency *)
      rewrite (debt_ndeps d d' Hnd').
      specialize (Hbd x d Hd). unfold pending in Hbd. rewrite occ_nil in Hbd.
      assert (ends_count x (lose_ends_ s1) = ends_count x (lose_ends_ s)) as ->.
      { rewrite (pl_ends_other _ _ _ _ Hpl) by (fold n; lia). done. }
      assert (held_count x (heap s') = held_count x (heap s)) as ->; [|done].
      rewrite <- (held_count_alloc x b s).
      apply sum_list_pointwise; [rewrite Hlen, length_alloc; done|].
      intros i d0 d0' Hd0 Hd0'. unfold held.
      destruct (Hall i d0' Hd0') as [[-> ->]|(Hlti & e & He & Hnde & Hocc & _)].
      * pose proof (lookup_alloc_new b s) as Hnew. fold n in Hnew. simplify_eq.
        assert (occ x (deps dn) = 0) as ->.
        { apply occ_zero. intros Hin. destruct (Hn4 x Hin) as [-> _]. lia. }
        destruct (live dn); done.
      * rewrite lookup_alloc_old in Hd0 by done. simplify_eq.
        rewrite (live_ndeps d0 d0' Hnde), Hocc by lia. done.
Qed.

(** ** SubmitHash as a whole *)

Lemma counted_start hp (le : gmap N (gset nat)) h X :
  counted hp le [] → le !! h = Some X →
  counted hp (delete h le) (reverse (elements X)).
Proof.
  intros [Hcl Hrg Hbd] Hh. split; [split|done|].
  - intros x Hx. apply elem_of_reverse, elem_of_elements in Hx.
    eapply closed_ends; done.
  - apply Hcl.
  - intros h' X' x Hh' Hx. apply lookup_delete_Some in Hh' as [_ Hh'].
    eapply closed_ends; done.
  - intros x d Hx. specialize (Hbd x d Hx).
    assert (pending x hp (delete h le) (reverse (elements X)) = pending x hp le []) as ->; [|done].
    unfold pending. rewrite occ_nil, occ_reverse, (ends_count_delete x h X le Hh).
    rewrite (occ_NoDup x (elements X)) by apply NoDup_elements.
    destruct (decide (x ∈ X)) as [Hin|Hin].
    + rewrite decide_True by (apply elem_of_elements; done). lia.
    + rewrite decide_False by (rewrite elem_of_elements; done). lia.
Qed.

(** [SubmitHash] returns, keeps the invariant, and releases every dependency
    at most once. *)
Lemma SubmitHash_counted fuel h s :
  counted (heap s) (lose_ends_ s) [] → fuel_needed h s ≤ fuel →
  ∃ s' r, SubmitHash fuel h s = Some (s', r) ∧
    counted (heap s') (lose_ends_ s') [] ∧
    ((lose_ends_ s !! h = None ∧ r = None ∧ s' = s) ∨
     (∃ X rl bs, lose_ends_ s !! h = Some X ∧ r = Some bs ∧
        lose_ends_ s' = delete h (lose_ends_ s) ∧
        released_by (heap s) (heap s') (block_dep_map_ s) (block_dep_map_ s') rl bs)).
Proof.
  intros Hinv Hfuel. unfold SubmitHash, fuel_needed in *.
  destruct (lose_ends_ s !! h) as [X|] eqn:Hh.
  - pose proof (counted_start _ _ h X Hinv Hh) as Hinv0.
    destruct (release_counted (delete h (lose_ends_ s)) fuel (heap s) (block_dep_map_ s)
                (reverse (elements X)) [] Hinv0)
      as (hp' & bdm' & rl & bs & Hrel & Hinv' & Hrb).
    { rewrite length_reverse. simpl in Hfuel. unfold size, set_size in Hfuel. simpl in Hfuel. lia. }
    rewrite Hrel. simpl. eexists _, _. split; [done|]. split; [done|].
    right. exists X, rl, bs. done.
  - exists s, None. split; [done|]. split; [done|]. left. done.
Qed.

Lemma SubmitHash_mono fuel fuel' h s r :
  SubmitHash fuel h s = Some r → fuel ≤ fuel' → SubmitHash fuel' h s = Some r.
Proof.
  unfold SubmitHash. intros H Hle. destruct (lose_ends_ s !! h) as [X|]; [|done].
  destruct (release fuel _ _ _ _) as [[[hp bdm] res]|] eqn:E; [|done].
  rewrite (release_mono _ _ _ _ _ _ _ E Hle). done.
Qed.

Lemma run_mono fuel fuel' cs : ∀ s r,
  run fuel cs s = Some r → fuel ≤ fuel' → run fuel' cs s = Some r.
Proof.
  induction cs as [|[b m|h] cs IH]; intros s r H Hle; simpl in *.
  - done.
  - eauto.
  - destruct (SubmitHash fuel h s) as [[s' o]|] eqn:E; [|done].
    rewrite (SubmitHash_mono _ _ _ _ _ E Hle).
    destruct (run fuel cs s') as [[s'' out]|] eqn:E'; [|done].
    rewrite (IH _ _ E' Hle). done.
Qed.

Lemma counted_empty : counted (heap empty) (lose_ends_ empty) [].
Proof.
  split; [split|..]; simpl.
  - intros x Hx. inversion Hx.
  - intros q d x Hq. done.
  - intros h X x Hh. rewrite lookup_empty in Hh. done.
  - intros x d Hx. done.
  - intros x d Hx. done.
Qed.

(** Every state the container reaches satisfies the invariant. *)
Lemma reachable_counted s : reachable s → counted (heap s) (lose_ends_ s) [].
Proof.
  induction 1 as [|s b m Hs IH|s fuel h s' r Hs IH Hsub].
  - apply counted_empty.
  - apply AddBlock_counted. done.
  - destruct (SubmitHash_counted (fuel + fuel_needed h s) h s IH) as (s1 & r1 & H1 & H2 & _); [lia|].
    rewrite (SubmitHash_mono _ (fuel + fuel_needed h s) _ _ _ Hsub) in H1 by lia.
    simplify_eq. done.
Qed.

(** [SubmitHash] returns in every reachable state. *)
Lemma SubmitHash_returns s h fuel :
  reachable s → fuel_needed h s ≤ fuel → is_Some (SubmitHash fuel h s).
Proof.
  intros Hs Hfuel.
  destruct (SubmitHash_counted fuel h s (reachable_counted s Hs) Hfuel) as (s' & r & H & _).
  rewrite H. done.
Qed.

(** Every sequence of calls runs to its end from a state that satisfies the
    invariant, whatever it adds. *)
Lemma run_returns cs : ∀ s,
  counted (heap s) (lose_ends_ s) [] →
  ∃ fuel0 s' out, ∀ fuel, fuel0 ≤ fuel →
    run fuel cs s = Some (s', out) ∧ counted (heap s') (lose_ends_ s') [].
Proof.
  induction cs as [|[b m|h] cs IH]; intros s Hinv.
  - exists 0, s, []. done.
  - simpl. apply IH, AddBlock_counted. done.
  - destruct (SubmitHash_counted (fuel_needed h s) h s Hinv) as (s1 & r & Hs1 & Hinv1 & _);
      [done|].
    destruct (IH s1 Hinv1) as (fuel0 & s' & out & Hrun).
    exists (max (fuel_needed h s) fuel0), s', (default [] r ++ out).
    intros fuel Hfuel. simpl.
    rewrite (SubmitHash_mono _ fuel _ _ _ Hs1) by lia.
    destruct (Hrun fuel) as [-> ?]; [lia|]. done.
Qed.

(** ** What the maps hold in a reachable state *)

Lemma released_by_inv hp hp' bdm bdm' rl bs x d' :
  released_by hp hp' bdm bdm' rl bs → hp' !! x = Some d' →
  ∃ d, hp !! x = Some d ∧ block d' = block d ∧ deps d' = deps d ∧
       (live d' = true ↔ live d = true ∧ x ∉ rl).
Proof.
  intros Hrb Hx.
  assert (x < length hp) as Hlt.
  { rewrite <- (rb_length _ _ _ _ _ _ Hrb). eapply lookup_lt_Some. done. }
  destruct (lookup_lt_is_Some_2 hp x Hlt) as [d Hd].
  destruct (rb_same _ _ _ _ _ _ Hrb x d Hd) as (d'' & G1 & G2).
  simplify_eq. eauto.
Qed.

Lemma AddBlock_bdm b mask s :
  mask ≠ 0%N →
  block_dep_map_ (AddBlock b mask s) = <[GetHash b := length (heap s)]> (block_dep_map_ s).
Proof.
  intros Hm. destruct (AddBlock_placing b mask s Hm) as (s1 & Hpl & ->).
  simpl. rewrite (pl_bdm _ _ _ _ Hpl). done.
Qed.

Lemma AddBlock_indexed b mask s : indexed s → indexed (AddBlock b mask s).
Proof.
  intros Hidx. destruct (N.eq_dec mask 0) as [->|Hm]; [done|].
  intros h p. rewrite (AddBlock_bdm b mask s Hm).
  destruct (AddBlock_placing b mask s Hm) as (s1 & Hpl & ->).
  destruct (AddBlock_heap b mask s s1 (list_to_set (missing_parents b mask)) Hpl)
    as (_ & Hold & (dn & Hn1 & _ & Hn3 & _) & _).
  intros Hp. apply lookup_insert_Some in Hp as [[<- <-]|[Hne Hp]].
  - exists dn. split; [done|]. rewrite Hn3. done.
  - destruct (Hidx h p Hp) as (d & Hd & Hh).
    destruct (Hold p d Hd) as (d' & G1 & _ & G3 & _). exists d'. rewrite G3. done.
Qed.

Lemma SubmitHash_indexed fuel h s s' r :
  counted (heap s) (lose_ends_ s) [] → indexed s →
  SubmitHash fuel h s = Some (s', r) → indexed s'.
Proof.
  intros Hinv Hidx Hsub.
  destruct (SubmitHash_counted (fuel + fuel_needed h s) h s Hinv) as (s1 & r1 & H1 & _ & Hcase); [lia|].
  rewrite (SubmitHash_mono _ (fuel + fuel_needed h s) _ _ _ Hsub) in H1 by lia. simplify_eq.
  destruct Hcase as [(_ & _ & ->)|(X & rl & bs & _ & _ & _ & Hrb)]; [done|].
  intros h' p Hp. apply (rb_bdm _ _ _ _ _ _ Hrb) in Hp as [Hp _].
  destruct (Hidx h' p Hp) as (d & Hd & Hh).
  destruct (rb_same _ _ _ _ _ _ Hrb p d Hd) as (d' & G1 & G2 & _).
  exists d'. rewrite G2. done.
Qed.

Lemma reachable_indexed s : reachable s → indexed s.
Proof.
  induction 1 as [|s b m Hs IH|s fuel h s' r Hs IH Hsub].
  - intros h p Hp. simpl in Hp. rewrite lookup_empty in Hp. done.
  - apply AddBlock_indexed. done.
  - eapply SubmitHash_indexed; [apply reachable_counted| |]; done.
Qed.

Lemma AddBlock_waiters_older b mask s :
  closed (heap s) (lose_ends_ s) [] → waiters_older s → waiters_older (AddBlock b mask s).
Proof.
  intros Hcl Hw. destruct (N.eq_dec mask 0) as [->|Hm]; [done|].
  intros h p X x. rewrite (AddBlock_bdm b mask s Hm).
  destruct (AddBlock_placing b mask s Hm) as (s1 & Hpl & ->).
  cbn [finish lose_ends_ fst]. intros Hp HX Hx.
  destruct (pl_ends _ _ _ _ Hpl h X x HX Hx) as [(X0 & G1 & G2)|(-> & _ & G)].
  - simpl in G1. pose proof (closed_ends _ _ _ Hcl h X0 x G1 G2) as Hlt.
    apply lookup_insert_Some in Hp as [[<- <-]|[Hne Hp]]; [done|].
    eapply Hw; done.
  - simpl in G. rewrite G in Hp. done.
Qed.

Lemma SubmitHash_waiters_older fuel h s s' r :
  counted (heap s) (lose_ends_ s) [] → waiters_older s →
  SubmitHash fuel h s = Some (s', r) → waiters_older s'.
Proof.
  intros Hinv Hw Hsub.
  destruct (SubmitHash_counted (fuel + fuel_needed h s) h s Hinv) as (s1 & r1 & H1 & _ & Hcase); [lia|].
  rewrite (SubmitHash_mono _ (fuel + fuel_needed h s) _ _ _ Hsub) in H1 by lia. simplify_eq.
  destruct Hcase as [(_ & _ & ->)|(X & rl & bs & _ & _ & Hle & Hrb)]; [done|].
  intros h' p X' x Hp HX Hx. rewrite Hle in HX.
  apply lookup_delete_Some in HX as [_ HX].
  apply (rb_bdm _ _ _ _ _ _ Hrb) in Hp as [Hp _]. eapply Hw; done.
Qed.

Lemma reachable_waiters_older s : reachable s → waiters_older s.
Proof.
  induction 1 as [|s b m Hs IH|s fuel h s' r Hs IH Hsub].
  - intros h p X x Hp. simpl in Hp. rewrite lookup_empty in Hp. done.
  - apply AddBlock_waiters_older; [|done]. apply reachable_counted. done.
  - eapply SubmitHash_waiters_older; [apply reachable_counted| |]; done.
Qed.

(** ** No block is released twice *)

Lemma single_empty : single empty [].
Proof.
  split.
  - apply counted_empty.
  - constructor.
  - intros x d Hx. done.
  - intros b Hb. inversion Hb.
  - intros x y d e Hx. done.
Qed.

Lemma AddBlock_single b mask s acc :
  mask ≠ 0%N → single s acc →
  (∀ x d, heap s !! x = Some d → block d ≠ b) →
  single (AddBlock b mask s) acc ∧
  (∀ b', (∀ x d, heap s !! x = Some d → block d ≠ b') → b' ≠ b →
         ∀ x d, heap (AddBlock b mask s) !! x = Some d → block d ≠ b').
Proof.
  intros Hm [Hinv Hnd Hdead Hfrom Hinj] Hnew.
  pose proof (AddBlock_counted b mask s Hinv) as Hinv'.
  destruct (AddBlock_placing b mask s Hm) as (s1 & Hpl & Heq).
  rewrite Heq in *.
  destruct (AddBlock_heap b mask s s1 (list_to_set (missing_parents b mask)) Hpl)
    as (Hlen & Hold & (dn & Hn1 & _ & Hn3 & _) & Hdom).
  set (n := length (heap s)) in *.
  set (s' := finish n (s1, list_to_set (missing_parents b mask))) in *.
  assert (∀ x d', heap s' !! x = Some d' →
            (x = n ∧ block d' = b) ∨
            (x < n ∧ ∃ d, heap s !! x = Some d ∧ block d' = block d ∧ live d' = live d))
    as Hall.
  { intros x d' Hx. destruct (Hdom x d' Hx) as [Hlt| ->].
    - right. split; [done|].
      destruct (lookup_lt_is_Some_2 (heap s) x Hlt) as [d Hd].
      destruct (Hold x d Hd) as (d'' & G1 & G2 & G3 & _). simplify_eq.
      exists d. split; [done|]. split; [done|]. apply live_ndeps. done.
    - left. split; [done|]. congruence. }
  split; [split|].
  - done.
  - done.
  - intros x d' Hx Hacc. destruct (Hall x d' Hx) as [[-> Hb]|(_ & d & Hd & Hb & Hl)].
    + rewrite Hb in Hacc. destruct (Hfrom b Hacc) as (y & e & He & Hbe).
      exfalso. eapply Hnew; done.
    + rewrite Hl. rewrite Hb in Hacc. eauto.
  - intros b' Hb'. destruct (Hfrom b' Hb') as (x & d & Hd & Hb).
    destruct (Hold x d Hd) as (d' & G1 & _ & G3 & _). exists x, d'. rewrite G3. done.
  - intros x y d' e' Hx Hy Hbe.
    destruct (Hall x d' Hx) as [[-> Hb]|(Hltx & d & Hd & Hb & _)];
      destruct (Hall y e' Hy) as [[-> Hb2]|(Hlty & e & He & Hb2 & _)].
    + done.
    + exfalso. apply (Hnew y e He). congruence.
    + exfalso. apply (Hnew x d Hd). congruence.
    + apply (Hinj x y d e Hd He). congruence.
  - intros b' Hb' Hne x d' Hx. destruct (Hall x d' Hx) as [[-> Hb]|(_ & d & Hd & Hb & _)].
    + congruence.
    + rewrite Hb. eauto.
Qed.

Lemma Forall2_rel_NoDup (hp : list obc_dep) (R : obc_dep → Prop) rl bs :
  (∀ x y d e, hp !! x = Some d → hp !! y = Some e → block d = block e → x = y) →
  Forall2 (λ x b, ∃ d, hp !! x = Some d ∧ R d ∧ block d = b) rl bs →
  NoDup rl → NoDup bs.
Proof.
  intros Hinj HF. induction HF as [|x b rl bs (d & Hd & _ & Hb) HF IH]; intros Hnd.
  - constructor.
  - apply NoDup_cons in Hnd as [Hx Hnd]. constructor; [|auto].
    intros Hin. apply list_elem_of_lookup in Hin as [i Hi].
    destruct (Forall2_lookup_r _ _ _ _ _ HF Hi) as (y & Hy & e & He & _ & Hbe).
    assert (x = y) as -> by (eapply Hinj; [done..|congruence]).
    apply Hx. apply list_elem_of_lookup. eauto.
Qed.

Lemma Forall2_rel_elem (hp : list obc_dep) (R : obc_dep → Prop) rl bs b :
  Forall2 (λ x b, ∃ d, hp !! x = Some d ∧ R d ∧ block d = b) rl bs →
  b ∈ bs → ∃ x d, x ∈ rl ∧ hp !! x = Some d ∧ R d ∧ block d = b.
Proof.
  intros HF Hin. apply list_elem_of_lookup in Hin as [i Hi].
  destruct (Forall2_lookup_r _ _ _ _ _ HF Hi) as (y & Hy & e & He & HR & Hbe).
  exists y, e. split; [|done]. apply list_elem_of_lookup. eauto.
Qed.

Lemma Forall2_rel_elem_l (hp : list obc_dep) (R : obc_dep → Prop) rl bs x :
  Forall2 (λ x b, ∃ d, hp !! x = Some d ∧ R d ∧ block d = b) rl bs →
  x ∈ rl → ∃ d, hp !! x = Some d ∧ R d ∧ block d ∈ bs.
Proof.
  intros HF Hin. apply list_elem_of_lookup in Hin as [i Hi].
  destruct (Forall2_lookup_l _ _ _ _ _ HF Hi) as (b & Hb & e & He & HR & Hbe).
  exists e. split; [done|]. split; [done|]. rewrite Hbe. apply list_elem_of_lookup. eauto.
Qed.

Lemma released_by_single s s' acc rl bs :
  single s acc →
  counted (heap s') (lose_ends_ s') [] →
  released_by (heap s) (heap s') (block_dep_map_ s) (block_dep_map_ s') rl bs →
  single s' (acc ++ bs).
Proof.
  intros [Hinv Hnd Hdead Hfrom Hinj] Hinv' Hrb.
  pose proof (rb_blocks _ _ _ _ _ _ Hrb) as HF.
  split.
  - done.
  - apply NoDup_app. split; [done|]. split.
    + intros b Hacc Hbs.
      destruct (Forall2_rel_elem _ _ _ _ _ HF Hbs) as (x & d & _ & Hd & Hl & Hb).
      rewrite <- Hb in Hacc. rewrite (Hdead x d Hd Hacc) in Hl. done.
    + eapply Forall2_rel_NoDup; [exact Hinj|exact HF|]. apply (rb_nodup _ _ _ _ _ _ Hrb).
  - intros x d' Hx Hin.
    destruct (released_by_inv _ _ _ _ _ _ _ _ Hrb Hx) as (d & Hd & Hb & _ & Hl).
    rewrite Hb in Hin. apply not_true_is_false. intros Hlive.
    apply Hl in Hlive as [Hlive Hnotin].
    apply elem_of_app in Hin as [Hin|Hin].
    + rewrite (Hdead x d Hd Hin) in Hlive. done.
    + destruct (Forall2_rel_elem _ _ _ _ _ HF Hin) as (y & e & Hy & He & _ & Hbe).
      assert (y = x) as -> by (eapply Hinj; done). done.
  - intros b Hb. apply elem_of_app in Hb as [Hb|Hb].
    + destruct (Hfrom b Hb) as (x & d & Hd & Hbd).
      destruct (rb_same _ _ _ _ _ _ Hrb x d Hd) as (d' & G1 & G2 & _).
      exists x, d'. rewrite G2. done.
    + destruct (Forall2_rel_elem _ _ _ _ _ HF Hb) as (x & d & _ & Hd & _ & Hbd).
      destruct (rb_same _ _ _ _ _ _ Hrb x d Hd) as (d' & G1 & G2 & _).
      exists x, d'. rewrite G2. done.
  - intros x y d' e' Hx Hy Hbe.
    destruct (released_by_inv _ _ _ _ _ _ _ _ Hrb Hx) as (d & Hd & Hb & _).
    destruct (released_by_inv _ _ _ _ _ _ _ _ Hrb Hy) as (e & He & Hb2 & _).
    apply (Hinj x y d e Hd He). congruence.
Qed.

(** A sequence of calls that adds no block twice runs to its end and releases
    no block twice. *)
Lemma run_single cs : ∀ s acc,
  single s acc → NoDup (added_blocks cs) →
  (∀ b, b ∈ added_blocks cs → ∀ x d, heap s !! x = Some d → block d ≠ b) →
  ∃ fuel0 s' out, ∀ fuel, fuel0 ≤ fuel →
    run fuel cs s = Some (s', out) ∧ single s' (acc ++ out).
Proof.
  induction cs as [|[b m|h] cs IH]; intros s acc Hsg Hnd Hfresh.
  - exists 0, s, []. intros fuel _. rewrite app_nil_r. done.
  - simpl in *. destruct (N.eqb_spec m 0) as [->|Hm].
    + apply IH; done.
    + apply NoDup_cons in Hnd as [Hb Hnd].
      destruct (AddBlock_single b m s acc Hm Hsg) as [Hsg' Hfresh'].
      { apply Hfresh. left. }
      apply IH; [done..|].
      intros b' Hb'. apply Hfresh'.
      * apply Hfresh. by right.
      * intros ->. done.
  - simpl in *.
    destruct (SubmitHash_counted (fuel_needed h s) h s (sg_counted _ _ Hsg))
      as (s1 & r & Hsub & Hinv1 & Hcase); [done|].
    assert (single s1 (acc ++ default [] r) ∧
            (∀ b, (∀ x d, heap s !! x = Some d → block d ≠ b) →
                  ∀ x d, heap s1 !! x = Some d → block d ≠ b)) as [Hsg1 Hfr1].
    { destruct Hcase as [(_ & -> & ->)|(X & rl & bs & _ & -> & _ & Hrb)].
      - simpl. rewrite app_nil_r. done.
      - simpl. split; [eapply released_by_single; done|].
        intros b Hb x d' Hx.
        destruct (released_by_inv _ _ _ _ _ _ _ _ Hrb Hx) as (d & Hd & Hbd & _).
        rewrite Hbd. eauto. }
    destruct (IH s1 (acc ++ default [] r) Hsg1 Hnd) as (fuel0 & s' & out & Hrun).
    { intros b Hb. apply Hfr1. apply Hfresh. done. }
    exists (max (fuel_needed h s) fuel0), s', (default [] r ++ out).
    intros fuel Hfuel.
    rewrite (SubmitHash_mono _ fuel _ _ _ Hsub) by lia.
    destruct (Hrun fuel) as [-> Hsg']; [lia|].
    rewrite app_assoc. done.
Qed.

(** ** Exact counting under the caller's contract *)

Lemma exact_loop_counted hp le stack : exact_loop hp le stack → counted hp le stack.
Proof.
  intros [Hcl Hcnt]. pose proof modulus_big as HM. split; [done|..].
  - intros x d Hx. destruct (Hcnt x d Hx). lia.
  - intros x d Hx. destruct (Hcnt x d Hx) as [Hr He].
    destruct (live d) eqn:Hl.
    + rewrite (debt_live d Hl). lia.
    + rewrite (debt_dead d Hl) by lia. apply live_false in Hl.
      destruct (Z.eqb_spec (ndeps d) 0); lia.
Qed.

Lemma exact_counted s : exact s → counted (heap s) (lose_ends_ s) [].
Proof. intros [Hcl Hcnt _ _]. apply exact_loop_counted. split; done. Qed.

Lemma pop_exact hp le c stack d :
  exact_loop hp le (c :: stack) → hp !! c = Some d →
  let n := ((ndeps d - 1) mod ndeps_modulus)%Z in
  let hp1 := <[c := set_ndeps n d]> hp in
  if (0 <? n)%Z then exact_loop hp1 le stack
  else exact_loop hp1 le (reverse (deps d) ++ stack).
Proof.
  intros Hex Hc n hp1. pose proof modulus_big as HM.
  pose proof (pop_counted hp le c stack d (exact_loop_counted _ _ _ Hex) Hc) as Hpop.
  destruct Hex as [Hcl Hcnt]. cbv zeta in Hpop. fold n in Hpop. fold hp1 in Hpop.
  destruct (Hcnt c d Hc) as [Hr He].
  assert (1 ≤ pending c hp le (c :: stack)) as Hp1.
  { unfold pending. rewrite occ_cons, decide_True by done. lia. }
  assert (n = (ndeps d - 1)%Z) as Hn by (apply Z.mod_small; lia).
  assert (live d = true) as Hlive by (apply live_range; lia).
  assert (∀ x, held_count x hp1 + held x d = held_count x hp + held x (set_ndeps n d)) as Hheld
    by (intros x; apply held_count_insert; done).
  assert (∀ x dx, hp1 !! x = Some dx →
            (x = c ∧ dx = set_ndeps n d) ∨ (x ≠ c ∧ hp !! x = Some dx)) as Hlk.
  { intros x dx Hx. apply lookup_insert_cases in Hx as [(? & ? & _)|?]; [left|right]; done. }
  destruct (0 <? n)%Z eqn:Hpos.
  - destruct Hpop as (Hinv1 & _ & Hl1). split; [apply Hinv1|].
    intros x dx Hx.
    assert (pending x hp1 le stack + (if decide (x = c) then 1 else 0)
            = pending x hp le (c :: stack)) as Heq.
    { specialize (Hheld x). unfold held in Hheld. rewrite Hl1, Hlive in Hheld. simpl in Hheld.
      unfold pending. rewrite occ_cons. lia. }
    apply Hlk in Hx as [[-> ->]|[Hne Hx]].
    + rewrite decide_True in Heq by done. simpl. apply Z.ltb_lt in Hpos. lia.
    + rewrite decide_False in Heq by done. destruct (Hcnt x dx Hx). lia.
  - destruct Hpop as (_ & Hl1 & Hinv1 & _). split; [apply Hinv1|].
    intros x dx Hx.
    assert (pending x hp1 le (reverse (deps d) ++ stack) + (if decide (x = c) then 1 else 0)
            = pending x hp le (c :: stack)) as Heq.
    { specialize (Hheld x). unfold held in Hheld. rewrite Hl1, Hlive in Hheld. simpl in Hheld.
      unfold pending. rewrite occ_cons, occ_app, occ_reverse. lia. }
    apply Hlk in Hx as [[-> ->]|[Hne Hx]].
    + rewrite decide_True in Heq by done. simpl. apply Z.ltb_ge in Hpos. lia.
    + rewrite decide_False in Heq by done. destruct (Hcnt x dx Hx). lia.
Qed.

Lemma release_exact le fuel : ∀ hp bdm stack result hp' bdm' result',
  exact_loop hp le stack →
  release fuel hp bdm stack result = Some (hp', bdm', result') →
  exact_loop hp' le [].
Proof.
  induction fuel as [|fuel IH]; intros hp bdm stack result hp' bdm' result' Hex Hrel.
  - destruct stack; [|done]. simpl in Hrel. simplify_eq. done.
  - destruct stack as [|c stack]; [simpl in Hrel; simplify_eq; done|].
    simpl in Hrel. destruct (hp !! c) as [d|] eqn:Hc; [|done].
    pose proof (pop_exact hp le c stack d Hex Hc) as Hpop. simpl in Hpop.
    destruct (0 <? _)%Z; eapply IH; done.
Qed.

Lemma common_insert_total dep s1 U h :
  dep ∉ default ∅ (lose_ends_ s1 !! h) →
  (∀ q, block_dep_map_ s1 !! h = Some q → q < length (heap s1)) →
  any_count dep (heap (common_insert dep h (s1, U)).1)
    + ends_count dep (lose_ends_ (common_insert dep h (s1, U)).1)
  = any_count dep (heap s1) + ends_count dep (lose_ends_ s1) + 1.
Proof.
  intros Hnot Hq. unfold common_insert. cbn [fst snd].
  destruct (block_dep_map_ s1 !! h) as [q|]; cbn [fst heap lose_ends_].
  - rewrite any_count_alter, decide_True by (split; [done|apply Hq; done]). lia.
  - rewrite ends_count_add, decide_True by done. lia.
Qed.

(** Under the contract every lookup of [AddBlock] adds one place. *)
Lemma placing_fold_exact dep s0 ps : ∀ st done,
  placing dep s0 st.1 done → NoDup (done ++ ps) →
  (∀ h X, lose_ends_ s0 !! h = Some X → dep ∉ X) →
  (∀ h q, block_dep_map_ s0 !! h = Some q → q < length (heap s0)) →
  any_count dep (heap (foldl (λ st h, common_insert dep h st) st ps).1)
    + ends_count dep (lose_ends_ (foldl (λ st h, common_insert dep h st) st ps).1)
  = any_count dep (heap st.1) + ends_count dep (lose_ends_ st.1) + length ps.
Proof.
  induction ps as [|h ps IH]; intros [s1 U] done Hpl Hnd Hfresh Hbdm.
  - simpl. lia.
  - simpl foldl. cbn [fst] in *.
    rewrite (IH (common_insert dep h (s1, U)) (done ++ [h])).
    + rewrite common_insert_total; [simpl; lia| |].
      * destruct (lose_ends_ s1 !! h) as [X|] eqn:E; simpl; [|set_solver].
        intros Hin. destruct (pl_ends _ _ _ _ Hpl h X dep E Hin) as [(X0 & G1 & G2)|(_ & G & _)].
        -- eapply Hfresh; done.
        -- apply NoDup_app in Hnd as (_ & Hdis & _). apply (Hdis h G). left.
      * intros q Hq. rewrite (pl_bdm _ _ _ _ Hpl) in Hq. rewrite (pl_length _ _ _ _ Hpl). eauto.
    + apply placing_step. done.
    + rewrite <- app_assoc. done.
    + done.
    + done.
Qed.

Lemma any_count_set_ndeps x v q (hp : list obc_dep) :
  any_count x (alter (set_ndeps v) q hp) = any_count x hp.
Proof.
  apply sum_list_pointwise; [apply length_alter|].
  intros i d d' Hd Hd'. rewrite (lookup_alter_Some _ _ q i d Hd) in Hd'. simplify_eq.
  case_decide; done.
Qed.

Lemma held_count_zero x (hp : list obc_dep) :
  held_count x hp = 0 ↔ ∀ q d, hp !! q = Some d → live d = true → x ∉ deps d.
Proof.
  unfold held_count. split.
  - intros Hz. induction hp as [|e hp IH]; intros q d Hq Hl; [done|].
    rewrite fmap_cons in Hz. cbn [sum_list] in Hz.
    apply Nat.eq_add_0 in Hz as [Hz1 Hz2].
    destruct q as [|q]; simpl in Hq.
    + simplify_eq. apply occ_zero. unfold held in Hz1. rewrite Hl in Hz1. done.
    + apply (IH Hz2 q d Hq Hl).
  - intros H. apply sum_list_zero. intros i d Hi. unfold held.
    destruct (live d) eqn:Hl; [|done]. apply occ_zero. eauto.
Qed.

(** A dependency that was in the container keeps its places through
    [AddBlock]. *)
Lemma AddBlock_pending_old b mask s s1 U x :
  closed (heap s) (lose_ends_ s) [] →
  placing (length (heap s)) (alloc b s) s1 (missing_parents b mask) →
  x < length (heap s) →
  pending x (heap (finish (length (heap s)) (s1, U))) (lose_ends_ s1) []
  = pending x (heap s) (lose_ends_ s) [].
Proof.
  intros Hcl Hpl Hx.
  destruct (AddBlock_heap b mask s s1 U Hpl) as (Hlen & Hold & (dn & Hn1 & _ & _ & Hn4) & Hdom).
  set (n := length (heap s)) in *.
  unfold pending. rewrite !occ_nil.
  rewrite (pl_ends_other _ _ _ _ Hpl) by lia. cbn [alloc lose_ends_].
  f_equal. f_equal.
  rewrite <- (held_count_alloc x b s).
  apply sum_list_pointwise; [rewrite Hlen, length_alloc; done|].
  intros i d0 d0' Hd0 Hd0'. unfold held.
  destruct (Hdom i d0' Hd0') as [Hlt| ->].
  - rewrite lookup_alloc_old in Hd0 by done.
    destruct (Hold i d0 Hd0) as (d'' & G1 & G2 & _ & G4 & _).
    rewrite G1 in Hd0'. injection Hd0' as <-.
    rewrite (live_ndeps d0 d'' G2), G4 by lia. done.
  - rewrite Hn1 in Hd0'. injection Hd0' as <-.
    pose proof (lookup_alloc_new b s) as Hnew. fold n in Hnew.
    rewrite Hnew in Hd0. injection Hd0 as <-.
    assert (occ x (deps dn) = 0) as ->.
    { apply occ_zero. intros Hin. destruct (Hn4 x Hin) as [-> _]. lia. }
    destruct (live dn); done.
Qed.

Lemma sum_list_ext (f g : obc_dep → nat) (l : list obc_dep) :
  (∀ i d, l !! i = Some d → f d = g d) → sum_list (f <$> l) = sum_list (g <$> l).
Proof.
  induction l as [|e l IH]; intros H; [done|].
  rewrite !fmap_cons. cbn [sum_list]. rewrite (H 0 e eq_refl). f_equal.
  apply IH. intros i d Hd. apply (H (S i)). done.
Qed.

Lemma AddBlock_placing_exact b mask s :
  mask ≠ 0%N → closed (heap s) (lose_ends_ s) [] →
  NoDup (missing_parents b mask) →
  (∀ h q, block_dep_map_ s !! h = Some q → q < length (heap s)) →
  ∃ s1, placing (length (heap s)) (alloc b s) s1 (missing_parents b mask) ∧
        AddBlock b mask s =
          finish (length (heap s)) (s1, list_to_set (missing_parents b mask)) ∧
        any_count (length (heap s)) (heap s1)
          + ends_count (length (heap s)) (lose_ends_ s1)
        = length (missing_parents b mask).
Proof.
  intros Hm Hcl Hnd Hbdm. rewrite (AddBlock_fold b mask s Hm).
  destruct (placing_fold (length (heap s)) (alloc b s) (missing_parents b mask)
              (alloc b s, ∅) []) as [Hpl HU].
  { apply placing_refl. }
  pose proof (placing_fold_exact (length (heap s)) (alloc b s) (missing_parents b mask)
                (alloc b s, ∅) [] (placing_refl _ _) Hnd) as Htot.
  simpl in Hpl, HU. cbn [fst] in Htot.
  eexists. split; [exact Hpl|]. split.
  - unfold finish. rewrite HU. cbn [fst snd]. rewrite (left_id_L ∅ (∪)). done.
  - rewrite Htot.
    + rewrite any_count_alloc. cbn [alloc lose_ends_].
      rewrite (fresh_any_count _ _ _ _ Hcl), (fresh_ends_count _ _ _ _ Hcl) by done. done.
    + intros h X HX Hin. simpl in HX.
      pose proof (closed_ends _ _ _ Hcl h X _ HX Hin). lia.
    + intros h q Hq. rewrite length_alloc. simpl in Hq.
      apply lookup_insert_Some in Hq as [[_ <-]|[_ Hq]]; [lia|].
      specialize (Hbdm h q Hq). lia.
Qed.

(** [AddBlock] under the contract keeps the exact count. *)
Lemma AddBlock_exact b mask s :
  exact s → well_added b mask →
  (∀ x d, heap s !! x = Some d → GetHash (block d) ≠ GetHash b) →
  exact (AddBlock b mask s).
Proof.
  intros Hex (Hne & Hnd & Hown) Hfresh.
  assert (mask ≠ 0%N) as Hm.
  { intros ->. apply Hne. unfold missing_parents. rewrite !N.land_0_l. done. }
  pose proof (AddBlock_counted b mask s (exact_counted s Hex)) as Hinv'.
  destruct Hex as [Hcl Hcnt Hbdm Hhash].
  assert (∀ h q, block_dep_map_ s !! h = Some q → q < length (heap s)) as Hlt.
  { intros h q Hq. destruct (Hbdm h q Hq) as (d & Hd & _). eapply lookup_lt_Some. done. }
  destruct (AddBlock_placing_exact b mask s Hm Hcl Hnd Hlt) as (s1 & Hpl & Heq & Htot).
  rewrite Heq in *.
  set (ps := missing_parents b mask) in *.
  set (U := list_to_set ps : gset N) in *.
  destruct (AddBlock_heap b mask s s1 U Hpl) as (Hlen & Hold & (dn & Hn1 & Hn2 & Hn3 & Hn4) & Hdom).
  set (n := length (heap s)) in *.
  set (s' := finish n (s1, U)) in *.
  pose proof (missing_parents_length b mask) as Hps3. fold ps in Hps3.
  pose proof modulus_big as HM.
  assert (ndeps dn = Z.of_nat (length ps)) as Hndn.
  { rewrite Hn2. unfold U. rewrite size_list_to_set by done. apply Z.mod_small. lia. }
  assert (0 < length ps) as Hpos by (destruct ps; [done|simpl; lia]).
  assert (∀ h q, h ∈ ps → <[GetHash b := n]> (block_dep_map_ s) !! h = Some q →
            block_dep_map_ s !! h = Some q) as Hlook.
  { intros h q Hh Hq. rewrite lookup_insert_ne in Hq; [done|]. intros <-. done. }
  assert (lose_ends_ s' = lose_ends_ s1) as Hle by done.
  assert (block_dep_map_ s' = <[GetHash b := n]> (block_dep_map_ s)) as Hb'.
  { unfold s'. cbn [finish block_dep_map_ fst]. rewrite (pl_bdm _ _ _ _ Hpl). done. }
  split.
  - apply Hinv'.
  - intros x d' Hx. rewrite Hle. destruct (Hdom x d' Hx) as [Hltx| ->].
    + destruct (lookup_lt_is_Some_2 (heap s) x Hltx) as [d Hd].
      destruct (Hold x d Hd) as (d'' & G1 & G2 & _).
      rewrite G1 in Hx. injection Hx as <-.
      pose proof (AddBlock_pending_old b mask s s1 U x Hcl Hpl Hltx) as Hp.
      fold n in Hp. fold s' in Hp. rewrite Hp, G2. eauto.
    + rewrite Hn1 in Hx. injection Hx as <-. split; [lia|]. rewrite Hndn. f_equal.
      unfold pending. rewrite occ_nil. rewrite <- Htot. cbn [plus]. f_equal.
      transitivity (any_count n (heap s')).
      { unfold s', finish. cbn [heap fst snd]. rewrite any_count_set_ndeps. done. }
      symmetry. apply sum_list_ext.
      * intros i d Hd.
        unfold held. destruct (live d) eqn:Hl; [done|].
        symmetry. apply occ_zero. intros Hin.
        destruct (Hdom i d Hd) as [Hlti| ->].
        -- destruct (lookup_lt_is_Some_2 (heap s) i Hlti) as [d0 Hd0].
           destruct (Hold i d0 Hd0) as (d'' & G1 & G2 & _ & _ & G5 & _).
           rewrite G1 in Hd. injection Hd as <-.
           destruct (G5 n Hin) as [Hin0|(_ & h & Hh & Hq)].
           ++ pose proof (closed_deps _ _ _ Hcl i d0 n Hd0 Hin0). lia.
           ++ apply Hlook in Hq; [|done].
              destruct (Hbdm h i Hq) as (e & He & _ & Hle').
              rewrite He in Hd0. injection Hd0 as <-.
              rewrite (live_ndeps e d'' G2) in Hl. congruence.
        -- rewrite Hn1 in Hd. injection Hd as <-.
           destruct (Hn4 n Hin) as (_ & h & Hh & Hq).
           apply Hlook in Hq; [|done]. specialize (Hlt h n Hq). lia.
  - intros h q. rewrite Hb'. intros Hq.
    apply lookup_insert_Some in Hq as [[<- <-]|[Hneq Hq]].
    + exists dn. split; [done|]. split; [by rewrite Hn3|]. apply live_range. lia.
    + destruct (Hbdm h q Hq) as (d & Hd & Hh & Hl).
      destruct (Hold q d Hd) as (d' & G1 & G2 & G3 & _).
      exists d'. split; [done|]. split; [by rewrite G3|].
      rewrite (live_ndeps d d' G2). done.
  - assert (∀ x d', heap s' !! x = Some d' →
              (x = n ∧ block d' = b) ∨
              (x < n ∧ ∃ d, heap s !! x = Some d ∧ block d' = block d)) as Hall.
    { intros x d' Hx. destruct (Hdom x d' Hx) as [Hltx| ->].
      - right. split; [done|].
        destruct (lookup_lt_is_Some_2 (heap s) x Hltx) as [d Hd].
        destruct (Hold x d Hd) as (d'' & G1 & _ & G3 & _).
        rewrite G1 in Hx. injection Hx as <-. eauto.
      - left. split; [done|]. rewrite Hn1 in Hx. injection Hx as <-. done. }
    intros x y d' e' Hx Hy Hbe.
    destruct (Hall x d' Hx) as [[-> Hb]|(Hltx & d & Hd & Hb)];
      destruct (Hall y e' Hy) as [[-> Hb2]|(Hlty & e & He & Hb2)].
    + done.
    + exfalso. apply (Hfresh y e He). congruence.
    + exfalso. apply (Hfresh x d Hd). congruence.
    + apply (Hhash x y d e Hd He). congruence.
Qed.

Lemma pending_start x hp (le : gmap N (gset nat)) h X :
  le !! h = Some X →
  pending x hp (delete h le) (reverse (elements X)) = pending x hp le [].
Proof.
  intros Hh. unfold pending.
  rewrite occ_nil, occ_reverse, (ends_count_delete x h X le Hh).
  rewrite (occ_NoDup x (elements X)) by apply NoDup_elements.
  destruct (decide (x ∈ X)) as [Hin|Hin].
  - rewrite decide_True by (apply elem_of_elements; done). lia.
  - rewrite decide_False by (rewrite elem_of_elements; done). lia.
Qed.

(** [SubmitHash] keeps the exact count. *)
Lemma SubmitHash_exact fuel h s s' r :
  exact s → SubmitHash fuel h s = Some (s', r) → exact s'.
Proof.
  intros Hex Hsub.
  pose proof (exact_counted s Hex) as Hinv.
  destruct (SubmitHash_counted (fuel + fuel_needed h s) h s Hinv)
    as (s1 & r1 & H1 & Hinv' & Hcase); [lia|].
  rewrite (SubmitHash_mono _ (fuel + fuel_needed h s) _ _ _ Hsub) in H1 by lia.
  injection H1 as <- <-.
  destruct Hcase as [(_ & _ & ->)|(X & rl & bs & HX & -> & Hle & Hrb)]; [done|].
  destruct Hex as [Hcl Hcnt Hbdm Hhash].
  assert (exact_loop (heap s') (lose_ends_ s') []) as [_ Hcnt'].
  { unfold SubmitHash in Hsub. rewrite HX in Hsub.
    destruct (release fuel _ _ _ _) as [[[hp' bdm'] res]|] eqn:Hrel; [|done].
    injection Hsub as <- _. cbn [heap lose_ends_].
    eapply (release_exact _ fuel); [|exact Hrel].
    split; [apply (counted_start _ _ h X Hinv HX)|].
    intros x d Hx. rewrite (pending_start x _ _ h X HX). eauto. }
  split.
  - apply Hinv'.
  - done.
  - intros h' q Hq. apply (rb_bdm _ _ _ _ _ _ Hrb) in Hq as [Hq Hrl].
    destruct (Hbdm h' q Hq) as (d & Hd & Hh & Hl).
    destruct (rb_same _ _ _ _ _ _ Hrb q d Hd) as (d' & G1 & G2 & _ & G4).
    exists d'. split; [done|]. split; [by rewrite G2|].
    apply G4. split; [done|]. intros Hin. apply (Hrl q d Hin Hd). done.
  - intros x y d' e' Hx Hy Hbe.
    destruct (released_by_inv _ _ _ _ _ _ _ _ Hrb Hx) as (d & Hd & Hb & _).
    destruct (released_by_inv _ _ _ _ _ _ _ _ Hrb Hy) as (e & He & Hb2 & _).
    apply (Hhash x y d e Hd He). congruence.
Qed.

Lemma exact_empty : exact empty.
Proof.
  split.
  - apply counted_empty.
  - intros x d Hx. done.
  - intros h q Hq. simpl in Hq. rewrite lookup_empty in Hq. done.
  - intros x y d e Hx. done.
Qed.

(** All that [AddBlock] does, seen from the state it is called in: where the
    new dependency [n] is put, and that nothing else moves. *)
Lemma AddBlock_entries b mask s :
  mask ≠ 0%N → closed (heap s) (lose_ends_ s) [] →
  let s' := AddBlock b mask s in
  let n := length (heap s) in
  let ps := missing_parents b mask in
  let bdm := <[GetHash b := n]> (block_dep_map_ s) in
  length (heap s') = S n ∧
  block_dep_map_ s' = bdm ∧
  (∀ x d, heap s !! x = Some d →
     ∃ d', heap s' !! x = Some d' ∧ ndeps d' = ndeps d ∧ block d' = block d ∧
       (∀ y, y ≠ n → (y ∈ deps d' ↔ y ∈ deps d)) ∧
       (n ∈ deps d' ↔ ∃ h, h ∈ ps ∧ bdm !! h = Some x)) ∧
  (∃ dn, heap s' !! n = Some dn ∧ block dn = b ∧
     (∀ y, y ∈ deps dn → y = n) ∧
     (n ∈ deps dn ↔ ∃ h, h ∈ ps ∧ bdm !! h = Some n)) ∧
  (∀ h x, x ≠ n →
     ((∃ X, lose_ends_ s' !! h = Some X ∧ x ∈ X) ↔
      (∃ X, lose_ends_ s !! h = Some X ∧ x ∈ X))) ∧
  (∀ h, (∃ X, lose_ends_ s' !! h = Some X ∧ n ∈ X) ↔ h ∈ ps ∧ bdm !! h = None).
Proof.
  intros Hm Hcl s' n ps bdm.
  destruct (AddBlock_placing b mask s Hm) as (s1 & Hpl & Heq).
  destruct (AddBlock_heap b mask s s1 (list_to_set ps) Hpl)
    as (Hlen & Hold & (dn & Hn1 & Hn2 & Hn3 & Hn4) & Hdom).
  fold n in Hlen, Hold, Hn1, Hn4, Hdom. fold ps bdm in Hold, Hn4.
  assert (s' = finish n (s1, list_to_set ps)) as Hs' by exact Heq.
  rewrite <- Hs' in *. clear Heq.
  assert (lose_ends_ s' = lose_ends_ s1) as Hle by (rewrite Hs'; done).
  assert (block_dep_map_ s' = bdm) as Hb.
  { rewrite Hs'. cbn [finish block_dep_map_ fst]. rewrite (pl_bdm _ _ _ _ Hpl). done. }
  assert (∀ h q d0, h ∈ ps → bdm !! h = Some q → heap (alloc b s) !! q = Some d0 →
            ∃ d', heap s' !! q = Some d' ∧ n ∈ deps d') as Hplaced.
  { intros h q d0 Hh Hq Hd0. pose proof (pl_placed _ _ _ _ Hpl h Hh) as Hp.
    cbn [alloc block_dep_map_] in Hp. fold n bdm in Hp. rewrite Hq in Hp.
    destruct (Hp d0 Hd0) as (d1 & G1 & G2).
    rewrite Hs'. cbn [finish heap fst].
    rewrite (lookup_alter_Some _ _ n q d1 G1). eexists. split; [done|].
    case_decide; done. }
  split; [done|]. split; [done|]. split; [|split; [|split]].
  - intros x d Hx.
    assert (x < n) as Hlt by (eapply lookup_lt_Some; done).
    destruct (Hold x d Hx) as (d' & G1 & G2 & G3 & G4 & G5 & G6).
    exists d'. split; [done|]. split; [done|]. split; [done|]. split.
    + intros y Hy. split; [|apply G6].
      intros Hin. destruct (G5 y Hin) as [?|[? _]]; done.
    + split.
      * intros Hin. destruct (G5 n Hin) as [Hin0|[_ H]]; [|done].
        pose proof (closed_deps _ _ _ Hcl x d n Hx Hin0). lia.
      * intros (h & Hh & Hq).
        destruct (Hplaced h x d Hh Hq) as (d'' & F1 & F2).
        { rewrite lookup_alloc_old by done. done. }
        rewrite G1 in F1. injection F1 as <-. done.
  - exists dn. split; [done|]. split; [done|]. split.
    + intros y Hy. apply Hn4 in Hy as [? _]. done.
    + split.
      * intros Hin. apply Hn4 in Hin as [_ H]. done.
      * intros (h & Hh & Hq).
        destruct (Hplaced h n _ Hh Hq (lookup_alloc_new b s)) as (d'' & F1 & F2).
        rewrite Hn1 in F1. injection F1 as <-. done.
  - intros h x Hx. rewrite Hle. split.
    + intros (X & HX & Hin).
      destruct (pl_ends _ _ _ _ Hpl h X x HX Hin) as [?|[? _]]; done.
    + intros (X & HX & Hin). apply (pl_ends_keep _ _ _ _ Hpl h X x HX Hin).
  - intros h. rewrite Hle. split.
    + intros (X & HX & Hin).
      destruct (pl_ends _ _ _ _ Hpl h X n HX Hin) as [(X0 & G1 & G2)|(_ & ? & ?)]; [|done].
      simpl in G1. pose proof (closed_ends _ _ _ Hcl h X0 n G1 G2). lia.
    + intros [Hh Hq]. pose proof (pl_placed _ _ _ _ Hpl h Hh) as Hp.
      cbn [alloc block_dep_map_] in Hp. fold n bdm in Hp. rewrite Hq in Hp. done.
Qed.

(** ** Following one block through a sequence of calls *)

Lemma well_added_mask b mask : well_added b mask → mask ≠ 0%N.
Proof.
  intros (Hne & _) ->. apply Hne. unfold missing_parents. rewrite !N.land_0_l. done.
Qed.

Lemma tracked_start s0 b mask :
  exact s0 → well_added b mask → tracked s0 b mask [] [] (AddBlock b mask s0).
Proof.
  intros Hex Hwa. pose proof (well_added_mask b mask Hwa) as Hm.
  destruct Hwa as (Hne & Hnd & Hown).
  destruct (AddBlock_entries b mask s0 Hm (ex_closed _ Hex))
    as (Hlen & Hb & Hold & (dn & Hn1 & Hn2 & Hn3 & Hn4) & Hle & Hlen').
  assert (∀ h, h ∈ missing_parents b mask →
            <[GetHash b := length (heap s0)]> (block_dep_map_ s0) !! h
            = block_dep_map_ s0 !! h) as Hlook.
  { intros h Hh. apply lookup_insert_ne. intros <-. done. }
  split.
  - rewrite Hlen. lia.
  - intros h. rewrite Hlen'. split.
    + intros [Hh Hq]. rewrite Hlook in Hq by done. split; [done|]. split; [done|].
      apply not_elem_of_nil.
    + intros (Hh & Hq & _). rewrite Hlook by done. done.
  - intros q d' Hq.
    assert (q < length (heap s0) ∨ q = length (heap s0)) as [Hlt| ->]
      by (apply lookup_lt_Some in Hq; lia).
    + destruct (lookup_lt_is_Some_2 (heap s0) q Hlt) as [d Hd].
      destruct (Hold q d Hd) as (d'' & G1 & _ & _ & _ & G5).
      rewrite G1 in Hq. injection Hq as <-. rewrite G5. split.
      * intros (h & Hh & Hb'). exists h. rewrite <- Hlook by done. done.
      * intros (h & Hh & Hb'). exists h. rewrite Hlook by done. done.
    + rewrite Hn1 in Hq. injection Hq as <-. rewrite Hn4. split.
      * intros (h & Hh & Hb'). exists h. rewrite <- Hlook by done. done.
      * intros (h & Hh & Hb'). exists h. rewrite Hlook by done. done.
  - intros x d1 Hx Hl. exists d1. split; [done|]. split; [done|].
    split; [intros Hin; inversion Hin|congruence].
Qed.

Lemma AddBlock_tracked s0 b mask done out s b' m' :
  exact s0 → exact s → tracked s0 b mask done out s → well_added b' m' →
  tracked s0 b mask (done ++ [CallAddBlock b' m']) out (AddBlock b' m' s).
Proof.
  intros Hex0 Hex [Hlt Hends Hdeps Hout] Hwa.
  pose proof (well_added_mask b' m' Hwa) as Hm.
  destruct (AddBlock_entries b' m' s Hm (ex_closed _ Hex))
    as (Hlen & Hb & Hold & (dn & Hn1 & Hn2 & Hn3 & Hn4) & Hle & Hlen').
  split.
  - rewrite Hlen. lia.
  - intros h. rewrite (Hle h (length (heap s0))) by lia. rewrite Hends.
    rewrite elem_of_app, list_elem_of_singleton. split.
    + intros (? & ? & ?). split; [done|]. split; [done|]. intros [?|?]; done.
    + intros (? & ? & Hn). split; [done|]. split; [done|]. intros ?. apply Hn. by left.
  - intros q d' Hq.
    assert (q < length (heap s) ∨ q = length (heap s)) as [Hltq| ->]
      by (apply lookup_lt_Some in Hq; lia).
    + destruct (lookup_lt_is_Some_2 (heap s) q Hltq) as [d Hd].
      destruct (Hold q d Hd) as (d'' & G1 & _ & _ & G4 & _).
      rewrite G1 in Hq. injection Hq as <-.
      rewrite (G4 (length (heap s0))) by lia. apply Hdeps. done.
    + rewrite Hn1 in Hq. injection Hq as <-. split.
      * intros Hin. apply Hn3 in Hin. lia.
      * intros (h & Hh & Hq). destruct (ex_bdm _ Hex0 h _ Hq) as (d0 & Hd0 & _).
        apply lookup_lt_Some in Hd0. lia.
  - intros x d1 Hx Hl. destruct (Hout x d1 Hx Hl) as (d & Hd & Hbd & Hiff).
    destruct (Hold x d Hd) as (d' & G1 & G2 & G3 & _).
    exists d'. split; [done|]. rewrite G3, (live_ndeps d d' G2). done.
Qed.

Lemma SubmitHash_tracked s0 b mask done out s fuel h0 s' r :
  exact s → tracked s0 b mask done out s →
  SubmitHash fuel h0 s = Some (s', r) →
  tracked s0 b mask (done ++ [CallSubmitHash h0]) (out ++ default [] r) s'.
Proof.
  intros Hex [Hlt Hends Hdeps Hout] Hsub.
  pose proof (exact_counted s Hex) as Hinv.
  destruct (SubmitHash_counted (fuel + fuel_needed h0 s) h0 s Hinv)
    as (s1 & r1 & H1 & Hinv' & Hcase); [lia|].
  rewrite (SubmitHash_mono _ (fuel + fuel_needed h0 s) _ _ _ Hsub) in H1 by lia.
  injection H1 as <- <-.
  assert (∀ h, (CallSubmitHash h ∉ done ++ [CallSubmitHash h0]) ↔
               (CallSubmitHash h ∉ done) ∧ h ≠ h0) as Hdone.
  { intros h. rewrite elem_of_app, list_elem_of_singleton. split.
    - intros Hn. split; [tauto|]. intros ->. tauto.
    - intros [Hn Hne] [?|[= ?]]; done. }
  destruct Hcase as [(HX & -> & ->)|(X & rl & bs & HX & -> & Hle & Hrb)].
  - simpl. rewrite app_nil_r. split; [done| |done|done].
    intros h. rewrite Hdone. split.
    + intros Hl. pose proof (proj1 (Hends h) Hl) as (? & ? & ?).
      destruct Hl as (X & HX' & _).
      split; [done|]. split; [done|]. split; [done|]. congruence.
    + intros (? & ? & ? & ?). apply Hends. done.
  - simpl. split.
    + rewrite (rb_length _ _ _ _ _ _ Hrb). done.
    + intros h. rewrite Hdone, Hle. split.
      * intros (X' & HX' & Hin). apply lookup_delete_Some in HX' as [Hne HX'].
        assert (h ∈ missing_parents b mask ∧ block_dep_map_ s0 !! h = None ∧
                CallSubmitHash h ∉ done) as (? & ? & ?) by (apply Hends; eauto).
        done.
      * intros (Hh & Hq & Hnd & Hne).
        destruct (proj2 (Hends h)) as (X' & HX' & Hin); [done|].
        exists X'. split; [|done]. apply lookup_delete_Some. done.
    + intros q d' Hq.
      destruct (released_by_inv _ _ _ _ _ _ _ _ Hrb Hq) as (d & Hd & _ & Hdp & _).
      rewrite Hdp. apply Hdeps. done.
    + intros x d1 Hx Hl. destruct (Hout x d1 Hx Hl) as (d & Hd & Hbd & Hiff).
      destruct (rb_same _ _ _ _ _ _ Hrb x d Hd) as (d' & G1 & G2 & _ & G4).
      exists d'. split; [done|]. split; [congruence|].
      pose proof (rb_blocks _ _ _ _ _ _ Hrb) as HF.
      rewrite G2, elem_of_app. split.
      * intros [Hin|Hin]; apply not_true_is_false; intros Hl'; apply G4 in Hl' as [Hl' Hni].
        -- apply Hiff in Hin. congruence.
        -- destruct (Forall2_rel_elem _ _ _ _ _ HF Hin) as (y & e & Hy & He & _ & Hbe).
           assert (y = x) as -> by (eapply (ex_hash _ Hex); [done..|congruence]). done.
      * intros Hl'. destruct (live d) eqn:Hld.
        -- right. destruct (decide (x ∈ rl)) as [Hin|Hni].
           ++ destruct (Forall2_rel_elem_l _ _ _ _ _ HF Hin) as (e & He & _ & Hbe).
              rewrite Hd in He. injection He as <-. done.
           ++ assert (live d' = true) by (apply G4; done). congruence.
        -- left. apply Hiff. done.
Qed.

Lemma contract_app cs cs' : contract (cs ++ cs') ↔ contract cs ∧ contract cs'.
Proof.
  induction cs as [|[b m|h] cs IH]; simpl; [tauto| |tauto].
  rewrite IH. tauto.
Qed.

Lemma added_blocks_app cs cs' : added_blocks (cs ++ cs') = added_blocks cs ++ added_blocks cs'.
Proof.
  induction cs as [|[b m|h] cs IH]; simpl; [done| |done].
  destruct (m =? 0)%N; simpl; rewrite IH; done.
Qed.

Lemma AddBlock_fresh_hash b mask s b' :
  fresh_hash s b' → GetHash b ≠ GetHash b' → fresh_hash (AddBlock b mask s) b'.
Proof.
  intros Hf Hne. destruct (N.eq_dec mask 0) as [->|Hm]; [done|].
  destruct (AddBlock_placing b mask s Hm) as (s1 & Hpl & ->).
  destruct (AddBlock_heap b mask s s1 (list_to_set (missing_parents b mask)) Hpl)
    as (_ & Hold & (dn & Hn1 & _ & Hn3 & _) & Hdom).
  intros x d' Hx. destruct (Hdom x d' Hx) as [Hlt| ->].
  - destruct (lookup_lt_is_Some_2 (heap s) x Hlt) as [d Hd].
    destruct (Hold x d Hd) as (d'' & G1 & _ & G3 & _).
    rewrite G1 in Hx. injection Hx as <-. rewrite G3. eauto.
  - rewrite Hn1 in Hx. injection Hx as <-. rewrite Hn3. done.
Qed.

Lemma SubmitHash_fresh_hash fuel h s s' r b' :
  exact s → SubmitHash fuel h s = Some (s', r) → fresh_hash s b' → fresh_hash s' b'.
Proof.
  intros Hex Hsub Hf.
  destruct (SubmitHash_counted (fuel + fuel_needed h s) h s (exact_counted s Hex))
    as (s1 & r1 & H1 & _ & Hcase); [lia|].
  rewrite (SubmitHash_mono _ (fuel + fuel_needed h s) _ _ _ Hsub) in H1 by lia.
  injection H1 as <- <-.
  destruct Hcase as [(_ & _ & ->)|(X & rl & bs & _ & _ & _ & Hrb)]; [done|].
  intros x d' Hx.
  destruct (released_by_inv _ _ _ _ _ _ _ _ Hrb Hx) as (d & Hd & Hb & _).
  rewrite Hb. eauto.
Qed.

(** A sequence of calls that keeps the contract runs to its end, keeps the
    exact count, and keeps any property [I] of the calls made, the blocks
    returned and the state that each call keeps. *)
Lemma run_contract (I : list call → list Block → OBC → Prop) :
  (∀ done out s b m, exact s → I done out s → well_added b m →
     I (done ++ [CallAddBlock b m]) out (AddBlock b m s)) →
  (∀ done out s h s' r fuel, exact s → I done out s →
     SubmitHash fuel h s = Some (s', r) →
     I (done ++ [CallSubmitHash h]) (out ++ default [] r) s') →
  ∀ cs s done out,
    exact s → I done out s → contract cs →
    NoDup (GetHash <$> added_blocks cs) →
    (∀ b, b ∈ added_blocks cs → fresh_hash s b) →
    ∃ fuel0 s' out',
      (∀ fuel, fuel0 ≤ fuel → run fuel cs s = Some (s', out')) ∧
      exact s' ∧ I (done ++ cs) (out ++ out') s' ∧
      (∀ b', fresh_hash s b' → GetHash b' ∉ GetHash <$> added_blocks cs →
             fresh_hash s' b').
Proof.
  intros Hadd Hsub. induction cs as [|[b m|h] cs IH]; intros s done out Hex HI Hc Hnd Hfresh.
  - exists 0, s, []. rewrite !app_nil_r. done.
  - simpl in Hc. destruct Hc as [Hwa Hc].
    pose proof (well_added_mask b m Hwa) as Hm.
    simpl in Hnd, Hfresh. destruct (N.eqb_spec m 0) as [?|_]; [done|].
    rewrite fmap_cons in Hnd. apply NoDup_cons in Hnd as [Hb Hnd].
    assert (fresh_hash s b) as Hfb by (apply Hfresh; left).
    assert (exact (AddBlock b m s)) as Hex1 by (apply AddBlock_exact; done).
    assert (I (done ++ [CallAddBlock b m]) out (AddBlock b m s)) as HI1
      by (apply Hadd; done).
    assert (∀ b', b' ∈ added_blocks cs → fresh_hash (AddBlock b m s) b') as Hfresh1.
    { intros b' Hb'. apply AddBlock_fresh_hash; [apply Hfresh; by right|].
      intros Heq. apply Hb. rewrite Heq. apply list_elem_of_fmap. eauto. }
    destruct (IH (AddBlock b m s) (done ++ [CallAddBlock b m]) out Hex1 HI1 Hc Hnd Hfresh1)
      as (fuel0 & s' & out' & Hrun & Hex' & HI' & Hfr').
    exists fuel0, s', out'. split; [exact Hrun|]. split; [done|].
    rewrite <- app_assoc in HI'. split; [done|].
    intros b' Hf' Hni. simpl in Hni. destruct (N.eqb_spec m 0) as [?|_]; [done|].
    rewrite fmap_cons, not_elem_of_cons in Hni. destruct Hni as [Hne Hni].
    apply Hfr'; [|done]. apply AddBlock_fresh_hash; [done|congruence].
  - simpl in Hc, Hnd, Hfresh.
    destruct (SubmitHash_counted (fuel_needed h s) h s (exact_counted s Hex))
      as (s1 & r & Hs1 & _ & _); [done|].
    assert (exact s1) as Hex1 by exact (SubmitHash_exact _ _ _ _ _ Hex Hs1).
    assert (I (done ++ [CallSubmitHash h]) (out ++ default [] r) s1) as HI1
      by exact (Hsub _ _ _ _ _ _ _ Hex HI Hs1).
    assert (∀ b', b' ∈ added_blocks cs → fresh_hash s1 b') as Hfresh1.
    { intros b' Hb'. apply (SubmitHash_fresh_hash _ _ _ _ _ _ Hex Hs1). apply Hfresh. done. }
    destruct (IH s1 (done ++ [CallSubmitHash h]) (out ++ default [] r) Hex1 HI1 Hc Hnd Hfresh1)
      as (fuel0 & s' & out' & Hrun & Hex' & HI' & Hfr').
    exists (max (fuel_needed h s) fuel0), s', (default [] r ++ out').
    split; [|split; [done|split]].
    + intros fuel Hfuel. simpl.
      rewrite (SubmitHash_mono _ fuel _ _ _ Hs1) by lia.
      rewrite (Hrun fuel) by lia. done.
    + rewrite <- !app_assoc in HI'. exact HI'.
    + intros b' Hf' Hni. apply Hfr'; [|done].
      apply (SubmitHash_fresh_hash _ _ _ _ _ _ Hex Hs1). done.
Qed.

(** ** The properties of the specification *)

(** C1 (amended).  In a sequence of calls that keeps the caller's contract
    (every block is added once, with a mask that selects at least one parent,
    parents with pairwise distinct hashes that differ from the block's own),
    a block [b] added by [AddBlock(b, mask)] is in the result of some later
    [SubmitHash] exactly when every parent hash [P] the mask selects has been
    supplied: by a later [SubmitHash(P)] when [P] was not a key of
    [block_dep_map_] when [b] was added, and by the later release of the
    orphan stored under [P] when it was.  The release of an orphan does not
    supply its hash to the blocks that were added before it. *)
Theorem released_iff_parents_supplied pre b mask post :
  contract (pre ++ CallAddBlock b mask :: post) →
  NoDup (GetHash <$> added_blocks (pre ++ CallAddBlock b mask :: post)) →
  ∃ fuel0 s0 out0 s out,
    (∀ fuel, fuel0 ≤ fuel →
       run fuel pre empty = Some (s0, out0) ∧
       run fuel post (AddBlock b mask s0) = Some (s, out)) ∧
    (b ∈ out ↔
       ∀ P, P ∈ missing_parents b mask →
         match block_dep_map_ s0 !! P with
         | None => CallSubmitHash P ∈ post
         | Some q => ∃ d, heap s0 !! q = Some d ∧ block d ∈ out
         end).
Proof.
  intros Hc Hnd.
  apply contract_app in Hc as [Hc1 [Hwa Hc2]].
  pose proof (well_added_mask b mask Hwa) as Hm.
  rewrite added_blocks_app in Hnd. simpl in Hnd.
  destruct (N.eqb_spec mask 0) as [?|_]; [done|].
  rewrite fmap_app, fmap_cons in Hnd.
  apply NoDup_app in Hnd as (Hnd1 & Hdis & Hnd2).
  apply NoDup_cons in Hnd2 as [Hb Hnd2].
  (* the calls before b is added *)
  destruct (run_contract (λ _ _ _, True) ltac:(done) ltac:(done) pre empty [] []
              exact_empty I Hc1 Hnd1)
    as (fuel1 & s0 & out0 & Hrun1 & Hex0 & _ & Hfr0).
  { intros b' _ x d Hx. done. }
  assert (∀ b', GetHash b' ∉ GetHash <$> added_blocks pre → fresh_hash s0 b') as Hfresh0.
  { intros b' Hb'. apply Hfr0; [|done]. intros x d Hx. done. }
  assert (fresh_hash s0 b) as Hfb.
  { apply Hfresh0. intros Hin. apply (Hdis _ Hin). left. }
  (* b is added *)
  pose proof (AddBlock_exact b mask s0 Hex0 Hwa Hfb) as Hex1.
  pose proof (tracked_start s0 b mask Hex0 Hwa) as Htr1.
  (* the calls after *)
  destruct (run_contract (tracked s0 b mask)
              (λ done out s b' m' Hex HI Hwa', AddBlock_tracked s0 b mask done out s b' m'
                                                 Hex0 Hex HI Hwa')
              (λ done out s h s' r fuel Hex HI Hsub,
                 SubmitHash_tracked s0 b mask done out s fuel h s' r Hex HI Hsub)
              post (AddBlock b mask s0) [] [] Hex1 Htr1 Hc2 Hnd2)
    as (fuel2 & s & out & Hrun2 & Hex & Htr & _).
  { intros b' Hb'. apply AddBlock_fresh_hash.
    - apply Hfresh0. intros Hin. apply (Hdis _ Hin). right.
      apply list_elem_of_fmap. eauto.
    - intros Heq. apply Hb. rewrite Heq. apply list_elem_of_fmap. eauto. }
  simpl in Htr.
  exists (max fuel1 fuel2), s0, out0, s, out. split.
  { intros fuel Hfuel. rewrite (Hrun1 fuel), (Hrun2 fuel) by lia. done. }
  (* the entries of the state in which b was added *)
  destruct (AddBlock_entries b mask s0 Hm (ex_closed _ Hex0))
    as (_ & Hbdm1 & Hold & _).
  assert (∃ d1, heap (AddBlock b mask s0) !! length (heap s0) = Some d1 ∧
                block d1 = b ∧ live d1 = true) as (d1 & Hd1 & Hb1 & Hl1).
  { destruct (ex_bdm _ Hex1 (GetHash b) (length (heap s0))) as (d1 & G1 & G2 & G3).
    - rewrite Hbdm1. apply lookup_insert_eq.
    - exists d1. split; [done|]. split; [|done].
      destruct (AddBlock_entries b mask s0 Hm (ex_closed _ Hex0))
        as (_ & _ & _ & (dn & Hn1 & Hn2 & _) & _).
      congruence. }
  destruct (tr_out _ _ _ _ _ _ Htr _ d1 Hd1 Hl1) as (d & Hd & Hbd & Hiff).
  rewrite Hb1 in Hbd. rewrite Hbd in Hiff. rewrite Hiff.
  destruct (ex_count _ Hex _ d Hd) as [Hr He].
  assert (live d = false ↔
          held_count (length (heap s0)) (heap s) = 0 ∧
          ends_count (length (heap s0)) (lose_ends_ s) = 0) as ->.
  { unfold pending in He. rewrite occ_nil in He. rewrite live_false. lia. }
  rewrite held_count_zero, ends_count_zero.
  (* a parent that was an orphan when b was added *)
  assert (∀ P q, block_dep_map_ s0 !! P = Some q →
            ∃ d0 dq, heap s0 !! q = Some d0 ∧ heap s !! q = Some dq ∧
                     (block d0 ∈ out ↔ live dq = false)) as Hholder.
  { intros P q Hq. destruct (ex_bdm _ Hex0 P q Hq) as (d0 & Hd0 & _ & Hl0).
    destruct (Hold q d0 Hd0) as (d0' & G1 & G2 & G3 & _).
    destruct (tr_out _ _ _ _ _ _ Htr q d0' G1) as (dq & Hdq & Hbq & Hiffq).
    { rewrite (live_ndeps d0 d0' G2). done. }
    exists d0, dq. split; [done|]. split; [done|]. rewrite <- G3, <- Hbq. done. }
  split.
  - intros [Hheld Hends] P HP.
    destruct (block_dep_map_ s0 !! P) as [q|] eqn:Hq.
    + destruct (Hholder P q Hq) as (d0 & dq & Hd0 & Hdq & Hiffq).
      exists d0. split; [done|]. apply Hiffq. apply not_true_is_false. intros Hlq.
      apply (Hheld q dq Hdq Hlq). apply (tr_deps _ _ _ _ _ _ Htr q dq Hdq). eauto.
    + destruct (decide (CallSubmitHash P ∈ post)) as [Hin|Hni]; [done|]. exfalso.
      destruct (proj2 (tr_ends _ _ _ _ _ _ Htr P)) as (X & HX & Hin); [done|].
      apply (Hends P X HX Hin).
  - intros Hall. split.
    + intros q dq Hdq Hlq Hin.
      apply (tr_deps _ _ _ _ _ _ Htr q dq Hdq) in Hin as (P & HP & Hq).
      specialize (Hall P HP). rewrite Hq in Hall. destruct Hall as (d0 & Hd0 & Hout).
      destruct (Hholder P q Hq) as (d0' & dq' & Hd0' & Hdq' & Hiffq).
      rewrite Hd0 in Hd0'. injection Hd0' as <-.
      rewrite Hdq in Hdq'. injection Hdq' as <-.
      apply Hiffq in Hout. congruence.
    + intros P X HX Hin.
      destruct (proj1 (tr_ends _ _ _ _ _ _ Htr P)) as (HP & Hq & Hni); [eauto|].
      specialize (Hall P HP). rewrite Hq in Hall. done.
Qed.

(** C2 (amended).  In a reachable state, [AddBlock] enters the new orphan
    under [lose_ends_[h]] exactly for the parent hashes [h] the mask selects
    that are not keys of [block_dep_map_] at that moment (the block's own
    entry is made first).  The entry stays when a block with hash [h] is
    added later: a hash can be a key of both maps, and then the orphan stored
    under it was added after every orphan waiting for it in [lose_ends_]. *)
Theorem lose_end_waiters_added_before s :
  reachable s →
  (∀ h p X x,
     block_dep_map_ s !! h = Some p → lose_ends_ s !! h = Some X → x ∈ X →
     x < p) ∧
  (∀ b mask h, mask ≠ 0%N →
     ((∃ X, lose_ends_ (AddBlock b mask s) !! h = Some X ∧ length (heap s) ∈ X) ↔
      (h ∈ missing_parents b mask ∧ block_dep_map_ (AddBlock b mask s) !! h = None))).
Proof.
  intros Hs. split.
  - apply (reachable_waiters_older s Hs).
  - intros b mask h Hm.
    destruct (AddBlock_entries b mask s Hm (counted_closed _ _ _ (reachable_counted s Hs)))
      as (_ & -> & _ & _ & _ & Hnew).
    apply Hnew.
Qed.

(** C3 (amended).  A sequence of calls in which no block is added twice
    runs to its end, and no block occurs twice in the results of its
    [SubmitHash] calls taken together. *)
Theorem no_block_released_twice cs :
  NoDup (added_blocks cs) →
  ∃ fuel0 s out, ∀ fuel, fuel0 ≤ fuel →
    run fuel cs empty = Some (s, out) ∧ NoDup out.
Proof.
  intros Hnd.
  destruct (run_single cs empty [] single_empty Hnd) as (fuel0 & s & out & Hrun).
  { intros b _ x d Hx. done. }
  exists fuel0, s, out. intros fuel Hfuel.
  destruct (Hrun fuel Hfuel) as [-> Hsg]. split; [done|].
  apply (sg_nodup _ _ Hsg).
Qed.

(** C7.  [SubmitHash(h)] for a hash [h] that is not a key of [lose_ends_]
    returns the empty optional and changes nothing: the heap (so every stored
    [ndeps]), [block_dep_map_] and [lose_ends_] are the ones it was called
    with, whatever fuel is given. *)
Theorem SubmitHash_no_lose_end fuel hash s :
  lose_ends_ s !! hash = None → SubmitHash fuel hash s = Some (s, None).
Proof. intros H. unfold SubmitHash. rewrite H. reflexivity. Qed.

(** C8.  After [AddBlock(block, mask)] with a mask that is not zero, the
    dependency stored under the block's hash is the new one, it carries the
    block, and its [ndeps] is the number of distinct hashes among the parents
    the mask selects: a hash carried by two selected parent fields is counted
    once. *)
Theorem AddBlock_ndeps_distinct b mask s :
  mask ≠ 0%N →
  ∃ dep,
    block_dep_map_ (AddBlock b mask s) !! GetHash b = Some (length (heap s)) ∧
    heap (AddBlock b mask s) !! length (heap s) = Some dep ∧
    block dep = b ∧
    ndeps dep = Z.of_nat (length (remove_dups (missing_parents b mask))).
Proof.
  intros Hm. rewrite (AddBlock_bdm b mask s Hm), lookup_insert_eq.
  destruct (AddBlock_placing b mask s Hm) as (s1 & Hpl & ->).
  destruct (AddBlock_heap b mask s s1 (list_to_set (missing_parents b mask)) Hpl)
    as (_ & _ & (dn & Hn1 & Hn2 & Hn3 & _) & _).
  exists dn. split; [done|]. split; [done|]. split; [done|].
  rewrite Hn2. apply ndeps_stored, missing_parents_length.
Qed.

(** C10.  In a reachable state [Contains(h)] is true exactly when [h] is a
    key of [block_dep_map_], that is the own hash of a block held as an
    orphan; for a hash that is only a key of [lose_ends_] it is false. *)
Theorem Contains_held_orphan s hash :
  reachable s →
  (Contains hash s = true ↔
     ∃ p d, block_dep_map_ s !! hash = Some p ∧ heap s !! p = Some d ∧
            GetHash (block d) = hash) ∧
  (is_Some (lose_ends_ s !! hash) → block_dep_map_ s !! hash = None →
     Contains hash s = false).
Proof.
  intros Hs. pose proof (reachable_indexed s Hs) as Hidx. unfold Contains. split.
  - rewrite bool_decide_eq_true. split.
    + intros [p Hp]. destruct (Hidx hash p Hp) as (d & Hd & Hh). eauto.
    + intros (p & d & Hp & _). eauto.
  - intros _ Hnone. rewrite Hnone. apply bool_decide_eq_false. intros [? ?]. done.
Qed.

(** ** Further properties of the container *)

(** The loop touches [block_dep_map_] only to erase the hashes of the blocks
    it returns, and it returns only blocks of the heap, whose blocks stay. *)
Lemma release_erases fuel : ∀ hp bdm stack result hp' bdm' result',
  release fuel hp bdm stack result = Some (hp', bdm', result') →
  ∃ bs, result' = result ++ bs ∧
    (∀ k, bdm' !! k = if decide (k ∈ GetHash <$> bs) then None else bdm !! k) ∧
    block <$> hp' = block <$> hp ∧
    (∀ b, b ∈ bs → b ∈ block <$> hp).
Proof.
  induction fuel as [|fuel IH]; intros hp bdm stack result hp' bdm' result' H.
  - destruct stack; [|done]. simpl in H. simplify_eq.
    exists []. rewrite app_nil_r. split; [done|]. split; [|split; [done|]].
    + intros k. rewrite decide_False; [done|]. rewrite fmap_nil. apply not_elem_of_nil.
    + intros b Hb. inversion Hb.
  - destruct stack as [|c stack].
    { simpl in H. simplify_eq.
      exists []. rewrite app_nil_r. split; [done|]. split; [|split; [done|]].
      + intros k. rewrite decide_False; [done|]. rewrite fmap_nil. apply not_elem_of_nil.
      + intros b Hb. inversion Hb. }
    simpl in H. destruct (hp !! c) as [d|] eqn:Hc; [|done].
    assert (∀ n, block <$> <[c := set_ndeps n d]> hp = block <$> hp) as Hblocks.
    { intros n. rewrite list_fmap_insert. apply list_insert_id.
      rewrite list_lookup_fmap, Hc. done. }
    destruct (0 <? _)%Z.
    + destruct (IH _ _ _ _ _ _ _ H) as (bs & -> & Hk & Hb1 & Hb2).
      exists bs. rewrite Hblocks in Hb1, Hb2. done.
    + destruct (IH _ _ _ _ _ _ _ H) as (bs & -> & Hk & Hb1 & Hb2).
      exists (block d :: bs). rewrite Hblocks in Hb1, Hb2.
      split; [rewrite <- app_assoc; done|]. split; [|split; [done|]].
      * intros k. rewrite Hk, fmap_cons.
        destruct (decide (k = GetHash (block d))) as [->|Hne].
        -- rewrite lookup_delete_eq. rewrite (decide_True (P := _ ∈ _ :: _)) by left.
           destruct (decide _); done.
        -- rewrite lookup_delete_ne by done.
           destruct (decide (k ∈ GetHash <$> bs)) as [Hin|Hni].
           ++ rewrite decide_True; [done|]. by right.
           ++ rewrite decide_False; [done|]. rewrite not_elem_of_cons. done.
      * intros b Hb. apply elem_of_cons in Hb as [->|Hb]; [|auto].
        apply list_elem_of_fmap. exists d. split; [done|].
        apply list_elem_of_lookup. eauto.
Qed.

(** X1.  After [SubmitHash] the container holds exactly the hashes it held
    before, less the hashes of the blocks it returned. *)
Theorem SubmitHash_Contains_rest fuel hash s s' r k :
  SubmitHash fuel hash s = Some (s', r) →
  Contains k s' = Contains k s && bool_decide (k ∉ GetHash <$> default [] r).
Proof.
  unfold SubmitHash, Contains. intros H.
  destruct (lose_ends_ s !! hash) as [X|].
  - destruct (release _ _ _ _ _) as [[[hp bdm] res]|] eqn:E; [|done].
    simplify_eq. cbn [block_dep_map_ default].
    destruct (release_erases _ _ _ _ _ _ _ _ E) as (bs & Hbs & Hk & _).
    simpl in Hbs. subst res. rewrite Hk.
    destruct (decide (k ∈ GetHash <$> bs)) as [Hin|Hni].
    + rewrite (bool_decide_eq_false_2 (k ∉ _)) by tauto.
      rewrite andb_false_r. apply bool_decide_eq_false_2. intros [? ?]. done.
    + rewrite (bool_decide_eq_true_2 (k ∉ _)) by done. rewrite andb_true_r. done.
  - simplify_eq. cbn [default]. rewrite fmap_nil.
    rewrite (bool_decide_eq_true_2 (k ∉ [])) by apply not_elem_of_nil.
    rewrite andb_true_r. done.
Qed.

(** X2.  [SubmitHash] erases the lose end it was called for and no other, so
    the same hash submitted again ties nothing and changes nothing. *)
Theorem SubmitHash_again fuel fuel' hash s s' r :
  SubmitHash fuel hash s = Some (s', r) →
  lose_ends_ s' = delete hash (lose_ends_ s) ∧
  SubmitHash fuel' hash s' = Some (s', None).
Proof.
  unfold SubmitHash. intros H.
  destruct (lose_ends_ s !! hash) as [X|] eqn:Hh.
  - destruct (release _ _ _ _ _) as [[[hp bdm] res]|] eqn:E; [|done].
    simplify_eq. cbn [lose_ends_]. split; [done|].
    rewrite lookup_delete_eq. done.
  - simplify_eq. split; [rewrite delete_id; done|]. rewrite Hh. done.
Qed.

(** X3.  [AddBlock] with a mask that is not zero makes the hash of the block
    contained and changes this for no other hash; [Size] grows by one unless
    the hash was contained already. With the mask zero nothing changes. *)
Theorem AddBlock_Contains_Size b mask s k :
  Contains k (AddBlock b mask s)
    = negb (mask =? 0)%N && bool_decide (k = GetHash b) || Contains k s ∧
  Size (AddBlock b mask s)
    = if (mask =? 0)%N || Contains (GetHash b) s then Size s else S (Size s).
Proof.
  destruct (N.eqb_spec mask 0) as [->|Hm].
  - rewrite AddBlock_zero. done.
  - unfold Contains, Size. rewrite (AddBlock_bdm b mask s Hm). simpl. split.
    + destruct (decide (k = GetHash b)) as [->|Hne].
      * rewrite lookup_insert_eq.
        rewrite (bool_decide_eq_true_2 (is_Some (Some _))) by done.
        rewrite (bool_decide_eq_true_2 (GetHash b = GetHash b)) by done. done.
      * rewrite lookup_insert_ne by done.
        rewrite (bool_decide_eq_false_2 (k = _)) by done. done.
    + destruct (block_dep_map_ s !! GetHash b) as [q|] eqn:Hq.
      * rewrite bool_decide_eq_true_2 by done.
        rewrite map_size_insert_Some; done.
      * rewrite bool_decide_eq_false_2 by (intros [? ?]; done).
        rewrite map_size_insert_None; done.
Qed.

(** The blocks of the heap are the blocks added, in the order of the calls. *)
Lemma AddBlock_blocks b mask s :
  mask ≠ 0%N → block <$> heap (AddBlock b mask s) = (block <$> heap s) ++ [b].
Proof.
  intros Hm. destruct (AddBlock_placing b mask s Hm) as (s1 & Hpl & ->).
  destruct (AddBlock_heap b mask s s1 (list_to_set (missing_parents b mask)) Hpl)
    as (Hlen & Hold & (dn & Hn1 & _ & Hn3 & _) & _).
  apply list_eq. intros i. rewrite list_lookup_fmap.
  destruct (decide (i < length (heap s))) as [Hlt|Hge].
  - rewrite lookup_app_l by (rewrite length_fmap; done).
    rewrite list_lookup_fmap.
    destruct (lookup_lt_is_Some_2 (heap s) i Hlt) as [d Hd].
    destruct (Hold i d Hd) as (d' & G1 & _ & G3 & _).
    rewrite G1, Hd. simpl. congruence.
  - rewrite lookup_app_r by (rewrite length_fmap; lia). rewrite length_fmap.
    destruct (decide (i = length (heap s))) as [->|Hne].
    + rewrite Hn1, Nat.sub_diag. simpl. congruence.
    + rewrite (lookup_ge_None_2 (heap _)) by lia.
      destruct (i - length (heap s)) as [|j] eqn:E; [lia|]. done.
Qed.

Lemma SubmitHash_blocks fuel h s s' r :
  SubmitHash fuel h s = Some (s', r) →
  block <$> heap s' = block <$> heap s ∧
  ∀ b, b ∈ default [] r → b ∈ block <$> heap s.
Proof.
  unfold SubmitHash. intros H. destruct (lose_ends_ s !! h) as [X|].
  - destruct (release _ _ _ _ _) as [[[hp bdm] res]|] eqn:E; [|done].
    simplify_eq. destruct (release_erases _ _ _ _ _ _ _ _ E) as (bs & Hbs & _ & Hb1 & Hb2).
    simpl in Hbs. subst res. done.
  - simplify_eq. split; [done|]. intros b Hb. inversion Hb.
Qed.

Lemma run_blocks fuel cs : ∀ s s' out,
  run fuel cs s = Some (s', out) →
  block <$> heap s' = (block <$> heap s) ++ added_blocks cs ∧
  ∀ b, b ∈ out → b ∈ (block <$> heap s) ++ added_blocks cs.
Proof.
  induction cs as [|[b m|h] cs IH]; intros s s' out H; simpl in *.
  - simplify_eq. rewrite app_nil_r. split; [done|]. intros b Hb. inversion Hb.
  - destruct (N.eqb_spec m 0) as [->|Hm].
    + rewrite AddBlock_zero in H. eauto.
    + destruct (IH _ _ _ H) as [G1 G2].
      rewrite (AddBlock_blocks b m s Hm), <- app_assoc in G1, G2. done.
  - destruct (SubmitHash fuel h s) as [[s1 r]|] eqn:E; [|done].
    destruct (run fuel cs s1) as [[s2 out2]|] eqn:E2; [|done]. simplify_eq.
    destruct (SubmitHash_blocks _ _ _ _ _ E) as [F1 F2].
    destruct (IH _ _ _ E2) as [G1 G2]. rewrite F1 in G1, G2.
    split; [done|]. intros b Hb. apply elem_of_app in Hb as [Hb|Hb]; [|auto].
    apply elem_of_app. left. auto.
Qed.

Lemma run_reachable fuel cs : ∀ s s' out,
  reachable s → run fuel cs s = Some (s', out) → reachable s'.
Proof.
  induction cs as [|[b m|h] cs IH]; intros s s' out Hs H; simpl in *.
  - simplify_eq. done.
  - eapply IH; [|done]. constructor. done.
  - destruct (SubmitHash fuel h s) as [[s1 r]|] eqn:E; [|done].
    destruct (run fuel cs s1) as [[s2 out2]|] eqn:E2; [|done]. simplify_eq.
    eapply IH; [|done]. econstructor; done.
Qed.

(** X4.  Whatever the calls, [SubmitHash] returns only blocks that [AddBlock]
    was given before. *)
Theorem released_blocks_were_added fuel cs s out b :
  run fuel cs empty = Some (s, out) → b ∈ out → b ∈ added_blocks cs.
Proof.
  intros H Hb. destruct (run_blocks _ _ _ _ _ H) as [_ G]. apply (G b Hb).
Qed.

(** ** The iterations of the loop of [SubmitHash]

    Summing the places every dependency waits in counts every entry of every
    [deps] vector and of every lose end once. *)

Lemma sum_fmap_cons {A} (f : A → nat) x l :
  sum_list (f <$> x :: l) = f x + sum_list (f <$> l).
Proof. reflexivity. Qed.

Lemma sum_fmap_add {A} (f g : A → nat) l :
  sum_list ((λ x, f x + g x) <$> l) = sum_list (f <$> l) + sum_list (g <$> l).
Proof.
  induction l as [|x l IH]; [done|]. rewrite !sum_fmap_cons, IH. lia.
Qed.

Lemma sum_fmap_le {A} (f g : A → nat) l :
  (∀ x, x ∈ l → f x ≤ g x) → sum_list (f <$> l) ≤ sum_list (g <$> l).
Proof.
  induction l as [|x l IH]; intros H; [done|]. rewrite !sum_fmap_cons.
  pose proof (H x ltac:(left)). pose proof (IH (λ y Hy, H y ltac:(by right))). lia.
Qed.

Lemma sum_fmap_zero {A} (f : A → nat) l :
  (∀ x, x ∈ l → f x = 0) → sum_list (f <$> l) = 0.
Proof.
  induction l as [|x l IH]; intros H; [done|]. rewrite sum_fmap_cons.
  rewrite (H x ltac:(left)), IH; [done|]. intros y Hy. apply H. by right.
Qed.

Lemma sum_fmap_indicator (y : nat) (xs : list nat) :
  NoDup xs → y ∈ xs →
  sum_list ((λ x, if decide (x = y) then 1 else 0) <$> xs) = 1.
Proof.
  induction xs as [|x xs IH]; intros Hnd Hy; [inversion Hy|].
  apply NoDup_cons in Hnd as [Hx Hnd]. rewrite sum_fmap_cons.
  destruct (decide (x = y)) as [->|Hne].
  - rewrite sum_fmap_zero; [done|]. intros z Hz. rewrite decide_False; [done|].
    intros ->. done.
  - apply elem_of_cons in Hy as [->|Hy]; [done|]. rewrite IH; done.
Qed.

Lemma occ_sum (xs l : list nat) :
  NoDup xs → (∀ y, y ∈ l → y ∈ xs) →
  sum_list ((λ x, occ x l) <$> xs) = length l.
Proof.
  intros Hnd. induction l as [|y l IH]; intros Hl.
  - apply sum_fmap_zero. done.
  - transitivity (sum_list ((λ x, (if decide (x = y) then 1 else 0) + occ x l) <$> xs)).
    { apply f_equal, list_fmap_ext. intros i x _. apply occ_cons. }
    rewrite sum_fmap_add, (sum_fmap_indicator y xs Hnd (Hl y ltac:(left))).
    rewrite (IH (λ z Hz, Hl z ltac:(by right))). done.
Qed.

Lemma held_total_sum (xs : list nat) (l : list obc_dep) :
  NoDup xs → (∀ d y, d ∈ l → y ∈ deps d → y ∈ xs) →
  sum_list ((λ x, held_count x l) <$> xs) = held_total l.
Proof.
  intros Hnd. induction l as [|d l IH]; intros Hl.
  - apply sum_fmap_zero. done.
  - unfold held_total, held_count. rewrite sum_fmap_cons.
    unfold held_total, held_count in IH.
    rewrite <- (IH (λ e y He, Hl e y ltac:(by right))).
    assert (sum_list ((λ x, held x d) <$> xs) = held_size d) as <-.
    { unfold held, held_size. destruct (live d).
      - apply occ_sum; [done|]. intros y Hy. apply (Hl d y); [left|done].
      - apply sum_fmap_zero. done. }
    rewrite <- sum_fmap_add. apply f_equal, list_fmap_ext. intros i x _.
    rewrite sum_fmap_cons. done.
Qed.

Lemma ends_count_sum (xs : list nat) (le : gmap N (gset nat)) h :
  NoDup xs → (∀ X x, le !! h = Some X → x ∈ X → x ∈ xs) →
  size (default ∅ (le !! h)) ≤ sum_list ((λ x, ends_count x le) <$> xs).
Proof.
  intros Hnd Hle. destruct (le !! h) as [X|] eqn:Hh; cbn [default].
  - unfold size, set_size. simpl.
    rewrite <- (occ_sum xs (elements X) Hnd).
    + apply sum_fmap_le. intros x _.
      rewrite occ_NoDup by apply NoDup_elements.
      destruct (decide (x ∈ elements X)) as [Hin|_]; [|lia].
      apply elem_of_elements in Hin.
      destruct (ends_count x le) eqn:E; [|lia].
      exfalso. apply (proj1 (ends_count_zero x le) E h X Hh Hin).
    + intros y Hy. apply elem_of_elements in Hy. eauto.
  - rewrite size_empty. lia.
Qed.

(** A dependency waits in at most three places, so the loop runs at most
    three times the number of dependencies allocated. *)
Lemma fuel_needed_bound h s :
  counted (heap s) (lose_ends_ s) [] → fuel_needed h s ≤ 3 * length (heap s).
Proof.
  intros [Hcl Hrange Hbound]. unfold fuel_needed.
  set (xs := seq 0 (length (heap s))).
  assert (NoDup xs) as Hnd by apply NoDup_seq.
  assert (∀ x, x < length (heap s) → x ∈ xs) as Hin.
  { intros x Hx. apply elem_of_seq. lia. }
  pose proof (ends_count_sum xs (lose_ends_ s) h Hnd) as H1.
  pose proof (held_total_sum xs (heap s) Hnd) as H2.
  assert (sum_list ((λ x, held_count x (heap s) + ends_count x (lose_ends_ s)) <$> xs)
          ≤ sum_list ((λ _, 3) <$> xs)) as H3.
  { apply sum_fmap_le. intros x Hx. apply elem_of_seq in Hx.
    destruct (lookup_lt_is_Some_2 (heap s) x) as [d Hd]; [lia|].
    pose proof (Hbound x d Hd) as Hb. unfold pending in Hb. rewrite occ_nil in Hb.
    assert (0 ≤ debt d)%Z.
    { unfold debt. destruct (live d); [lia|].
      pose proof modulus_big.
      pose proof (Z.mod_pos_bound (ndeps_modulus - ndeps d) ndeps_modulus). lia. }
    lia. }
  rewrite sum_fmap_add, sum_list_fmap_const in H3.
  unfold xs in H3 at 3. rewrite length_seq in H3.
  rewrite H2 in H3.
  - assert (size (default ∅ (lose_ends_ s !! h))
            ≤ sum_list ((λ x, ends_count x (lose_ends_ s)) <$> xs)); [|lia].
    apply H1. intros X x HX Hx. apply Hin. apply (closed_ends _ _ _ Hcl h X x HX Hx).
  - intros d y Hd Hy. apply list_elem_of_lookup in Hd as [q Hq].
    apply Hin. apply (closed_deps _ _ _ Hcl q d y Hq Hy).
Qed.

Lemma run_within cs : ∀ s fuel,
  counted (heap s) (lose_ends_ s) [] →
  3 * (length (heap s) + length (added_blocks cs)) ≤ fuel →
  is_Some (run fuel cs s).
Proof.
  induction cs as [|[b m|h] cs IH]; intros s fuel Hinv Hfuel; simpl in *.
  - done.
  - apply IH; [apply AddBlock_counted; done|].
    destruct (N.eqb_spec m 0) as [->|Hm].
    + rewrite AddBlock_zero. done.
    + pose proof (f_equal length (AddBlock_blocks b m s Hm)) as Hlen.
      rewrite length_app, !length_fmap in Hlen. simpl in *. lia.
  - pose proof (fuel_needed_bound h s Hinv) as Hb.
    destruct (SubmitHash_counted fuel h s Hinv) as (s1 & r & Hs1 & Hinv1 & _); [lia|].
    rewrite Hs1.
    destruct (IH s1 fuel Hinv1) as [[s2 out] ->]; [|done].
    destruct (SubmitHash_blocks _ _ _ _ _ Hs1) as [Hbl _].
    pose proof (f_equal length Hbl) as Hlen. rewrite !length_fmap in Hlen. lia.
Qed.

(** X5.  Whatever the calls, each loop of [SubmitHash] finishes within three
    iterations for every block that [AddBlock] was given. *)
Theorem SubmitHash_loop_bounded cs fuel :
  3 * length (added_blocks cs) ≤ fuel → is_Some (run fuel cs empty).
Proof.
  intros Hfuel. apply run_within; [apply counted_empty|]. simpl. lia.
Qed.

(** ** Every block added is held until it is released *)

Lemma accounted_empty : accounted empty [].
Proof.
  split.
  - apply single_empty.
  - intros x y d e Hx. done.
  - intros h q. simpl. rewrite lookup_empty. split; [done|]. intros (d & Hd & _). done.
  - intros x d Hx. done.
Qed.

Lemma remove_dups_length_pos (ps : list N) : ps ≠ [] → 1 ≤ length (remove_dups ps).
Proof.
  destruct ps as [|p ps]; [done|]. intros _.
  assert (p ∈ remove_dups (p :: ps)) as Hin by (apply elem_of_remove_dups; left).
  destruct (remove_dups (p :: ps)); [inversion Hin|simpl; lia].
Qed.

Lemma AddBlock_accounted b mask s acc :
  mask ≠ 0%N → missing_parents b mask ≠ [] → accounted s acc → fresh_hash s b →
  accounted (AddBlock b mask s) acc.
Proof.
  intros Hm Hps [Hsg Hhash Hbdm Hdead] Hfresh.
  destruct (AddBlock_single b mask s acc Hm Hsg) as [Hsg' _].
  { intros x d Hx Hb. apply (Hfresh x d Hx). congruence. }
  pose proof (AddBlock_bdm b mask s Hm) as Hb'.
  destruct (AddBlock_placing b mask s Hm) as (s1 & Hpl & Heq).
  rewrite Heq in *.
  destruct (AddBlock_heap b mask s s1 (list_to_set (missing_parents b mask)) Hpl)
    as (Hlen & Hold & (dn & Hn1 & Hn2 & Hn3 & _) & Hdom).
  set (n := length (heap s)) in *.
  set (s' := finish n (s1, list_to_set (missing_parents b mask))) in *.
  assert (live dn = true) as Hlive.
  { apply live_range. rewrite Hn2, ndeps_stored by apply missing_parents_length.
    pose proof (remove_dups_length_pos _ Hps).
    pose proof (length_remove_dups (missing_parents b mask)).
    pose proof (missing_parents_length b mask). lia. }
  assert (∀ x d', heap s' !! x = Some d' →
            (x = n ∧ d' = dn) ∨
            (x < n ∧ ∃ d, heap s !! x = Some d ∧ block d' = block d ∧ live d' = live d))
    as Hall.
  { intros x d' Hx. destruct (Hdom x d' Hx) as [Hlt| ->].
    - right. split; [done|].
      destruct (lookup_lt_is_Some_2 (heap s) x Hlt) as [d Hd].
      destruct (Hold x d Hd) as (d'' & G1 & G2 & G3 & _). simplify_eq.
      exists d. split; [done|]. split; [done|]. apply live_ndeps. done.
    - left. split; [done|]. congruence. }
  split.
  - done.
  - intros x y d' e' Hx Hy Hh.
    destruct (Hall x d' Hx) as [[-> ->]|(Hltx & d & Hd & Hbd & _)];
      destruct (Hall y e' Hy) as [[-> ->]|(Hlty & e & He & Hbe & _)].
    + done.
    + exfalso. apply (Hfresh y e He). congruence.
    + exfalso. apply (Hfresh x d Hd). congruence.
    + apply (Hhash x y d e Hd He). congruence.
  - intros h q. rewrite Hb'. split.
    + intros Hq. destruct (decide (h = GetHash b)) as [->|Hne].
      * rewrite lookup_insert_eq in Hq. injection Hq as <-. exists dn. rewrite Hn3. done.
      * rewrite lookup_insert_ne in Hq by done.
        apply Hbdm in Hq as (d & Hd & Hh & Hl).
        destruct (Hold q d Hd) as (d' & G1 & G2 & G3 & _).
        exists d'. rewrite G3, (live_ndeps _ _ G2). done.
    + intros (d' & Hq & Hh & Hl).
      destruct (Hall q d' Hq) as [[-> ->]|(Hltx & d & Hd & Hbd & Hld)].
      * rewrite Hn3 in Hh. subst h. apply lookup_insert_eq.
      * rewrite lookup_insert_ne.
        -- apply Hbdm. exists d. rewrite <- Hbd, <- Hld. done.
        -- intros <-. apply (Hfresh q d Hd). congruence.
  - intros x d' Hx Hl.
    destruct (Hall x d' Hx) as [[-> ->]|(Hltx & d & Hd & Hbd & Hld)]; [congruence|].
    rewrite Hbd. apply (Hdead x d Hd). congruence.
Qed.

Lemma released_by_accounted s s' acc rl bs :
  accounted s acc →
  counted (heap s') (lose_ends_ s') [] →
  released_by (heap s) (heap s') (block_dep_map_ s) (block_dep_map_ s') rl bs →
  accounted s' (acc ++ bs).
Proof.
  intros [Hsg Hhash Hbdm Hdead] Hinv' Hrb.
  pose proof (rb_blocks _ _ _ _ _ _ Hrb) as HF.
  split.
  - eapply released_by_single; done.
  - intros x y d' e' Hx Hy Hh.
    destruct (released_by_inv _ _ _ _ _ _ _ _ Hrb Hx) as (d & Hd & Hb & _).
    destruct (released_by_inv _ _ _ _ _ _ _ _ Hrb Hy) as (e & He & Hb2 & _).
    apply (Hhash x y d e Hd He). congruence.
  - intros h q. rewrite (rb_bdm _ _ _ _ _ _ Hrb). split.
    + intros [Hq Hno]. apply Hbdm in Hq as (d & Hd & Hh & Hl).
      destruct (rb_same _ _ _ _ _ _ Hrb q d Hd) as (d' & G1 & G2 & _ & G4).
      exists d'. split; [done|]. split; [congruence|].
      apply G4. split; [done|]. intros Hin. apply (Hno q d Hin Hd Hh).
    + intros (d' & Hq & Hh & Hl).
      destruct (released_by_inv _ _ _ _ _ _ _ _ Hrb Hq) as (d & Hd & Hb & _ & G4).
      destruct (proj1 G4 Hl) as [Hl' Hni]. split.
      * apply Hbdm. exists d. split; [done|]. split; [congruence|done].
      * intros x e Hx He Heq. apply Hni.
        assert (x = q) as <- by (apply (Hhash x q e d He Hd); congruence). done.
  - intros x d' Hx Hl.
    destruct (released_by_inv _ _ _ _ _ _ _ _ Hrb Hx) as (d & Hd & Hb & _ & G4).
    rewrite Hb. apply elem_of_app.
    destruct (live d) eqn:Hld.
    + right. destruct (decide (x ∈ rl)) as [Hin|Hni].
      * destruct (Forall2_rel_elem_l _ _ _ _ _ HF Hin) as (d0 & Hd0 & _ & Hbs).
        simplify_eq. done.
      * rewrite (proj2 G4) in Hl; done.
    + left. apply (Hdead x d Hd Hld).
Qed.

Lemma fresh_hash_blocks s s' b :
  block <$> heap s' = block <$> heap s → fresh_hash s b → fresh_hash s' b.
Proof.
  intros Hbl Hf x d' Hx.
  assert ((block <$> heap s) !! x = Some (block d')) as H.
  { rewrite <- Hbl, list_lookup_fmap, Hx. done. }
  rewrite list_lookup_fmap in H. destruct (heap s !! x) as [d|] eqn:Hd; [|done].
  injection H as <-. apply (Hf x d Hd).
Qed.

Lemma run_accounted fuel cs : ∀ s acc s' out,
  accounted s acc → selecting cs →
  NoDup (GetHash <$> added_blocks cs) →
  (∀ b, b ∈ added_blocks cs → fresh_hash s b) →
  run fuel cs s = Some (s', out) → accounted s' (acc ++ out).
Proof.
  induction cs as [|[b m|h] cs IH]; intros s acc s' out Hac Hsel Hnd Hfresh Hrun;
    simpl in *.
  - simplify_eq. rewrite app_nil_r. done.
  - destruct Hsel as [Hps Hsel]. destruct (N.eqb_spec m 0) as [->|Hm].
    + rewrite AddBlock_zero in Hrun. eauto.
    + destruct Hps as [?|Hps]; [done|].
      rewrite fmap_cons in Hnd. apply NoDup_cons in Hnd as [Hb Hnd].
      apply (IH (AddBlock b m s)); [|done..| |done].
      * apply AddBlock_accounted; [done..|]. apply Hfresh. left.
      * intros b' Hb'. apply AddBlock_fresh_hash; [apply Hfresh; by right|].
        intros Heq. apply Hb. rewrite Heq. apply list_elem_of_fmap. eauto.
  - destruct (SubmitHash fuel h s) as [[s1 r]|] eqn:E; [|done].
    destruct (run fuel cs s1) as [[s2 out2]|] eqn:E2; [|done]. simplify_eq.
    pose proof (sg_counted _ _ (ac_single _ _ Hac)) as Hinv.
    destruct (SubmitHash_counted (fuel + fuel_needed h s) h s Hinv)
      as (s1' & r' & H1 & Hinv1 & Hcase); [lia|].
    rewrite (SubmitHash_mono _ (fuel + fuel_needed h s) _ _ _ E) in H1 by lia.
    injection H1 as <- <-.
    rewrite app_assoc. apply (IH s1); [|done..| |done].
    + destruct Hcase as [(_ & -> & ->)|(X & rl & bs & _ & -> & _ & Hrb)].
      * simpl. rewrite app_nil_r. done.
      * simpl. eapply released_by_accounted; done.
    + intros b Hb. apply (fresh_hash_blocks s); [|auto].
      apply (SubmitHash_blocks _ _ _ _ _ E).
Qed.

Lemma accounted_size s acc : accounted s acc → Size s + length acc = length (heap s).
Proof.
  intros [[Hinv Hnd Hdead1 Hfrom Hinj] Hhash Hbdm Hdead].
  set (lives := filter (λ d, live d = true) (heap s)).
  set (deads := filter (λ d, ¬ live d = true) (heap s)).
  assert (NoDup (GetHash <$> (block <$> heap s))) as Hndh.
  { apply NoDup_alt. intros i j h Hi Hj.
    rewrite !list_lookup_fmap in Hi, Hj.
    destruct (heap s !! i) as [d|] eqn:Hd; [|done].
    destruct (heap s !! j) as [e|] eqn:He; [|done].
    simpl in Hi, Hj. apply (Hhash i j d e Hd He). congruence. }
  assert (NoDup (block <$> heap s)) as Hndb by (eapply NoDup_fmap_1; done).
  assert (length lives + length deads = length (heap s)) as Hsplit.
  { rewrite <- length_app. apply Permutation_length, filter_app_complement. }
  assert (Size s = length lives) as ->.
  { unfold Size. rewrite <- size_dom.
    assert (dom (block_dep_map_ s) = list_to_set (GetHash <$> (block <$> lives))) as ->.
    { apply set_eq. intros h. rewrite elem_of_dom, elem_of_list_to_set. split.
      - intros [q Hq]. apply Hbdm in Hq as (d & Hd & Hh & Hl).
        apply list_elem_of_fmap. exists (block d). split; [done|].
        apply list_elem_of_fmap. exists d. split; [done|].
        apply list_elem_of_filter. split; [done|]. apply list_elem_of_lookup. eauto.
      - intros Hin. apply list_elem_of_fmap in Hin as (bb & -> & Hin).
        apply list_elem_of_fmap in Hin as (d & -> & Hin).
        apply list_elem_of_filter in Hin as [Hl Hin].
        apply list_elem_of_lookup in Hin as [q Hq].
        exists q. apply Hbdm. eauto. }
    rewrite size_list_to_set, !length_fmap; [done|].
    refine (sublist_NoDup _ _ Hndh _).
    apply fmap_sublist, fmap_sublist, sublist_filter. }
  assert (acc ≡ₚ block <$> deads) as ->.
  { apply NoDup_Permutation; [done| |].
    - refine (sublist_NoDup _ _ Hndb _). apply fmap_sublist, sublist_filter.
    - intros b. split.
      + intros Hb. destruct (Hfrom b Hb) as (x & d & Hd & <-).
        apply list_elem_of_fmap. exists d. split; [done|].
        apply list_elem_of_filter. split.
        * rewrite (Hdead1 x d Hd Hb). done.
        * apply list_elem_of_lookup. eauto.
      + intros Hin. apply list_elem_of_fmap in Hin as (d & -> & Hin).
        apply list_elem_of_filter in Hin as [Hl Hin].
        apply list_elem_of_lookup in Hin as [x Hx].
        apply (Hdead x d Hx). destruct (live d); done. }
  rewrite length_fmap. done.
Qed.

(** X6.  In a sequence of calls that adds no hash twice and whose masks select
    a parent each, every block added is either still held or has been
    returned, never both: [Size] and the number of blocks returned add up to
    the number of blocks added. *)
Theorem held_until_released cs fuel :
  selecting cs → NoDup (GetHash <$> added_blocks cs) →
  3 * length (added_blocks cs) ≤ fuel →
  ∃ s out, run fuel cs empty = Some (s, out) ∧
    Size s + length out = length (added_blocks cs) ∧
    ∀ b, b ∈ added_blocks cs → (Contains (GetHash b) s = true ↔ b ∉ out).
Proof.
  intros Hsel Hnd Hfuel.
  destruct (run_within cs empty fuel counted_empty) as [[s out] Hrun]; [simpl; lia|].
  exists s, out. split; [done|].
  pose proof (run_accounted fuel cs empty [] s out accounted_empty Hsel Hnd) as Hac.
  simpl in Hac. specialize (Hac ltac:(intros b _ x d Hx; done) Hrun).
  destruct (run_blocks _ _ _ _ _ Hrun) as [Hbl _]. simpl in Hbl.
  split.
  - rewrite (accounted_size s out Hac), <- Hbl, length_fmap. done.
  - intros b Hb. rewrite <- Hbl in Hb. apply list_elem_of_fmap in Hb as (d & -> & Hd).
    apply list_elem_of_lookup in Hd as [x Hx].
    destruct Hac as [[_ _ Hdead1 _ _] Hhash Hbdm Hdead].
    unfold Contains. rewrite bool_decide_eq_true. split.
    + intros [q Hq] Hout. apply Hbdm in Hq as (e & He & Hh & Hl).
      assert (q = x) as -> by (apply (Hhash q x e d He Hx); done). simplify_eq.
      rewrite (Hdead1 x d Hx Hout) in Hl. done.
    + intros Hout. exists x. apply Hbdm. exists d. split; [done|]. split; [done|].
      destruct (live d) eqn:Hl; [done|]. exfalso. apply Hout, (Hdead x d Hx Hl).
Qed.

(** ** The order in which blocks are returned *)

(** Under the exact count the loop returns a dependency only after every
    live dependency that holds it in its [deps]. *)
Lemma release_ordered le fuel : ∀ hp bdm stack result hp' bdm' result',
  exact_loop hp le stack →
  release fuel hp bdm stack result = Some (hp', bdm', result') →
  ∃ rl bs, result' = result ++ bs ∧
    Forall2 (λ x b, ∃ d, hp !! x = Some d ∧ block d = b) rl bs ∧
    ∀ j y, rl !! j = Some y → ∀ x d, hp !! x = Some d → live d = true →
      y ∈ deps d → ∃ i, i < j ∧ rl !! i = Some x.
Proof.
  induction fuel as [|fuel IH]; intros hp bdm stack result hp' bdm' result' Hex Hrel.
  - destruct stack; [|done]. simpl in Hrel. simplify_eq.
    exists [], []. rewrite app_nil_r. split; [done|]. split; [constructor|]. done.
  - destruct stack as [|c stack].
    { simpl in Hrel. simplify_eq.
      exists [], []. rewrite app_nil_r. split; [done|]. split; [constructor|]. done. }
    simpl in Hrel. destruct (hp !! c) as [d|] eqn:Hc; [|done].
    pose proof (pop_exact hp le c stack d Hex Hc) as Hpop. cbv zeta in Hpop.
    pose proof modulus_big as HM.
    destruct (el_count _ _ _ Hex c d Hc) as [Hr He].
    assert (1 ≤ pending c hp le (c :: stack)) as Hp1.
    { unfold pending. rewrite occ_cons, decide_True by done. lia. }
    assert (((ndeps d - 1) mod ndeps_modulus)%Z = (ndeps d - 1)%Z) as Hn
      by (apply Z.mod_small; lia).
    assert (∀ x dx n, <[c := set_ndeps n d]> hp !! x = Some dx →
              ∃ d0, hp !! x = Some d0 ∧ block dx = block d0) as Hback.
    { intros x dx n Hx. apply lookup_insert_cases in Hx as [(-> & -> & _)|[_ Hx]]; eauto. }
    destruct (0 <? _)%Z eqn:Hpos.
    + destruct (IH _ _ _ _ _ _ _ Hpop Hrel) as (rl & bs & -> & HF & Hord).
      exists rl, bs. split; [done|]. split.
      * eapply Forall2_impl; [exact HF|]. intros x b0 (dx & Hx & Hb).
        destruct (Hback x dx _ Hx) as (d0 & Hd0 & Hb0). exists d0. split; [done|congruence].
      * intros j y Hj x dx Hx Hl Hy.
        destruct (decide (x = c)) as [->|Hne].
        -- rewrite Hc in Hx. injection Hx as <-.
           apply (Hord j y Hj c (set_ndeps ((ndeps d - 1) mod ndeps_modulus) d)).
           ++ apply list_lookup_insert_eq. eapply lookup_lt_Some. done.
           ++ apply live_range. simpl. apply Z.ltb_lt in Hpos. lia.
           ++ done.
        -- apply (Hord j y Hj x dx); [|done..].
           rewrite list_lookup_insert_ne by done. done.
    + destruct (IH _ _ _ _ _ _ _ Hpop Hrel) as (rl & bs & -> & HF & Hord).
      exists (c :: rl), (block d :: bs). split; [rewrite <- app_assoc; done|]. split.
      * constructor; [eauto|].
        eapply Forall2_impl; [exact HF|]. intros x b0 (dx & Hx & Hb).
        destruct (Hback x dx _ Hx) as (d0 & Hd0 & Hb0). exists d0. split; [done|congruence].
      * apply Z.ltb_ge in Hpos.
        assert (held_count c hp = 0) as Hheld.
        { unfold pending in He, Hp1. rewrite occ_cons, decide_True in He by done. lia. }
        intros [|j] y Hj x dx Hx Hl Hy.
        -- simpl in Hj. injection Hj as <-. exfalso.
           apply (proj1 (held_count_zero c hp) Hheld x dx Hx Hl Hy).
        -- simpl in Hj. destruct (decide (x = c)) as [->|Hne].
           ++ exists 0. split; [lia|done].
           ++ destruct (Hord j y Hj x dx) as (i & Hi & Hri); [|done..|].
              ** rewrite list_lookup_insert_ne by done. done.
              ** exists (S i). split; [lia|done].
Qed.

Lemma SubmitHash_ordered fuel h s s' r :
  exact s → SubmitHash fuel h s = Some (s', r) →
  ∃ rl, Forall2 (λ x b, ∃ d, heap s !! x = Some d ∧ block d = b) rl (default [] r) ∧
    ∀ j y, rl !! j = Some y → ∀ x d, heap s !! x = Some d → live d = true →
      y ∈ deps d → ∃ i, i < j ∧ rl !! i = Some x.
Proof.
  intros Hex Hsub. pose proof (exact_counted s Hex) as Hinv.
  unfold SubmitHash in Hsub. destruct (lose_ends_ s !! h) as [X|] eqn:HX.
  - destruct (release fuel _ _ _ _) as [[[hp' bdm'] res]|] eqn:Hrel; [|done].
    injection Hsub as <- <-.
    assert (exact_loop (heap s) (delete h (lose_ends_ s)) (reverse (elements X))) as Hel.
    { destruct Hex as [Hcl Hcnt _ _].
      split; [apply (counted_start _ _ h X Hinv HX)|].
      intros x d Hx. rewrite (pending_start x _ _ h X HX). eauto. }
    destruct (release_ordered _ _ _ _ _ _ _ _ _ Hel Hrel) as (rl & bs & Hbs & HF & Hord).
    simpl in Hbs. subst res. exists rl. done.
  - injection Hsub as <- <-. exists []. split; [constructor|done].
Qed.

(** X7.  In a sequence of calls that keeps the caller's contract, a block that
    is added while one of its selected parents is held is returned only after
    the block of that parent: the blocks returned list a held parent before
    its child. *)
Theorem held_parent_released_first pre b mask post :
  contract (pre ++ CallAddBlock b mask :: post) →
  NoDup (GetHash <$> added_blocks (pre ++ CallAddBlock b mask :: post)) →
  ∃ fuel0 s0 out0 s out,
    (∀ fuel, fuel0 ≤ fuel →
       run fuel pre empty = Some (s0, out0) ∧
       run fuel post (AddBlock b mask s0) = Some (s, out)) ∧
    ∀ P q d j, P ∈ missing_parents b mask →
      block_dep_map_ s0 !! P = Some q → heap s0 !! q = Some d →
      out !! j = Some b → ∃ i, i < j ∧ out !! i = Some (block d).
Proof.
  intros Hc Hnd.
  apply contract_app in Hc as [Hc1 [Hwa Hc2]].
  pose proof (well_added_mask b mask Hwa) as Hm.
  rewrite added_blocks_app in Hnd. simpl in Hnd.
  destruct (N.eqb_spec mask 0) as [?|_]; [done|].
  rewrite fmap_app, fmap_cons in Hnd.
  apply NoDup_app in Hnd as (Hnd1 & Hdis & Hnd2).
  apply NoDup_cons in Hnd2 as [Hb Hnd2].
  destruct (run_contract (λ _ _ _, True) ltac:(done) ltac:(done) pre empty [] []
              exact_empty I Hc1 Hnd1)
    as (fuel1 & s0 & out0 & Hrun1 & Hex0 & _ & Hfr0).
  { intros b' _ x d Hx. done. }
  assert (∀ b', GetHash b' ∉ GetHash <$> added_blocks pre → fresh_hash s0 b') as Hfresh0.
  { intros b' Hb'. apply Hfr0; [|done]. intros x d Hx. done. }
  assert (fresh_hash s0 b) as Hfb.
  { apply Hfresh0. intros Hin. apply (Hdis _ Hin). left. }
  pose proof (AddBlock_exact b mask s0 Hex0 Hwa Hfb) as Hex1.
  pose proof (tracked_start s0 b mask Hex0 Hwa) as Htr1.
  destruct (AddBlock_entries b mask s0 Hm (ex_closed _ Hex0))
    as (_ & Hbdm1 & Hold & (dn & Hn1 & Hn2 & _) & _).
  assert (live dn = true) as Hln.
  { destruct (ex_bdm _ Hex1 (GetHash b) (length (heap s0))) as (d1 & G1 & G2 & G3).
    - rewrite Hbdm1. apply lookup_insert_eq.
    - congruence. }
  set (first := λ out : list Block, ∀ P q d j, P ∈ missing_parents b mask →
      block_dep_map_ s0 !! P = Some q → heap s0 !! q = Some d →
      out !! j = Some b → ∃ i, i < j ∧ out !! i = Some (block d)).
  destruct (run_contract (λ done out s, tracked s0 b mask done out s ∧ first out))
    with (cs := post) (s := AddBlock b mask s0) (done := @nil call) (out := @nil Block)
    as (fuel2 & s & out & Hrun2 & Hex & [Htr Hfirst] & _).
  - intros done out s b' m' Hexs [Htr Hf] Hwa'. split; [|done].
    apply AddBlock_tracked; done.
  - intros done out s h s' r fuel Hexs [Htr Hf] Hsub. split.
    { eapply SubmitHash_tracked; done. }
    intros P q d0 j HP Hq Hd0 Hj.
    destruct (decide (j < length out)) as [Hlt|Hge].
    { rewrite lookup_app_l in Hj by done.
      destruct (Hf P q d0 j HP Hq Hd0 Hj) as (i & Hi & Hout).
      exists i. split; [done|]. rewrite lookup_app_l by lia. done. }
    rewrite lookup_app_r in Hj by lia.
    (* the parent in the state of this call *)
    destruct (ex_bdm _ Hex0 P q Hq) as (d0' & Hd0' & _ & Hl0).
    rewrite Hd0 in Hd0'. injection Hd0' as <-.
    destruct (Hold q d0 Hd0) as (d1 & G1 & G2 & G3 & _).
    destruct (tr_out _ _ _ _ _ _ Htr q d1 G1) as (dq & Hdq & Hbq & Hiffq).
    { rewrite (live_ndeps d0 d1 G2). done. }
    destruct (live dq) eqn:Hlq.
    + (* the parent is still held: it is released in this call, before b *)
      destruct (SubmitHash_ordered _ _ _ _ _ Hexs Hsub) as (rl & HF & Hord).
      destruct (Forall2_lookup_r _ _ _ _ _ HF Hj) as (y & Hy & dy & Hdy & Hby).
      destruct (tr_out _ _ _ _ _ _ Htr _ dn Hn1 Hln) as (dn' & Hdn' & Hbn & _).
      assert (y = length (heap s0)) as ->.
      { apply (ex_hash _ Hexs _ _ dy dn' Hdy Hdn'). congruence. }
      destruct (Hord _ _ Hy q dq Hdq Hlq) as (i & Hi & Hri).
      { apply (tr_deps _ _ _ _ _ _ Htr q dq Hdq). eauto. }
      destruct (Forall2_lookup_l _ _ _ _ _ HF Hri) as (bq & Hbq' & dq' & Hdq' & Hbb).
      rewrite Hdq in Hdq'. injection Hdq' as <-.
      exists (length out + i). split; [lia|].
      rewrite lookup_app_r by lia.
      replace (length out + i - length out) with i by lia. congruence.
    + (* the parent was released by an earlier call *)
      assert (block dq ∈ out) as Hin by (apply Hiffq; done).
      apply list_elem_of_lookup in Hin as [i Hi].
      exists i. split; [apply lookup_lt_Some in Hi; lia|].
      rewrite lookup_app_l by (eapply lookup_lt_Some; done). congruence.
  - done.
  - split; [done|]. intros P q d j _ _ _ Hj. done.
  - done.
  - done.
  - intros b' Hb'. apply AddBlock_fresh_hash.
    + apply Hfresh0. intros Hin. apply (Hdis _ Hin). right.
      apply list_elem_of_fmap. eauto.
    + intros Heq. apply Hb. rewrite Heq. apply list_elem_of_fmap. eauto.
  - exists (max fuel1 fuel2), s0, out0, s, out. split.
    + intros fuel Hfuel. rewrite (Hrun1 fuel), (Hrun2 fuel) by lia. done.
    + exact Hfirst.
Qed.

(** ** Lose ends and masks that select nothing *)

Lemma common_insert_inhabited dep h st :
  (∀ k X, lose_ends_ st.1 !! k = Some X → X ≠ ∅) →
  ∀ k X, lose_ends_ (common_insert dep h st).1 !! k = Some X → X ≠ ∅.
Proof.
  intros H k X. unfold common_insert.
  destruct (block_dep_map_ st.1 !! h); cbn [fst lose_ends_]; [apply H|].
  destruct (decide (k = h)) as [->|Hne].
  - rewrite lookup_insert_eq. intros [= <-]. set_solver.
  - rewrite lookup_insert_ne by done. apply H.
Qed.

Lemma AddBlock_inhabited b mask s :
  (∀ k X, lose_ends_ s !! k = Some X → X ≠ ∅) →
  ∀ k X, lose_ends_ (AddBlock b mask s) !! k = Some X → X ≠ ∅.
Proof.
  intros H. destruct (N.eq_dec mask 0) as [->|Hm]; [done|].
  rewrite (AddBlock_fold b mask s Hm). cbn [finish lose_ends_].
  assert (∀ ps st, (∀ k X, lose_ends_ st.1 !! k = Some X → X ≠ ∅) →
            ∀ k X, lose_ends_ (foldl (λ st h, common_insert (length (heap s)) h st) st ps).1
                     !! k = Some X → X ≠ ∅) as Hfold.
  { induction ps as [|p ps IH]; intros st Hst; [done|]. simpl.
    apply IH. apply common_insert_inhabited. done. }
  apply Hfold. done.
Qed.

Lemma reachable_inhabited s h X :
  reachable s → lose_ends_ s !! h = Some X → X ≠ ∅.
Proof.
  intros Hs. revert h X.
  induction Hs as [|s b m Hs IH|s fuel h0 s' r Hs IH Hsub]; intros h X.
  - simpl. rewrite lookup_empty. done.
  - apply AddBlock_inhabited. done.
  - unfold SubmitHash in Hsub. destruct (lose_ends_ s !! h0) as [X0|].
    + destruct (release _ _ _ _ _) as [[[hp bdm] res]|]; [|done].
      injection Hsub as <- _. cbn [lose_ends_].
      intros HX. apply lookup_delete_Some in HX as [_ HX]. eauto.
    + injection Hsub as <- _. apply IH.
Qed.

(** X8.  In every state the container reaches, at least one dependency waits
    under every key of [lose_ends_]. *)
Theorem lose_end_has_waiter s h X :
  reachable s → lose_ends_ s !! h = Some X → X ≠ ∅.
Proof. apply reachable_inhabited. Qed.

Lemma run_unselected b fuel cs : ∀ s s' out,
  counted (heap s) (lose_ends_ s) [] →
  (∀ x d, heap s !! x = Some d → block d = b → live d = false) →
  b ∉ added_blocks cs →
  run fuel cs s = Some (s', out) → b ∉ out.
Proof.
  induction cs as [|[b' m|h] cs IH]; intros s s' out Hinv Hdead Hb Hrun; simpl in *.
  - simplify_eq. apply not_elem_of_nil.
  - destruct (N.eqb_spec m 0) as [->|Hm].
    + rewrite AddBlock_zero in Hrun. eauto.
    + apply not_elem_of_cons in Hb as [Hne Hb].
      apply (IH (AddBlock b' m s) s'); [apply AddBlock_counted; done| |done..].
      destruct (AddBlock_placing b' m s Hm) as (s1 & Hpl & ->).
      destruct (AddBlock_heap b' m s s1 (list_to_set (missing_parents b' m)) Hpl)
        as (_ & Hold & (dn & Hn1 & _ & Hn3 & _) & Hdom).
      intros x d' Hx Hbd. destruct (Hdom x d' Hx) as [Hlt| ->].
      * destruct (lookup_lt_is_Some_2 (heap s) x Hlt) as [d Hd].
        destruct (Hold x d Hd) as (d'' & G1 & G2 & G3 & _).
        rewrite G1 in Hx. injection Hx as <-.
        rewrite (live_ndeps d d'' G2). apply (Hdead x d Hd). congruence.
      * rewrite Hn1 in Hx. injection Hx as <-. congruence.
  - destruct (SubmitHash fuel h s) as [[s1 r]|] eqn:E; [|done].
    destruct (run fuel cs s1) as [[s2 out2]|] eqn:E2; [|done]. injection Hrun as <- <-.
    destruct (SubmitHash_counted (fuel + fuel_needed h s) h s Hinv)
      as (s1' & r' & H1 & Hinv1 & Hcase); [lia|].
    rewrite (SubmitHash_mono _ (fuel + fuel_needed h s) _ _ _ E) in H1 by lia.
    injection H1 as <- <-.
    apply not_elem_of_app. split.
    + destruct Hcase as [(_ & -> & _)|(X & rl & bs & _ & -> & _ & Hrb)];
        [apply not_elem_of_nil|].
      simpl. intros Hin.
      destruct (Forall2_rel_elem _ _ _ _ _ (rb_blocks _ _ _ _ _ _ Hrb) Hin)
        as (x & d & _ & Hd & Hl & Hbd).
      rewrite (Hdead x d Hd Hbd) in Hl. done.
    + apply (IH s1 s2); [done| |done..].
      destruct Hcase as [(_ & _ & ->)|(X & rl & bs & _ & _ & _ & Hrb)]; [done|].
      intros x d' Hx Hbd.
      destruct (released_by_inv _ _ _ _ _ _ _ _ Hrb Hx) as (d & Hd & Hb' & _ & G4).
      apply not_true_is_false. intros Hl. apply G4 in Hl as [Hl _].
      rewrite (Hdead x d Hd) in Hl; [done|congruence].
Qed.

(** X9.  A mask that is not zero and yet selects none of the three parents
    stores the block with a counter of zero: the block is held, and no
    [SubmitHash] returns it, whatever calls follow. *)
Theorem unselecting_mask_never_released pre b mask post fuel s out :
  mask ≠ 0%N → missing_parents b mask = [] →
  b ∉ added_blocks pre → b ∉ added_blocks post →
  run fuel (pre ++ CallAddBlock b mask :: post) empty = Some (s, out) →
  b ∉ out.
Proof.
  intros Hm Hps Hpre Hpost Hrun.
  assert (∀ cs cs' s2 o2, run fuel (cs ++ cs') empty = Some (s2, o2) →
            ∃ s1 o1 o', run fuel cs empty = Some (s1, o1) ∧
                        run fuel cs' s1 = Some (s2, o') ∧ o2 = o1 ++ o') as Hsplit.
  { intros cs cs'. generalize empty.
    induction cs as [|[b' m|h] cs IH]; intros s0 s2 o2 H; simpl in *.
    - exists s0, [], o2. done.
    - apply IH. done.
    - destruct (SubmitHash fuel h s0) as [[s1 r]|]; [|done].
      destruct (run fuel (cs ++ cs') s1) as [[s3 o3]|] eqn:E; [|done].
      injection H as <- <-.
      destruct (IH _ _ _ E) as (s1' & o1 & o' & -> & G2 & ->).
      exists s1', (default [] r ++ o1), o'. rewrite app_assoc. done. }
  destruct (Hsplit _ _ _ _ Hrun) as (s0 & out0 & out1 & Hrun0 & Hrun1 & ->).
  apply not_elem_of_app. split.
  - intros Hin. apply Hpre. apply (proj2 (run_blocks _ _ _ _ _ Hrun0) b Hin).
  - simpl in Hrun1.
    pose proof (reachable_counted s0 (run_reachable _ _ _ _ _ reachable_empty Hrun0)) as Hinv.
    apply (run_unselected b fuel post (AddBlock b mask s0) s out1);
      [apply AddBlock_counted; done| |done..].
    destruct (AddBlock_placing b mask s0 Hm) as (s1 & Hpl & ->).
    destruct (AddBlock_heap b mask s0 s1 (list_to_set (missing_parents b mask)) Hpl)
      as (_ & Hold & (dn & Hn1 & Hn2 & Hn3 & _) & Hdom).
    intros x d' Hx Hbd. destruct (Hdom x d' Hx) as [Hlt| ->].
    + exfalso. destruct (lookup_lt_is_Some_2 (heap s0) x Hlt) as [d Hd].
      destruct (Hold x d Hd) as (d'' & G1 & _ & G3 & _).
      rewrite G1 in Hx. injection Hx as <-.
      apply Hpre. destruct (run_blocks _ _ _ _ _ Hrun0) as [Hbl _]. simpl in Hbl.
      rewrite <- Hbl. apply list_elem_of_fmap. exists d. split; [congruence|].
      apply list_elem_of_lookup. eauto.
    + rewrite Hn1 in Hx. injection Hx as <-.
      apply live_false. rewrite Hn2, Hps.
      change (list_to_set [] : gset N) with (∅ : gset N).
      rewrite size_empty. change (Z.of_nat 0) with 0%Z. rewrite Z.mod_0_l; [lia|].
      pose proof modulus_big. lia.
Qed.

(** ** An empty container waits for no hash *)

Lemma contract_selecting cs : contract cs → selecting cs.
Proof.
  induction cs as [|[b m|h] cs IH]; simpl; [done| |done].
  intros [(Hne & _) Hc]. split; [by right|auto].
Qed.

(** X10.  Under the caller's contract after the calls [cs], with no hash added
    twice, the container holds no orphan exactly when it waits for no hash:
    [IsEmpty()] holds if and only if [DependencySize()] is zero. *)
Theorem IsEmpty_iff_no_lose_end cs :
  contract cs → NoDup (GetHash <$> added_blocks cs) →
  ∃ fuel0 s out,
    (∀ fuel, fuel0 ≤ fuel → run fuel cs empty = Some (s, out)) ∧
    (IsEmpty s = true ↔ DependencySize s = 0).
Proof.
  intros Hc Hnd.
  destruct (run_contract
              (λ _ _ s, ∀ q d x, heap s !! q = Some d → x ∈ deps d → q < x))
    with (cs := cs) (s := empty) (done := @nil call) (out := @nil Block)
    as (fuel0 & s & out & Hrun & Hex & Hfwd & _).
  - intros done out s b m Hex Hfwd Hwa q d' x Hq Hx.
    pose proof (well_added_mask b m Hwa) as Hm.
    destruct (AddBlock_entries b m s Hm (ex_closed _ Hex))
      as (Hlen & Hb & Hold & (dn & Hn1 & _ & Hn3 & Hn4) & _).
    assert (q < length (heap s) ∨ q = length (heap s)) as [Hlt| ->]
      by (apply lookup_lt_Some in Hq; lia).
    + destruct (lookup_lt_is_Some_2 (heap s) q Hlt) as [d Hd].
      destruct (Hold q d Hd) as (d'' & G1 & _ & _ & G4 & _).
      rewrite G1 in Hq. injection Hq as <-.
      destruct (decide (x = length (heap s))) as [->|Hne]; [done|].
      apply (Hfwd q d x Hd). apply G4; done.
    + rewrite Hn1 in Hq. injection Hq as <-. exfalso.
      pose proof (Hn3 x Hx) as ->. apply Hn4 in Hx as (h & Hh & Hq).
      destruct Hwa as (_ & _ & Hown).
      destruct (decide (h = GetHash b)) as [->|Hne]; [done|].
      rewrite lookup_insert_ne in Hq by done.
      destruct (ex_bdm _ Hex h _ Hq) as (d0 & Hd0 & _).
      apply lookup_lt_Some in Hd0. lia.
  - intros done out s h s' r fuel Hex Hfwd Hsub q d' x Hq Hx.
    destruct (SubmitHash_counted (fuel + fuel_needed h s) h s (exact_counted s Hex))
      as (s1 & r1 & H1 & _ & Hcase); [lia|].
    rewrite (SubmitHash_mono _ (fuel + fuel_needed h s) _ _ _ Hsub) in H1 by lia.
    injection H1 as <- <-.
    destruct Hcase as [(_ & _ & ->)|(X & rl & bs & _ & _ & _ & Hrb)]; [eauto|].
    destruct (released_by_inv _ _ _ _ _ _ _ _ Hrb Hq) as (d & Hd & _ & Hdp & _).
    rewrite Hdp in Hx. eauto.
  - apply exact_empty.
  - intros q d x Hq. done.
  - done.
  - done.
  - intros b _ x d Hx. done.
  - exists fuel0, s, out. split; [done|]. simpl in Hrun.
    pose proof (run_accounted fuel0 cs empty [] s out accounted_empty
                  (contract_selecting cs Hc) Hnd) as Hac.
    simpl in Hac. specialize (Hac ltac:(intros b _ x d Hx; done) (Hrun fuel0 ltac:(lia))).
    pose proof (run_reachable _ _ _ _ _ reachable_empty (Hrun fuel0 ltac:(lia))) as Hreach.
    unfold IsEmpty, Size, DependencySize. rewrite bool_decide_eq_true.
    rewrite !map_size_empty_iff. split.
    + intros He. apply map_eq. intros h. rewrite lookup_empty.
      destruct (lose_ends_ s !! h) as [X|] eqn:HX; [|done]. exfalso.
      pose proof (reachable_inhabited s h X Hreach HX) as Hne.
      apply set_choose_L in Hne as [x Hx].
      destruct (lookup_lt_is_Some_2 (heap s) x) as [d Hd].
      { apply (closed_ends _ _ _ (ex_closed _ Hex) h X x HX Hx). }
      destruct (ex_count _ Hex x d Hd) as [Hr Hp].
      assert (ends_count x (lose_ends_ s) ≠ 0) as Hec.
      { intros Hz. apply (proj1 (ends_count_zero x (lose_ends_ s)) Hz h X HX Hx). }
      assert (live d = true) as Hl.
      { apply live_range. unfold pending in Hp. lia. }
      assert (block_dep_map_ s !! GetHash (block d) = Some x) as Hb
        by (apply (ac_bdm _ _ Hac); eauto).
      rewrite He, lookup_empty in Hb. done.
    + intros He. apply map_eq. intros h. rewrite lookup_empty.
      destruct (block_dep_map_ s !! h) as [q|] eqn:Hq; [|done]. exfalso.
      destruct (ex_bdm _ Hex h q Hq) as (d & Hd & _ & Hl).
      clear Hq. revert d Hd Hl.
      induction (lt_wf q) as [q _ IH]. intros d Hd Hl.
      destruct (ex_count _ Hex q d Hd) as [Hr Hp].
      apply live_range in Hl.
      assert (ends_count q (lose_ends_ s) = 0) as Hec.
      { apply ends_count_zero. intros h' X HX. rewrite He, lookup_empty in HX. done. }
      assert (held_count q (heap s) ≠ 0) as Hhc.
      { unfold pending in Hp. rewrite occ_nil in Hp. lia. }
      apply Hhc. apply held_count_zero. intros p dp Hdp Hlp Hin.
      apply (IH p (Hfwd p dp q Hdp Hin) dp Hdp Hlp).
Qed.

(** ** A parent named in two fields *)

Lemma exact_off_counted off hp le stack : exact_off off hp le stack → counted hp le stack.
Proof.
  intros [Hcl Hoff Hcnt]. pose proof modulus_big as HM. split; [done|..].
  - intros x d Hx. destruct (Hcnt x d Hx) as (? & ? & _). destruct (Hoff x). lia.
  - intros x d Hx. destruct (Hcnt x d Hx) as (Hr & Hr3 & He). destruct (Hoff x) as [Ho _].
    destruct (live d) eqn:Hl.
    + rewrite (debt_live d Hl). lia.
    + rewrite (debt_dead d Hl) by lia. apply live_false in Hl.
      destruct (Z.eqb_spec (ndeps d) 0); lia.
Qed.

Lemma pop_exact_off off hp le c stack d :
  exact_off off hp le (c :: stack) → hp !! c = Some d →
  let n := ((ndeps d - 1) mod ndeps_modulus)%Z in
  let hp1 := <[c := set_ndeps n d]> hp in
  if (0 <? n)%Z then exact_off off hp1 le stack
  else exact_off off hp1 le (reverse (deps d) ++ stack).
Proof.
  intros Hex Hc n hp1. pose proof modulus_big as HM.
  pose proof (pop_counted hp le c stack d (exact_off_counted _ _ _ _ Hex) Hc) as Hpop.
  destruct Hex as [Hcl Hoff Hcnt]. cbv zeta in Hpop. fold n in Hpop. fold hp1 in Hpop.
  destruct (Hcnt c d Hc) as (Hr & Hr3 & He). destruct (Hoff c) as [Ho Hoe].
  assert (1 + ends_count c le ≤ pending c hp le (c :: stack)) as Hp1.
  { unfold pending. rewrite occ_cons, decide_True by done. lia. }
  assert (n = (ndeps d - 1)%Z) as Hn by (apply Z.mod_small; lia).
  assert (live d = true) as Hlive by (apply live_range; lia).
  assert (∀ x, held_count x hp1 + held x d = held_count x hp + held x (set_ndeps n d)) as Hheld
    by (intros x; apply held_count_insert; done).
  assert (∀ x dx, hp1 !! x = Some dx →
            (x = c ∧ dx = set_ndeps n d) ∨ (x ≠ c ∧ hp !! x = Some dx)) as Hlk.
  { intros x dx Hx. apply lookup_insert_cases in Hx as [(? & ? & _)|?]; [left|right]; done. }
  destruct (0 <? n)%Z eqn:Hpos.
  - destruct Hpop as (Hinv1 & _ & Hl1). split; [apply Hinv1|done|].
    intros x dx Hx.
    assert (pending x hp1 le stack + (if decide (x = c) then 1 else 0)
            = pending x hp le (c :: stack)) as Heq.
    { specialize (Hheld x). unfold held in Hheld. rewrite Hl1, Hlive in Hheld. simpl in Hheld.
      unfold pending. rewrite occ_cons. lia. }
    apply Hlk in Hx as [[-> ->]|[Hne Hx]].
    + rewrite decide_True in Heq by done. simpl. apply Z.ltb_lt in Hpos. lia.
    + rewrite decide_False in Heq by done. destruct (Hcnt x dx Hx) as (? & ? & ?). lia.
  - destruct Hpop as (_ & Hl1 & Hinv1 & _). split; [apply Hinv1|done|].
    intros x dx Hx.
    assert (pending x hp1 le (reverse (deps d) ++ stack) + (if decide (x = c) then 1 else 0)
            = pending x hp le (c :: stack)) as Heq.
    { specialize (Hheld x). unfold held in Hheld. rewrite Hl1, Hlive in Hheld. simpl in Hheld.
      unfold pending. rewrite occ_cons, occ_app, occ_reverse. lia. }
    apply Hlk in Hx as [[-> ->]|[Hne Hx]].
    + rewrite decide_True in Heq by done. simpl. apply Z.ltb_ge in Hpos. lia.
    + rewrite decide_False in Heq by done. destruct (Hcnt x dx Hx) as (? & ? & ?). lia.
Qed.

Lemma release_exact_off off le fuel : ∀ hp bdm stack result hp' bdm' result',
  exact_off off hp le stack →
  release fuel hp bdm stack result = Some (hp', bdm', result') →
  exact_off off hp' le [].
Proof.
  induction fuel as [|fuel IH]; intros hp bdm stack result hp' bdm' result' Hex Hrel.
  - destruct stack; [|done]. simpl in Hrel. simplify_eq. done.
  - destruct stack as [|c stack]; [simpl in Hrel; simplify_eq; done|].
    simpl in Hrel. destruct (hp !! c) as [d|] eqn:Hc; [|done].
    pose proof (pop_exact_off off hp le c stack d Hex Hc) as Hpop. simpl in Hpop.
    destruct (0 <? _)%Z; eapply IH; done.
Qed.

(** Every lookup of [AddBlock] adds one place as long as the selected parents
    that are not in the container are pairwise distinct. *)
Lemma placing_fold_total dep s0 ps : ∀ st done,
  placing dep s0 st.1 done →
  NoDup (filter (λ h, block_dep_map_ s0 !! h = None) (done ++ ps)) →
  (∀ h X, lose_ends_ s0 !! h = Some X → dep ∉ X) →
  (∀ h q, block_dep_map_ s0 !! h = Some q → q < length (heap s0)) →
  any_count dep (heap (foldl (λ st h, common_insert dep h st) st ps).1)
    + ends_count dep (lose_ends_ (foldl (λ st h, common_insert dep h st) st ps).1)
  = any_count dep (heap st.1) + ends_count dep (lose_ends_ st.1) + length ps.
Proof.
  induction ps as [|h ps IH]; intros [s1 U] done Hpl Hnd Hfresh Hbdm.
  - simpl. lia.
  - simpl foldl. cbn [fst] in *.
    rewrite (IH (common_insert dep h (s1, U)) (done ++ [h])).
    + rewrite common_insert_total; [simpl; lia| |].
      * destruct (lose_ends_ s1 !! h) as [X|] eqn:E; simpl; [|set_solver].
        intros Hin.
        destruct (pl_ends _ _ _ _ Hpl h X dep E Hin) as [(X0 & G1 & G2)|(_ & G & Hno)].
        -- eapply Hfresh; done.
        -- rewrite filter_app, filter_cons_True in Hnd by done.
           apply NoDup_app in Hnd as (_ & Hdis & _). apply (Hdis h); [|left].
           apply list_elem_of_filter. done.
      * intros q Hq. rewrite (pl_bdm _ _ _ _ Hpl) in Hq. rewrite (pl_length _ _ _ _ Hpl). eauto.
    + apply placing_step. done.
    + rewrite <- app_assoc. done.
    + done.
    + done.
Qed.

Lemma AddBlock_placing_total b mask s :
  mask ≠ 0%N → closed (heap s) (lose_ends_ s) [] →
  NoDup (filter (λ h, block_dep_map_ (alloc b s) !! h = None) (missing_parents b mask)) →
  (∀ h q, block_dep_map_ s !! h = Some q → q < length (heap s)) →
  ∃ s1, placing (length (heap s)) (alloc b s) s1 (missing_parents b mask) ∧
        AddBlock b mask s =
          finish (length (heap s)) (s1, list_to_set (missing_parents b mask)) ∧
        any_count (length (heap s)) (heap s1)
          + ends_count (length (heap s)) (lose_ends_ s1)
        = length (missing_parents b mask).
Proof.
  intros Hm Hcl Hnd Hbdm. rewrite (AddBlock_fold b mask s Hm).
  destruct (placing_fold (length (heap s)) (alloc b s) (missing_parents b mask)
              (alloc b s, ∅) []) as [Hpl HU].
  { apply placing_refl. }
  pose proof (placing_fold_total (length (heap s)) (alloc b s) (missing_parents b mask)
                (alloc b s, ∅) [] (placing_refl _ _) Hnd) as Htot.
  simpl in Hpl, HU. cbn [fst] in Htot.
  eexists. split; [exact Hpl|]. split.
  - unfold finish. rewrite HU. cbn [fst snd]. rewrite (left_id_L ∅ (∪)). done.
  - rewrite Htot.
    + rewrite any_count_alloc. cbn [alloc lose_ends_].
      rewrite (fresh_any_count _ _ _ _ Hcl), (fresh_ends_count _ _ _ _ Hcl) by done. done.
    + intros h X HX Hin. simpl in HX.
      pose proof (closed_ends _ _ _ Hcl h X _ HX Hin). lia.
    + intros h q Hq. rewrite length_alloc. simpl in Hq.
      apply lookup_insert_Some in Hq as [[_ <-]|[_ Hq]]; [lia|].
      specialize (Hbdm h q Hq). lia.
Qed.

Lemma ends_count_one x h0 X0 (le : gmap N (gset nat)) :
  le !! h0 = Some X0 → x ∈ X0 →
  (∀ h X, le !! h = Some X → x ∈ X → h = h0) →
  ends_count x le = 1.
Proof.
  intros H0 Hx Hu. rewrite (ends_count_delete x h0 X0 le H0), decide_True by done.
  assert (ends_count x (delete h0 le) = 0) as ->; [|done].
  apply ends_count_zero. intros h X Hh Hin. apply lookup_delete_Some in Hh as [Hne Hh].
  apply Hne. symmetry. eauto.
Qed.

Lemma held_count_any x (hp : list obc_dep) :
  (∀ i d, hp !! i = Some d → x ∈ deps d → live d = true) →
  held_count x hp = any_count x hp.
Proof.
  intros H. apply sum_list_ext. intros i d Hd. unfold held.
  destruct (live d) eqn:Hl; [done|]. symmetry. apply occ_zero. intros Hin.
  rewrite (H i d Hd Hin) in Hl. done.
Qed.

(** [AddBlock] of a block that names the held parent [P] in two selected
    fields and the absent parent [Q] in the third: the new dependency is
    entered twice in the [deps] of [P] and once under [Q], and its counter
    is 2. *)
Lemma AddBlock_twin b mask s P Q q :
  exact s → fresh_hash s b →
  missing_parents b mask ≡ₚ [P; P; Q] → P ≠ Q → Q ≠ GetHash b →
  block_dep_map_ s !! P = Some q → block_dep_map_ s !! Q = None →
  let s' := AddBlock b mask s in
  let n := length (heap s) in
  exact_off (λ x, if decide (x = n) then 1%Z else 0%Z) (heap s') (lose_ends_ s') [] ∧
  (∃ dn, heap s' !! n = Some dn ∧ block dn = b ∧ live dn = true) ∧
  (∀ x d, heap s' !! x = Some d → n ∈ deps d → x = q) ∧
  ends_count n (lose_ends_ s') = 1 ∧
  (∀ h X, lose_ends_ s' !! h = Some X → n ∈ X → h = Q) ∧
  is_Some (lose_ends_ s' !! Q) ∧
  (∀ x d, heap s !! x = Some d → ∃ d', heap s' !! x = Some d' ∧ block d' = block d) ∧
  (∀ x y d e, heap s' !! x = Some d → heap s' !! y = Some e →
     GetHash (block d) = GetHash (block e) → x = y).
Proof.
  intros Hex Hfb Hperm HPQ HQb HP HQ s' n.
  set (ps := missing_parents b mask) in *.
  assert (length ps = 3) as Hps3 by (rewrite Hperm; done).
  assert (∀ h, h ∈ ps ↔ h = P ∨ h = Q) as Hps by (intros h; rewrite Hperm; set_solver).
  assert (mask ≠ 0%N) as Hm.
  { intros ->. unfold ps, missing_parents in Hps3. rewrite !N.land_0_l in Hps3. done. }
  pose proof (AddBlock_counted b mask s (exact_counted s Hex)) as Hinv'.
  destruct Hex as [Hcl Hcnt Hbdm Hhash].
  assert (∀ h q, block_dep_map_ s !! h = Some q → q < length (heap s)) as Hlt.
  { intros h x Hq. destruct (Hbdm h x Hq) as (d & Hd & _). eapply lookup_lt_Some. done. }
  assert (P ≠ GetHash b) as HPb.
  { intros ->. destruct (Hbdm _ _ HP) as (d & Hd & Hh & _). apply (Hfb q d Hd). done. }
  assert (∀ h x, h ∈ ps → <[GetHash b := n]> (block_dep_map_ s) !! h = Some x →
            h = P ∧ x = q) as Hlook.
  { intros h x Hh Hx. apply Hps in Hh as [->| ->].
    - rewrite lookup_insert_ne, HP in Hx by done. split; congruence.
    - rewrite lookup_insert_ne, HQ in Hx by done. done. }
  assert (∀ h, h ∈ ps → <[GetHash b := n]> (block_dep_map_ s) !! h = None → h = Q) as Hnone.
  { intros h Hh Hx. apply Hps in Hh as [->| ->]; [|done].
    rewrite lookup_insert_ne, HP in Hx by done. done. }
  destruct (AddBlock_placing_total b mask s Hm Hcl) as (s1 & Hpl & Heq & Htot); [|done|].
  { fold ps. rewrite Hperm. cbn [alloc block_dep_map_].
    do 2 rewrite filter_cons_False by (rewrite lookup_insert_ne, HP by done; done).
    rewrite filter_cons_True by (rewrite lookup_insert_ne by done; done).
    apply NoDup_singleton. }
  fold ps n in Hpl, Heq, Htot. unfold s'. rewrite Heq. clear s'.
  set (U := list_to_set ps : gset N) in *.
  destruct (AddBlock_heap b mask s s1 U Hpl) as (Hlen & Hold & (dn & Hn1 & Hn2 & Hn3 & Hn4) & Hdom).
  fold n ps in Hlen, Hold, Hn1, Hn4, Hdom. rewrite Heq in Hinv'.
  set (s' := finish n (s1, U)) in *.
  pose proof modulus_big as HM.
  assert (ndeps dn = 2%Z) as Hndn.
  { rewrite Hn2. assert (U = {[P; Q]}) as ->.
    { apply set_eq. intros h. unfold U. rewrite elem_of_list_to_set, Hps. set_solver. }
    rewrite size_union, !size_singleton by set_solver. apply Z.mod_small. lia. }
  assert (lose_ends_ s' = lose_ends_ s1) as Hle by done.
  assert (∀ x d, heap s' !! x = Some d → n ∈ deps d → x = q ∧ live d = true) as Hhold.
  { intros x d Hd Hin. destruct (Hdom x d Hd) as [Hltx| ->].
    - destruct (lookup_lt_is_Some_2 (heap s) x Hltx) as [d0 Hd0].
      destruct (Hold x d0 Hd0) as (d'' & G1 & G2 & _ & _ & G5 & _).
      rewrite G1 in Hd. injection Hd as <-.
      destruct (G5 n Hin) as [Hin0|(_ & h & Hh & Hq)].
      + pose proof (closed_deps _ _ _ Hcl x d0 n Hd0 Hin0). lia.
      + destruct (Hlook h x Hh Hq) as [-> ->]. split; [done|].
        destruct (Hbdm P q HP) as (e & He & _ & Hle').
        rewrite He in Hd0. injection Hd0 as <-.
        rewrite (live_ndeps e d'' G2). done.
    - rewrite Hn1 in Hd. injection Hd as <-.
      destruct (Hn4 n Hin) as (_ & h & Hh & Hq).
      destruct (Hlook h n Hh Hq) as [-> Hnq]. specialize (Hlt P q HP).
      unfold n in Hnq. lia. }
  assert (∀ h X, lose_ends_ s' !! h = Some X → n ∈ X → h = Q) as Hu.
  { intros h X HX Hin. rewrite Hle in HX.
    destruct (pl_ends _ _ _ _ Hpl h X n HX Hin) as [(X0 & G1 & G2)|(_ & G & Hno)].
    - simpl in G1. pose proof (closed_ends _ _ _ Hcl h X0 n G1 G2). lia.
    - apply Hnone; done. }
  assert (∃ X, lose_ends_ s' !! Q = Some X ∧ n ∈ X) as (XQ & HXQ & HnQ).
  { pose proof (pl_placed _ _ _ _ Hpl Q) as Hp. cbn [alloc block_dep_map_] in Hp.
    rewrite lookup_insert_ne, HQ in Hp by done. rewrite Hle. apply Hp. apply Hps. by right. }
  assert (ends_count n (lose_ends_ s') = 1) as Hec by (eapply ends_count_one; done).
  assert (any_count n (heap s') = any_count n (heap s1)) as Hany.
  { unfold s', finish. cbn [heap fst snd]. rewrite any_count_set_ndeps. done. }
  split; [|split; [|split; [|split; [|split; [|split; [|split]]]]]].
  - split.
    + apply Hinv'.
    + intros x. case_decide as Hx; [|lia]. subst x. lia.
    + intros x d' Hx. destruct (Hdom x d' Hx) as [Hltx| ->].
      * destruct (lookup_lt_is_Some_2 (heap s) x Hltx) as [d Hd].
        destruct (Hold x d Hd) as (d'' & G1 & G2 & _).
        rewrite G1 in Hx. injection Hx as <-.
        pose proof (AddBlock_pending_old b mask s s1 U x Hcl Hpl Hltx) as Hp.
        fold n in Hp. fold s' in Hp. rewrite Hle, Hp, G2.
        rewrite decide_False by lia. destruct (Hcnt x d Hd). lia.
      * rewrite Hn1 in Hx. injection Hx as <-. rewrite decide_True by done.
        unfold pending. rewrite occ_nil, (held_count_any n (heap s')), Hany.
        -- rewrite Hle in Hec |- *. lia.
        -- intros i d Hd Hin. apply (Hhold i d Hd Hin).
  - exists dn. split; [done|]. split; [done|]. apply live_range. lia.
  - intros x d Hd Hin. apply (Hhold x d Hd Hin).
  - done.
  - done.
  - eauto.
  - intros x d Hd. destruct (Hold x d Hd) as (d' & G1 & _ & G3 & _). eauto.
  - assert (∀ x d', heap s' !! x = Some d' →
              (x = n ∧ block d' = b) ∨
              (x < n ∧ ∃ d, heap s !! x = Some d ∧ block d' = block d)) as Hall.
    { intros x d' Hx. destruct (Hdom x d' Hx) as [Hltx| ->].
      - right. split; [done|].
        destruct (lookup_lt_is_Some_2 (heap s) x Hltx) as [d Hd].
        destruct (Hold x d Hd) as (d'' & G1 & _ & G3 & _).
        rewrite G1 in Hx. injection Hx as <-. eauto.
      - left. split; [done|]. rewrite Hn1 in Hx. injection Hx as <-. done. }
    intros x y d' e' Hx Hy Hbe.
    destruct (Hall x d' Hx) as [[-> Hb]|(Hltx & d & Hd & Hb)];
      destruct (Hall y e' Hy) as [[-> Hb2]|(Hlty & e & He & Hb2)].
    + done.
    + exfalso. apply (Hfb y e He). congruence.
    + exfalso. apply (Hfb x d Hd). congruence.
    + apply (Hhash x y d e Hd He). congruence.
Qed.

(** X28. A block that names one parent [P] in two of its selected parent
    fields is entered twice in the [deps] of [P], while its counter counts
    [P] once.  So when [P] is held by the container and the third selected
    parent [Q] is missing, the call of [SubmitHash] that releases the block of
    [P] releases the new block with it, although [Q] was not submitted and is
    still a lose end afterwards. *)
Theorem twin_parent_released_with_parent pre b mask P Q h fuel0 s0 out0 q d fuel s' r :
  contract pre → NoDup (GetHash <$> added_blocks pre) →
  GetHash b ∉ GetHash <$> added_blocks pre →
  missing_parents b mask ≡ₚ [P; P; Q] → P ≠ Q → Q ≠ GetHash b → h ≠ Q →
  run fuel0 pre empty = Some (s0, out0) →
  block_dep_map_ s0 !! P = Some q → heap s0 !! q = Some d →
  block_dep_map_ s0 !! Q = None →
  SubmitHash fuel h (AddBlock b mask s0) = Some (s', r) →
  block d ∈ default [] r →
  b ∈ default [] r ∧ is_Some (lose_ends_ s' !! Q).
Proof.
  intros Hc Hnd Hb Hperm HPQ HQb HhQ Hrun HP Hd HQ Hsub Hin.
  destruct (run_contract (λ _ _ _, True) ltac:(done) ltac:(done) pre empty [] []
              exact_empty I Hc Hnd)
    as (fuel1 & s0' & out0' & Hrun1 & Hex0 & _ & Hfr0).
  { intros b' _ x d' Hx. done. }
  pose proof (Hrun1 (fuel0 + fuel1) ltac:(lia)) as Hr1.
  rewrite (run_mono _ (fuel0 + fuel1) _ _ _ Hrun) in Hr1 by lia.
  injection Hr1 as <- <-.
  assert (fresh_hash s0 b) as Hfb.
  { apply Hfr0; [|done]. intros x d' Hx. done. }
  destruct (AddBlock_twin b mask s0 P Q q Hex0 Hfb Hperm HPQ HQb HP HQ)
    as (Hoff & (dn & Hn & Hbn & Hln) & Hhold & Hec & Hu & HQs & Hold & Hinj).
  set (s1 := AddBlock b mask s0) in *. set (n := length (heap s0)) in *.
  set (off := λ x : nat, if decide (x = n) then 1%Z else 0%Z) in *.
  pose proof (exact_off_counted _ _ _ _ Hoff) as Hinv.
  destruct (SubmitHash_counted (fuel + fuel_needed h s1) h s1 Hinv)
    as (s2 & r2 & H1 & Hinv' & Hcase); [lia|].
  rewrite (SubmitHash_mono _ (fuel + fuel_needed h s1) _ _ _ Hsub) in H1 by lia.
  injection H1 as <- <-.
  destruct Hcase as [(_ & -> & _)|(X & rl & bs & HX & -> & Hle & Hrb)].
  { simpl in Hin. inversion Hin. }
  simpl in Hin |- *.
  assert (n ∉ X) as HnX.
  { intros HnX. apply HhQ. eapply Hu; done. }
  assert (ends_count n (delete h (lose_ends_ s1)) = 1) as Hec'.
  { pose proof (ends_count_delete n h X _ HX) as E.
    rewrite decide_False in E by done. lia. }
  assert (exact_off off (heap s') (lose_ends_ s') []) as [_ _ Hcnt'].
  { rewrite Hle. unfold SubmitHash in Hsub. rewrite HX in Hsub.
    destruct (release fuel _ _ _ _) as [[[hp' bdm'] res]|] eqn:Hrel; [|done].
    assert (heap s' = hp') as -> by (injection Hsub as <- _; done).
    eapply (release_exact_off _ _ fuel); [|exact Hrel].
    destruct Hoff as [Hcl Ho Hcn].
    split; [apply (counted_start _ _ h X Hinv HX)| |].
    - intros x. destruct (Ho x) as [G1 G2]. split; [done|].
      unfold off in *. case_decide as Hx; [|lia]. subst x. lia.
    - intros x dx Hx. rewrite (pending_start x _ _ h X HX). apply Hcn; done. }
  destruct (Forall2_rel_elem _ _ _ _ _ (rb_blocks _ _ _ _ _ _ Hrb) Hin)
    as (x & dx & Hxrl & Hx & Hlx & Hbx).
  destruct (Hold q d Hd) as (dq & Hq & Hbq).
  assert (x = q) as -> by (apply (Hinj x q dx dq Hx Hq); congruence).
  destruct (rb_same _ _ _ _ _ _ Hrb q dq Hq) as (dq2 & Gq1 & _ & _ & Gq4).
  assert (live dq2 = false) as Hdead.
  { destruct (live dq2) eqn:E; [|done]. destruct (proj1 Gq4 eq_refl) as [_ Hno]. done. }
  destruct (rb_same _ _ _ _ _ _ Hrb n dn Hn) as (dn2 & Gn1 & _ & _ & Gn4).
  destruct (Hcnt' n dn2 Gn1) as (Hr0 & _ & He).
  unfold off in He. rewrite decide_True in He by done.
  assert (held_count n (heap s') = 0) as Hh0.
  { apply held_count_zero. intros p dp Hp Hlp Hinp.
    destruct (released_by_inv _ _ _ _ _ _ _ _ Hrb Hp) as (dp0 & Hp0 & _ & Hdeps & _).
    rewrite Hdeps in Hinp. pose proof (Hhold p dp0 Hp0 Hinp) as ->.
    rewrite Gq1 in Hp. injection Hp as <-. congruence. }
  unfold pending in He. rewrite occ_nil, Hh0, Hle, Hec' in He.
  assert (live dn2 = false) as Hdn by (apply live_false; lia).
  assert (n ∈ rl) as Hnrl.
  { destruct (decide (n ∈ rl)) as [|Hno]; [done|].
    rewrite (proj2 Gn4) in Hdn; [done|]. split; done. }
  destruct (Forall2_rel_elem_l _ _ _ _ _ (rb_blocks _ _ _ _ _ _ Hrb) Hnrl)
    as (e & He1 & _ & He2).
  rewrite Hn in He1. injection He1 as <-. rewrite Hbn in He2.
  split; [done|]. rewrite Hle, lookup_delete_ne by done. done.
Qed.

End Container.

(** ** The container at work

    The lemmas below run the container with the mask bits 1, 2 and 4 for
    the milestone, tip and previous parent, and an eight-bit [ndeps]. *)

Lemma SubmitHash_no_lose_end_witness :
  lose_ends_ (AddBlock 1 2 4 8 sample_B 4 empty) !! 7%N = None ∧
  SubmitHash 8 0 7 (AddBlock 1 2 4 8 sample_B 4 empty)
    = Some (AddBlock 1 2 4 8 sample_B 4 empty, None).
Proof.
  split; [vm_compute; reflexivity|].
  apply SubmitHash_no_lose_end. vm_compute. reflexivity.
Defined.

Lemma AddBlock_ndeps_distinct_witness :
  (8 ≤ 8)%Z ∧ 7%N ≠ 0%N ∧
  ∃ dep,
    block_dep_map_ (AddBlock 1 2 4 8 sample_twin 7 (AddBlock 1 2 4 8 sample_B 4 empty))
      !! GetHash sample_twin = Some 1 ∧
    heap (AddBlock 1 2 4 8 sample_twin 7 (AddBlock 1 2 4 8 sample_B 4 empty)) !! 1
      = Some dep ∧
    block dep = sample_twin ∧
    ndeps dep = Z.of_nat (length (remove_dups (missing_parents 1 2 4 sample_twin 7))).
Proof.
  split; [lia|]. split; [discriminate|].
  apply (AddBlock_ndeps_distinct 1 2 4 8); [lia|discriminate].
Defined.

Example AddBlock_twin_parents :
  ndeps <$> heap (AddBlock 1 2 4 8 sample_twin 7 (AddBlock 1 2 4 8 sample_B 4 empty)) !! 1
  = Some 2%Z.
Proof. vm_compute. reflexivity. Qed.

Lemma Contains_held_orphan_witness :
  reachable 1 2 4 8 (AddBlock 1 2 4 8 sample_B 4 empty) ∧
  (Contains 10 (AddBlock 1 2 4 8 sample_B 4 empty) = true ↔
     ∃ p d, block_dep_map_ (AddBlock 1 2 4 8 sample_B 4 empty) !! 10%N = Some p ∧
            heap (AddBlock 1 2 4 8 sample_B 4 empty) !! p = Some d ∧
            GetHash (block d) = 10%N) ∧
  (is_Some (lose_ends_ (AddBlock 1 2 4 8 sample_B 4 empty) !! 10%N) →
   block_dep_map_ (AddBlock 1 2 4 8 sample_B 4 empty) !! 10%N = None →
   Contains 10 (AddBlock 1 2 4 8 sample_B 4 empty) = false).
Proof.
  assert (reachable 1 2 4 8 (AddBlock 1 2 4 8 sample_B 4 empty)) as Hs
    by (apply reachable_AddBlock, reachable_empty).
  split; [exact Hs|].
  apply (Contains_held_orphan 1 2 4 8); [lia|exact Hs].
Defined.

Example Contains_lose_end :
  is_Some (lose_ends_ (AddBlock 1 2 4 8 sample_B 4 empty) !! 10%N) ∧
  Contains 10 (AddBlock 1 2 4 8 sample_B 4 empty) = false ∧
  Contains 11 (AddBlock 1 2 4 8 sample_B 4 empty) = true.
Proof. split; [vm_compute; eauto|]. split; vm_compute; reflexivity. Qed.

(** C2, as stated, fails: after [AddBlock(C)] (waiting for the hash of B) and
    [AddBlock(B)], the hash of B is a key of both maps; and in the empty
    container a hash is a key of neither. *)
Lemma lose_ends_iff_fails :
  reachable 1 2 4 8 (AddBlock 1 2 4 8 sample_B 4 (AddBlock 1 2 4 8 sample_C 4 empty)) ∧
  is_Some (lose_ends_ (AddBlock 1 2 4 8 sample_B 4 (AddBlock 1 2 4 8 sample_C 4 empty))
             !! GetHash sample_B) ∧
  is_Some (block_dep_map_ (AddBlock 1 2 4 8 sample_B 4 (AddBlock 1 2 4 8 sample_C 4 empty))
             !! GetHash sample_B) ∧
  reachable 1 2 4 8 empty ∧
  lose_ends_ empty !! GetHash sample_B = None ∧
  block_dep_map_ empty !! GetHash sample_B = None.
Proof.
  split; [do 2 apply reachable_AddBlock; apply reachable_empty|].
  split; [vm_compute; eauto|]. split; [vm_compute; eauto|].
  split; [apply reachable_empty|]. split; reflexivity.
Qed.

Lemma lose_end_waiters_added_before_witness :
  reachable 1 2 4 8 (AddBlock 1 2 4 8 sample_B 4 (AddBlock 1 2 4 8 sample_C 4 empty)) ∧
  block_dep_map_ (AddBlock 1 2 4 8 sample_B 4 (AddBlock 1 2 4 8 sample_C 4 empty))
    !! 11%N = Some 1 ∧
  lose_ends_ (AddBlock 1 2 4 8 sample_B 4 (AddBlock 1 2 4 8 sample_C 4 empty))
    !! 11%N = Some {[0]} ∧
  0 ∈ ({[0]} : gset nat) ∧
  0 < 1.
Proof.
  assert (reachable 1 2 4 8 (AddBlock 1 2 4 8 sample_B 4 (AddBlock 1 2 4 8 sample_C 4 empty)))
    as Hs by (do 2 apply reachable_AddBlock; apply reachable_empty).
  assert (block_dep_map_ (AddBlock 1 2 4 8 sample_B 4 (AddBlock 1 2 4 8 sample_C 4 empty))
            !! 11%N = Some 1) as Hp by (vm_compute; reflexivity).
  assert (lose_ends_ (AddBlock 1 2 4 8 sample_B 4 (AddBlock 1 2 4 8 sample_C 4 empty))
            !! 11%N = Some {[0]}) as HX by (vm_compute; reflexivity).
  assert (0 ∈ ({[0]} : gset nat)) as Hx by (apply elem_of_singleton; reflexivity).
  split; [exact Hs|]. split; [exact Hp|]. split; [exact HX|]. split; [exact Hx|].
  apply (proj1 (lose_end_waiters_added_before 1 2 4 8 ltac:(lia) _ Hs) 11%N 1 {[0]} 0 Hp HX Hx).
Defined.

(** C3, as stated, fails: a block added twice while it is still an orphan is
    released twice by one [SubmitHash]. *)
Lemma replaced_block_released_again :
  snd <$> run 1 2 4 8 2 [CallAddBlock sample_B 4; CallAddBlock sample_B 4; CallSubmitHash 10]
            empty
  = Some [sample_B; sample_B] ∧
  ¬ NoDup [sample_B; sample_B].
Proof.
  split; [vm_compute; reflexivity|].
  intros H. apply NoDup_cons in H as [H _]. apply H. left.
Qed.

Lemma no_block_released_twice_witness :
  (8 ≤ 8)%Z ∧
  NoDup (added_blocks [CallAddBlock sample_B 4; CallAddBlock sample_C 4; CallSubmitHash 10]) ∧
  ∃ fuel0 s out, ∀ fuel, fuel0 ≤ fuel →
    run 1 2 4 8 fuel [CallAddBlock sample_B 4; CallAddBlock sample_C 4; CallSubmitHash 10] empty
      = Some (s, out) ∧ NoDup out.
Proof.
  assert (NoDup (added_blocks
            [CallAddBlock sample_B 4; CallAddBlock sample_C 4; CallSubmitHash 10])) as Hnd.
  { simpl. apply NoDup_cons. split; [|apply NoDup_singleton].
    intros H. apply list_elem_of_singleton in H. discriminate. }
  split; [lia|]. split; [exact Hnd|].
  apply (no_block_released_twice 1 2 4 8); [lia|exact Hnd].
Defined.

(** C1, as stated, fails: C waits for the hash of B and is added before B;
    [SubmitHash] of B's missing parent releases B alone, so the hash of B has
    been supplied by the release of B and C is in no result. *)
Lemma cascade_misses_earlier_waiter :
  missing_parents 1 2 4 sample_C 4 = [GetHash sample_B] ∧
  snd <$> run 1 2 4 8 3
            [CallAddBlock sample_C 4; CallAddBlock sample_B 4; CallSubmitHash 10] empty
  = Some [sample_B] ∧
  sample_C ∉ [sample_B].
Proof.
  split; [reflexivity|]. split; [vm_compute; reflexivity|].
  intros H. apply list_elem_of_singleton in H. discriminate.
Qed.

(** Scenario E in the order that cascades: B is added before C. *)
Example orphan_cascade :
  snd <$> run 1 2 4 8 3
            [CallAddBlock sample_B 4; CallAddBlock sample_C 4; CallSubmitHash 10] empty
  = Some [sample_B; sample_C].
Proof. vm_compute. reflexivity. Qed.

(** In the other order C is released by [SubmitHash] of the hash of B. *)
Example orphan_released_by_second_submit :
  snd <$> run 1 2 4 8 3
            [CallAddBlock sample_C 4; CallAddBlock sample_B 4;
             CallSubmitHash 10; CallSubmitHash 11] empty
  = Some [sample_B; sample_C].
Proof. vm_compute. reflexivity. Qed.

(** Outside the contract: the twin names the hash of B in two parent fields,
    so it is entered twice in the [deps] of B while its [ndeps] is 2; the
    release of B releases it although the hash 77 was never submitted. *)
Example twin_parent_released_early :
  snd <$> run 1 2 4 8 4
            [CallAddBlock sample_B 4; CallAddBlock sample_twin 7; CallSubmitHash 10] empty
  = Some [sample_B; sample_twin].
Proof. vm_compute. reflexivity. Qed.

Lemma released_iff_parents_supplied_witness :
  (8 ≤ 8)%Z ∧
  contract 1 2 4 ([CallAddBlock sample_B 4] ++ CallAddBlock sample_C 4 :: [CallSubmitHash 10]) ∧
  NoDup (GetHash <$> added_blocks
           ([CallAddBlock sample_B 4] ++ CallAddBlock sample_C 4 :: [CallSubmitHash 10])) ∧
  ∃ fuel0 s0 out0 s out,
    (∀ fuel, fuel0 ≤ fuel →
       run 1 2 4 8 fuel [CallAddBlock sample_B 4] empty = Some (s0, out0) ∧
       run 1 2 4 8 fuel [CallSubmitHash 10] (AddBlock 1 2 4 8 sample_C 4 s0) = Some (s, out)) ∧
    (sample_C ∈ out ↔
       ∀ P, P ∈ missing_parents 1 2 4 sample_C 4 →
         match block_dep_map_ s0 !! P with
         | None => CallSubmitHash P ∈ [CallSubmitHash 10]
         | Some q => ∃ d, heap s0 !! q = Some d ∧ block d ∈ out
         end).
Proof.
  assert (contract 1 2 4
            ([CallAddBlock sample_B 4] ++ CallAddBlock sample_C 4 :: [CallSubmitHash 10]))
    as Hc.
  { simpl. unfold well_added. change (missing_parents 1 2 4 sample_B 4) with [10%N].
    change (missing_parents 1 2 4 sample_C 4) with [11%N]. simpl.
    repeat split; try discriminate; try apply NoDup_singleton;
      intros H; apply list_elem_of_singleton in H; discriminate. }
  assert (NoDup (GetHash <$> added_blocks
            ([CallAddBlock sample_B 4] ++ CallAddBlock sample_C 4 :: [CallSubmitHash 10])))
    as Hnd.
  { simpl. apply NoDup_cons. split; [|apply NoDup_singleton].
    intros H. apply list_elem_of_singleton in H. discriminate. }
  split; [lia|]. split; [exact Hc|]. split; [exact Hnd|].
  apply (released_iff_parents_supplied 1 2 4 8 ltac:(lia) _ _ _ _ Hc Hnd).
Defined.

(** ** Further properties at work *)

Lemma SubmitHash_Contains_rest_witness :
  ∃ s' r,
    SubmitHash 8 3 10 (AddBlock 1 2 4 8 sample_C 4 (AddBlock 1 2 4 8 sample_B 4 empty))
      = Some (s', r) ∧
    Contains 11 s'
      = Contains 11 (AddBlock 1 2 4 8 sample_C 4 (AddBlock 1 2 4 8 sample_B 4 empty))
        && bool_decide (11%N ∉ GetHash <$> default [] r).
Proof.
  eexists _, _. split; [vm_compute; reflexivity|].
  apply (SubmitHash_Contains_rest 8 3 10). vm_compute. reflexivity.
Defined.

Example SubmitHash_returns_cascade :
  snd <$> SubmitHash 8 3 10 (AddBlock 1 2 4 8 sample_C 4 (AddBlock 1 2 4 8 sample_B 4 empty))
  = Some (Some [sample_B; sample_C]).
Proof. vm_compute. reflexivity. Qed.

Lemma SubmitHash_again_witness :
  ∃ s' r,
    SubmitHash 8 3 10 (AddBlock 1 2 4 8 sample_C 4 (AddBlock 1 2 4 8 sample_B 4 empty))
      = Some (s', r) ∧
    lose_ends_ s'
      = delete 10%N
          (lose_ends_ (AddBlock 1 2 4 8 sample_C 4 (AddBlock 1 2 4 8 sample_B 4 empty))) ∧
    SubmitHash 8 0 10 s' = Some (s', None).
Proof.
  eexists _, _. split; [vm_compute; reflexivity|].
  eapply (SubmitHash_again 8 3 0 10). vm_compute. reflexivity.
Defined.

Lemma AddBlock_Contains_Size_witness :
  (8 ≤ 8)%Z ∧
  Contains 12 (AddBlock 1 2 4 8 sample_C 4 (AddBlock 1 2 4 8 sample_B 4 empty))
    = negb (4 =? 0)%N && bool_decide (12%N = GetHash sample_C)
      || Contains 12 (AddBlock 1 2 4 8 sample_B 4 empty) ∧
  Size (AddBlock 1 2 4 8 sample_C 4 (AddBlock 1 2 4 8 sample_B 4 empty))
    = if (4 =? 0)%N || Contains (GetHash sample_C) (AddBlock 1 2 4 8 sample_B 4 empty)
      then Size (AddBlock 1 2 4 8 sample_B 4 empty)
      else S (Size (AddBlock 1 2 4 8 sample_B 4 empty)).
Proof.
  split; [lia|]. apply (AddBlock_Contains_Size 1 2 4 8). lia.
Defined.

Lemma released_blocks_were_added_witness :
  (8 ≤ 8)%Z ∧
  ∃ s out,
    run 1 2 4 8 3 [CallAddBlock sample_B 4; CallAddBlock sample_C 4; CallSubmitHash 10] empty
      = Some (s, out) ∧
    sample_C ∈ out ∧
    sample_C ∈ added_blocks
      [CallAddBlock sample_B 4; CallAddBlock sample_C 4; CallSubmitHash 10].
Proof.
  split; [lia|]. eexists _, _.
  assert (sample_C ∈ [sample_B; sample_C]) as Hin by (right; left).
  split; [vm_compute; reflexivity|]. split; [exact Hin|].
  eapply (released_blocks_were_added 1 2 4 8 ltac:(lia) 3);
    [vm_compute; reflexivity|exact Hin].
Defined.

Lemma SubmitHash_loop_bounded_witness :
  (8 ≤ 8)%Z ∧
  3 * length (added_blocks
                [CallAddBlock sample_B 4; CallAddBlock sample_C 4; CallSubmitHash 10]) ≤ 6 ∧
  is_Some (run 1 2 4 8 6
             [CallAddBlock sample_B 4; CallAddBlock sample_C 4; CallSubmitHash 10] empty).
Proof.
  split; [lia|]. split; [simpl; lia|].
  apply (SubmitHash_loop_bounded 1 2 4 8); [lia|simpl; lia].
Defined.

Lemma held_until_released_witness :
  (8 ≤ 8)%Z ∧
  selecting 1 2 4 [CallAddBlock sample_B 4; CallAddBlock sample_C 4; CallSubmitHash 10] ∧
  NoDup (GetHash <$> added_blocks
           [CallAddBlock sample_B 4; CallAddBlock sample_C 4; CallSubmitHash 10]) ∧
  3 * length (added_blocks
                [CallAddBlock sample_B 4; CallAddBlock sample_C 4; CallSubmitHash 10]) ≤ 6 ∧
  ∃ s out,
    run 1 2 4 8 6 [CallAddBlock sample_B 4; CallAddBlock sample_C 4; CallSubmitHash 10] empty
      = Some (s, out) ∧
    Size s + length out
      = length (added_blocks
                  [CallAddBlock sample_B 4; CallAddBlock sample_C 4; CallSubmitHash 10]) ∧
    ∀ b, b ∈ added_blocks
               [CallAddBlock sample_B 4; CallAddBlock sample_C 4; CallSubmitHash 10] →
         (Contains (GetHash b) s = true ↔ b ∉ out).
Proof.
  assert (selecting 1 2 4
            [CallAddBlock sample_B 4; CallAddBlock sample_C 4; CallSubmitHash 10]) as Hsel.
  { simpl. repeat split; right; discriminate. }
  assert (NoDup (GetHash <$> added_blocks
            [CallAddBlock sample_B 4; CallAddBlock sample_C 4; CallSubmitHash 10])) as Hnd.
  { simpl. apply NoDup_cons. split; [|apply NoDup_singleton].
    intros H. apply list_elem_of_singleton in H. discriminate. }
  split; [lia|]. split; [exact Hsel|]. split; [exact Hnd|]. split; [simpl; lia|].
  apply (held_until_released 1 2 4 8 ltac:(lia) _ 6 Hsel Hnd). simpl. lia.
Defined.

(** The twin waits for the hash 0, which nobody submits: it stays. *)
Example release_leaves_the_rest :
  (λ r, (Size r.1, r.2)) <$>
    run 1 2 4 8 6 [CallAddBlock sample_B 4; CallAddBlock sample_twin 4;
                   CallAddBlock sample_C 4; CallSubmitHash 10] empty
  = Some (1, [sample_B; sample_C]).
Proof. vm_compute. reflexivity. Qed.

Lemma held_parent_released_first_witness :
  (8 ≤ 8)%Z ∧
  contract 1 2 4 ([CallAddBlock sample_B 4] ++ CallAddBlock sample_C 4 :: [CallSubmitHash 10]) ∧
  NoDup (GetHash <$> added_blocks
           ([CallAddBlock sample_B 4] ++ CallAddBlock sample_C 4 :: [CallSubmitHash 10])) ∧
  ∃ fuel0 s0 out0 s out,
    (∀ fuel, fuel0 ≤ fuel →
       run 1 2 4 8 fuel [CallAddBlock sample_B 4] empty = Some (s0, out0) ∧
       run 1 2 4 8 fuel [CallSubmitHash 10] (AddBlock 1 2 4 8 sample_C 4 s0) = Some (s, out)) ∧
    ∀ P q d j, P ∈ missing_parents 1 2 4 sample_C 4 →
      block_dep_map_ s0 !! P = Some q → heap s0 !! q = Some d →
      out !! j = Some sample_C → ∃ i, i < j ∧ out !! i = Some (block d).
Proof.
  assert (contract 1 2 4
            ([CallAddBlock sample_B 4] ++ CallAddBlock sample_C 4 :: [CallSubmitHash 10]))
    as Hc.
  { simpl. unfold well_added. change (missing_parents 1 2 4 sample_B 4) with [10%N].
    change (missing_parents 1 2 4 sample_C 4) with [11%N]. simpl.
    repeat split; try discriminate; try apply NoDup_singleton;
      intros H; apply list_elem_of_singleton in H; discriminate. }
  assert (NoDup (GetHash <$> added_blocks
            ([CallAddBlock sample_B 4] ++ CallAddBlock sample_C 4 :: [CallSubmitHash 10])))
    as Hnd.
  { simpl. apply NoDup_cons. split; [|apply NoDup_singleton].
    intros H. apply list_elem_of_singleton in H. discriminate. }
  split; [lia|]. split; [exact Hc|]. split; [exact Hnd|].
  apply (held_parent_released_first 1 2 4 8 ltac:(lia) _ _ _ _ Hc Hnd).
Defined.

Lemma lose_end_has_waiter_witness :
  (8 ≤ 8)%Z ∧
  reachable 1 2 4 8 (AddBlock 1 2 4 8 sample_B 4 empty) ∧
  lose_ends_ (AddBlock 1 2 4 8 sample_B 4 empty) !! 10%N = Some {[0]} ∧
  ({[0]} : gset nat) ≠ ∅.
Proof.
  assert (reachable 1 2 4 8 (AddBlock 1 2 4 8 sample_B 4 empty)) as Hs
    by (apply reachable_AddBlock, reachable_empty).
  assert (lose_ends_ (AddBlock 1 2 4 8 sample_B 4 empty) !! 10%N = Some {[0]}) as HX
    by (vm_compute; reflexivity).
  split; [lia|]. split; [exact Hs|]. split; [exact HX|].
  apply (lose_end_has_waiter 1 2 4 8 ltac:(lia) _ 10%N {[0]} Hs HX).
Defined.

Lemma unselecting_mask_never_released_witness :
  (8 ≤ 8)%Z ∧ 8%N ≠ 0%N ∧ missing_parents 1 2 4 sample_C 8 = [] ∧
  (sample_C ∉ added_blocks [CallAddBlock sample_B 4]) ∧
  (sample_C ∉ added_blocks [CallSubmitHash 10; CallSubmitHash 11]) ∧
  ∃ s out,
    run 1 2 4 8 3
      ([CallAddBlock sample_B 4] ++ CallAddBlock sample_C 8 ::
       [CallSubmitHash 10; CallSubmitHash 11]) empty = Some (s, out) ∧
    Contains (GetHash sample_C) s = true ∧
    sample_C ∉ out.
Proof.
  assert (sample_C ∉ added_blocks [CallAddBlock sample_B 4]) as Hpre.
  { simpl. intros H. apply list_elem_of_singleton in H. discriminate. }
  assert (sample_C ∉ added_blocks [CallSubmitHash 10; CallSubmitHash 11]) as Hpost
    by apply not_elem_of_nil.
  split; [lia|]. split; [discriminate|]. split; [reflexivity|].
  split; [exact Hpre|]. split; [exact Hpost|].
  eexists _, _. split; [vm_compute; reflexivity|]. split; [vm_compute; reflexivity|].
  eapply (unselecting_mask_never_released 1 2 4 8 ltac:(lia)
            [CallAddBlock sample_B 4] sample_C 8 [CallSubmitHash 10; CallSubmitHash 11] 3);
    [discriminate|reflexivity|exact Hpre|exact Hpost|vm_compute; reflexivity].
Defined.

Lemma IsEmpty_iff_no_lose_end_witness :
  (8 ≤ 8)%Z ∧
  contract 1 2 4 [CallAddBlock sample_B 4; CallAddBlock sample_C 4; CallSubmitHash 10] ∧
  NoDup (GetHash <$> added_blocks
           [CallAddBlock sample_B 4; CallAddBlock sample_C 4; CallSubmitHash 10]) ∧
  ∃ fuel0 s out,
    (∀ fuel, fuel0 ≤ fuel →
       run 1 2 4 8 fuel [CallAddBlock sample_B 4; CallAddBlock sample_C 4; CallSubmitHash 10]
         empty = Some (s, out)) ∧
    (IsEmpty s = true ↔ DependencySize s = 0).
Proof.
  assert (contract 1 2 4
            [CallAddBlock sample_B 4; CallAddBlock sample_C 4; CallSubmitHash 10]) as Hc.
  { simpl. unfold well_added. change (missing_parents 1 2 4 sample_B 4) with [10%N].
    change (missing_parents 1 2 4 sample_C 4) with [11%N]. simpl.
    repeat split; try discriminate; try apply NoDup_singleton;
      intros H; apply list_elem_of_singleton in H; discriminate. }
  assert (NoDup (GetHash <$> added_blocks
            [CallAddBlock sample_B 4; CallAddBlock sample_C 4; CallSubmitHash 10])) as Hnd.
  { simpl. apply NoDup_cons. split; [|apply NoDup_singleton].
    intros H. apply list_elem_of_singleton in H. discriminate. }
  split; [lia|]. split; [exact Hc|]. split; [exact Hnd|].
  apply (IsEmpty_iff_no_lose_end 1 2 4 8 ltac:(lia) _ Hc Hnd).
Defined.

(** Outside the contract the two can differ: the twin is released with the
    block of B, and the lose end of its third parent stays behind. *)
Example IsEmpty_with_lose_end :
  (λ r, (IsEmpty r.1, DependencySize r.1)) <$>
    run 1 2 4 8 4
      [CallAddBlock sample_B 4; CallAddBlock sample_twin 7; CallSubmitHash 10] empty
  = Some (true, 1).
Proof. vm_compute. reflexivity. Qed.

Lemma twin_parent_released_with_parent_witness :
  (8 ≤ 8)%Z ∧ contract 1 2 4 [CallAddBlock sample_B 4] ∧
  NoDup (GetHash <$> added_blocks [CallAddBlock sample_B 4]) ∧
  (GetHash sample_twin ∉ GetHash <$> added_blocks [CallAddBlock sample_B 4]) ∧
  missing_parents 1 2 4 sample_twin 7 ≡ₚ [11; 11; 77]%N ∧
  11%N ≠ 77%N ∧ 77%N ≠ GetHash sample_twin ∧ 10%N ≠ 77%N ∧
  ∃ s0 d s',
    run 1 2 4 8 1 [CallAddBlock sample_B 4] empty = Some (s0, []) ∧
    block_dep_map_ s0 !! 11%N = Some 0 ∧ heap s0 !! 0 = Some d ∧
    block_dep_map_ s0 !! 77%N = None ∧
    SubmitHash 8 4 10 (AddBlock 1 2 4 8 sample_twin 7 s0)
      = Some (s', Some [sample_B; sample_twin]) ∧
    block d ∈ [sample_B; sample_twin] ∧
    sample_twin ∈ [sample_B; sample_twin] ∧ is_Some (lose_ends_ s' !! 77%N).
Proof.
  assert (contract 1 2 4 [CallAddBlock sample_B 4]) as Hc.
  { simpl. unfold well_added. change (missing_parents 1 2 4 sample_B 4) with [10%N].
    repeat split; try discriminate; try apply NoDup_singleton;
      intros H; apply list_elem_of_singleton in H; discriminate. }
  assert (NoDup (GetHash <$> added_blocks [CallAddBlock sample_B 4])) as Hnd
    by apply NoDup_singleton.
  assert (GetHash sample_twin ∉ GetHash <$> added_blocks [CallAddBlock sample_B 4]) as Hb.
  { simpl. intros H. apply list_elem_of_singleton in H. discriminate. }
  assert (missing_parents 1 2 4 sample_twin 7 ≡ₚ [11; 11; 77]%N) as Hperm by reflexivity.
  assert (block {| ndeps := 1; deps := []; block := sample_B |}
            ∈ [sample_B; sample_twin]) as Hin by left.
  split; [lia|]. split; [exact Hc|]. split; [exact Hnd|]. split; [exact Hb|].
  split; [exact Hperm|]. split; [discriminate|]. split; [discriminate|].
  split; [discriminate|].
  eexists _, {| ndeps := 1; deps := []; block := sample_B |}, _.
  split; [vm_compute; reflexivity|]. split; [vm_compute; reflexivity|].
  split; [vm_compute; reflexivity|]. split; [vm_compute; reflexivity|].
  split; [vm_compute; reflexivity|]. split; [exact Hin|].
  eapply (twin_parent_released_with_parent 1 2 4 8 ltac:(lia)
            [CallAddBlock sample_B 4] sample_twin 7 11 77 10 1 _ [] 0
            {| ndeps := 1; deps := []; block := sample_B |} 4 _
            (Some [sample_B; sample_twin]) Hc Hnd Hb Hperm);
    [discriminate|discriminate|discriminate|vm_compute; reflexivity|vm_compute; reflexivity|
     vm_compute; reflexivity|vm_compute; reflexivity|vm_compute; reflexivity|exact Hin].
Defined.

End OBC.

(** * Properties of the peer manager *)

Module PeerManagerProps.

Import PeerManager.

(** ** Properties of the handlers *)

(** C4 (amended).  An ADDR message with more than [kMaxAddressSize]
    addresses is dropped whole: no address is added to the address book and
    nothing is relayed.  The sender is disconnected exactly when it is a
    seed; any other sender is left connected. *)
Theorem oversized_addr_dropped kMaxAddressSize IsRoutable addressList peer :
  kMaxAddressSize < length addressList →
  ProcessAddressMessage kMaxAddressSize IsRoutable addressList peer
    = if isSeed peer.2 then [Disconnect peer.1] else [].
Proof.
  intros Hlen. unfold ProcessAddressMessage. rewrite decide_True by done. reflexivity.
Qed.

(** ** Properties of the sweeps *)

Lemma CheckTimeout_judge now peerMap_ it :
  (it ∈ (CheckTimeout now peerMap_).1 ↔ it ∈ peerMap_ ∧ judge now it.2 = Keep) ∧
  (it ∈ (CheckTimeout now peerMap_).2 ↔ it ∈ peerMap_ ∧ judge now it.2 = DisconnectErase).
Proof.
  induction peerMap_ as [|e rest [IH1 IH2]].
  - simpl. split; split; try (intros [H _]); intros; exfalso; eapply not_elem_of_nil; done.
  - assert (∀ v, (it ∈ e :: rest ∧ judge now it.2 = v) ↔
                 ((it = e ∧ judge now e.2 = v) ∨ (it ∈ rest ∧ judge now it.2 = v))) as Hsplit.
    { intros v. rewrite elem_of_cons. split.
      - intros [[->|H] Hv]; [left|right]; done.
      - intros [[-> Hv]|[H Hv]]; (split; [|done]); [left|right]; done. }
    rewrite !Hsplit, <- IH1, <- IH2.
    clear IH1 IH2 Hsplit. simpl. unfold judge.
    destruct (negb (IsVaild e.2)); [|destruct (isFullyConnected e.2)].
    + split; split; try tauto; intros [[_ ?]|?]; done.
    + destruct (_ || _); [|destruct (IsSyncTimeout e.2)]; simpl;
        rewrite !elem_of_cons; split; split; try tauto;
        intros [[? ?]|?]; try done; tauto.
    + destruct (_ <? _)%Z; simpl;
        rewrite !elem_of_cons; split; split; try tauto;
        intros [[? ?]|?]; try done; tauto.
Qed.

(** C6.  One sweep of [CheckTimeout] at time [now], for an entry of the peer
    map.  A valid fully connected peer is disconnected and removed exactly
    when [lastPingTime + kPingWaitTimeout < now] (the sum taken in 64 bits,
    as the code computes it), or [nPingFailed > kMaxPingFailures], or
    [IsSyncTimeout()]; a valid peer that is not fully connected exactly when
    [connected_time + kConnectionSetupTimeout < now]; an invalid peer is
    removed and not disconnected; every other peer stays and is not
    disconnected. *)
Theorem CheckTimeout_sweep now peerMap_ it :
  it ∈ peerMap_ →
  let peer := it.2 in
  let kept := (CheckTimeout now peerMap_).1 in
  let disconnected := (CheckTimeout now peerMap_).2 in
  let ping_timeout :=
    (u64 (GetLastPingTime peer + kPingWaitTimeout) < now)%Z ∨
    (kMaxPingFailures < GetNPingFailed peer)%Z ∨
    IsSyncTimeout peer = true in
  let setup_timeout := (u64 (connected_time peer + kConnectionSetupTimeout) < now)%Z in
  (IsVaild peer = true → isFullyConnected peer = true →
     ((it ∈ disconnected ∧ it ∉ kept) ↔ ping_timeout) ∧
     ((it ∈ kept ∧ it ∉ disconnected) ↔ ¬ ping_timeout)) ∧
  (IsVaild peer = true → isFullyConnected peer = false →
     ((it ∈ disconnected ∧ it ∉ kept) ↔ setup_timeout) ∧
     ((it ∈ kept ∧ it ∉ disconnected) ↔ ¬ setup_timeout)) ∧
  (IsVaild peer = false → (it ∉ kept) ∧ (it ∉ disconnected)).
Proof.
  intros Hin peer kept disconnected ping_timeout setup_timeout.
  destruct (CheckTimeout_judge now peerMap_ it) as [Hk Hd].
  fold kept in Hk. fold disconnected in Hd. fold peer in Hk, Hd.
  assert (it ∈ kept ↔ judge now peer = Keep) as Hk' by tauto.
  assert (it ∈ disconnected ↔ judge now peer = DisconnectErase) as Hd' by tauto.
  clear Hk Hd. rewrite Hk', Hd'. unfold judge, ping_timeout, setup_timeout.
  split; [|split].
  - intros -> ->. simpl.
    destruct (Z.ltb_spec (u64 (GetLastPingTime peer + kPingWaitTimeout)) now);
      destruct (Z.ltb_spec kMaxPingFailures (GetNPingFailed peer));
      destruct (IsSyncTimeout peer); simpl;
      split; split; try (intros [? ?]); try done; try tauto; try lia;
      try (intros [?|[?|?]]; try lia; done);
      try (intros ?; split; [done|]; intros [?|[?|?]]; try lia; done).
  - intros -> ->. simpl.
    destruct (Z.ltb_spec (u64 (connected_time peer + kConnectionSetupTimeout)) now);
      split; split; try (intros [? ?]); try done; try tauto; try lia;
      try (intros ?; split; [done|]; lia).
  - intros ->. simpl. split; done.
Qed.

(** Times that do not overflow 64 bits are compared as they are. *)
Lemma u64_small x : (0 ≤ x < 2 ^ 64)%Z → u64 x = x.
Proof. apply Z.mod_small. Qed.

(** X27.  When every peer of the map has sent its version message,
    [HasConnectedTo] returns, and it returns true exactly when some peer has
    the address as its remote [address] or as the [address_me_] of its
    version message. *)
Lemma HasConnectedTo_with_versions addr peerMap_ :
  (∀ peer, peer ∈ peerMap_ → is_Some (versionMessage peer.2)) →
  ∃ r, HasConnectedTo addr peerMap_ = Some r ∧
    (r = true ↔ ∃ peer, peer ∈ peerMap_ ∧
       (addr = address peer.2 ∨ ∃ version, versionMessage peer.2 = Some version ∧
                                            addr = address_me_ version)).
Proof.
  induction peerMap_ as [|e rest IH]; intros Hall.
  - exists false. split; [done|]. split; [done|]. intros (peer & Hin & _). inversion Hin.
  - simpl. destruct (decide (addr = address e.2)) as [Ha|Ha].
    + exists true. split; [done|]. split; [|done]. intros _. exists e. split; [left|by left].
    + destruct (Hall e) as [version Hv]; [left|]. rewrite Hv.
      destruct (decide (addr = address_me_ version)) as [Hm|Hm].
      * exists true. split; [done|]. split; [|done]. intros _. exists e.
        split; [left|]. right. eauto.
      * destruct IH as (r & Hr & Hiff).
        { intros peer Hin. apply Hall. by right. }
        exists r. split; [done|]. rewrite Hiff. split.
        -- intros (peer & Hin & H). exists peer. split; [by right|done].
        -- intros (peer & Hin & H). apply elem_of_cons in Hin as [->|Hin]; [|eauto].
           exfalso. destruct H as [?|(v & Hv' & ?)]; [done|]. congruence.
Qed.

(** C9 (the code fails the claim).  With a peer in the map that has not sent
    its version message and whose address differs from the one asked for,
    [HasConnectedTo] dereferences the null [versionMessage]. *)
Theorem HasConnectedTo_null_version :
  HasConnectedTo (mkNetAddress 2 7877)
    [(1%N, mkPeer (mkNetAddress 1 7877) false false true false 0 0 0 None)] = None.
Proof. reflexivity. Qed.

(** With a second peer whose address is the one asked for, the answer depends
    on the order in which the map is visited. *)
Example HasConnectedTo_visiting_order :
  HasConnectedTo (mkNetAddress 2 7877)
    [(1%N, mkPeer (mkNetAddress 1 7877) false false true false 0 0 0 None);
     (2%N, mkPeer (mkNetAddress 2 7877) false false true false 0 0 0 None)] = None ∧
  HasConnectedTo (mkNetAddress 2 7877)
    [(2%N, mkPeer (mkNetAddress 2 7877) false false true false 0 0 0 None);
     (1%N, mkPeer (mkNetAddress 1 7877) false false true false 0 0 0 None)] = Some true.
Proof. split; reflexivity. Qed.

(** C5 (the code fails the claim).  With exactly [kMax_outbound] outbound
    connections the iteration does not skip: it dials the seed and an
    address. *)
Theorem OpenConnection_at_limit :
  OpenConnection_iteration 8 (Some (mkNetAddress 9 7877))
    [mkRound (Some (mkNetAddress 2 7877)) 1000 0] []
  = Some [ConnectTo (mkNetAddress 9 7877); ConnectTo (mkNetAddress 2 7877);
          SetLastTry (mkNetAddress 2 7877) 1000].
Proof. reflexivity. Qed.

(** Above [kMax_outbound] the iteration skips. *)
Lemma OpenConnection_above_limit outbound seed rounds peerMap_ :
  (kMax_outbound < outbound)%Z →
  OpenConnection_iteration outbound seed rounds peerMap_ = Some [].
Proof.
  intros H. unfold OpenConnection_iteration.
  destruct (Z.ltb_spec kMax_outbound outbound); [done|lia].
Qed.

(** C4, as stated, fails: a seed that sends an oversized list is disconnected. *)
Lemma oversized_addr_from_seed :
  1 < length [mkNetAddress 2 7877; mkNetAddress 3 7877] ∧
  ProcessAddressMessage 1 (λ _, true) [mkNetAddress 2 7877; mkNetAddress 3 7877]
    (5%N, mkPeer (mkNetAddress 1 7877) true true true false 0 0 0 None)
  = [Disconnect 5].
Proof. split; [simpl; lia|reflexivity]. Qed.

Lemma oversized_addr_dropped_witness :
  1 < length [mkNetAddress 2 7877; mkNetAddress 3 7877] ∧
  ProcessAddressMessage 1 (λ _, true) [mkNetAddress 2 7877; mkNetAddress 3 7877]
    (5%N, mkPeer (mkNetAddress 1 7877) false true true false 0 0 0 None)
  = [].
Proof.
  split; [simpl; lia|].
  apply (oversized_addr_dropped 1 (λ _, true) [mkNetAddress 2 7877; mkNetAddress 3 7877]
           (5%N, mkPeer (mkNetAddress 1 7877) false true true false 0 0 0 None)).
  simpl. lia.
Defined.

Lemma CheckTimeout_sweep_witness :
  (1%N, mkPeer (mkNetAddress 1 7877) false true true false 100 0 0 None)
    ∈ [(1%N, mkPeer (mkNetAddress 1 7877) false true true false 100 0 0 None);
       (2%N, mkPeer (mkNetAddress 2 7877) false false true false 0 0 900 None)] ∧
  (1%N, mkPeer (mkNetAddress 1 7877) false true true false 100 0 0 None)
    ∈ (CheckTimeout 1000
         [(1%N, mkPeer (mkNetAddress 1 7877) false true true false 100 0 0 None);
          (2%N, mkPeer (mkNetAddress 2 7877) false false true false 0 0 900 None)]).2 ∧
  (CheckTimeout 1000
     [(1%N, mkPeer (mkNetAddress 1 7877) false true true false 100 0 0 None);
      (2%N, mkPeer (mkNetAddress 2 7877) false false true false 0 0 900 None)]).1
  = [(2%N, mkPeer (mkNetAddress 2 7877) false false true false 0 0 900 None)].
Proof.
  assert ((1%N, mkPeer (mkNetAddress 1 7877) false true true false 100 0 0 None)
    ∈ [(1%N, mkPeer (mkNetAddress 1 7877) false true true false 100 0 0 None);
       (2%N, mkPeer (mkNetAddress 2 7877) false false true false 0 0 900 None)]) as Hin
    by left.
  split; [exact Hin|].
  pose proof (CheckTimeout_sweep 1000 _ _ Hin) as (Hfull & _ & _).
  split; [|reflexivity].
  simpl in Hfull. apply Hfull; [reflexivity..|]. left. vm_compute. reflexivity.
Defined.

(** ** Further properties of the sweeps *)

Lemma CheckTimeout_cons now it rest :
  CheckTimeout now (it :: rest) =
    match judge now it.2 with
    | Keep => (it :: (CheckTimeout now rest).1, (CheckTimeout now rest).2)
    | Erase => CheckTimeout now rest
    | DisconnectErase => ((CheckTimeout now rest).1, it :: (CheckTimeout now rest).2)
    end.
Proof.
  simpl. unfold judge.
  destruct (negb (IsVaild it.2)); [done|].
  destruct (isFullyConnected it.2).
  - destruct (_ || _); [done|]. destruct (IsSyncTimeout it.2); done.
  - destruct (_ <? _)%Z; done.
Qed.

(** A verdict other than [Keep] stays as time goes on. *)
Lemma judge_later now now' peer :
  (now ≤ now')%Z → judge now peer ≠ Keep → judge now' peer = judge now peer.
Proof.
  intros Hle. unfold judge.
  destruct (negb (IsVaild peer)); [done|].
  destruct (isFullyConnected peer).
  - destruct (Z.ltb_spec (u64 (GetLastPingTime peer + kPingWaitTimeout)) now);
      destruct (Z.ltb_spec (u64 (GetLastPingTime peer + kPingWaitTimeout)) now');
      destruct (kMaxPingFailures <? GetNPingFailed peer)%Z;
      destruct (IsSyncTimeout peer); simpl; try done; lia.
  - destruct (Z.ltb_spec (u64 (connected_time peer + kConnectionSetupTimeout)) now);
      destruct (Z.ltb_spec (u64 (connected_time peer + kConnectionSetupTimeout)) now');
      simpl; try done; lia.
Qed.

(** X11.  A second sweep at the same time removes and disconnects nobody. *)
Theorem CheckTimeout_idempotent now peerMap_ :
  CheckTimeout now (CheckTimeout now peerMap_).1 = ((CheckTimeout now peerMap_).1, []).
Proof.
  induction peerMap_ as [|it rest IH]; [done|].
  rewrite CheckTimeout_cons. destruct (judge now it.2) eqn:Hj; cbn [fst snd]; [|done..].
  rewrite CheckTimeout_cons, Hj, IH. done.
Qed.

(** X12.  A sweep at a later time leaves the peers that a sweep at that time
    alone would leave, and the two sweeps together disconnect the peers that
    the one sweep would disconnect. *)
Theorem CheckTimeout_later now now' peerMap_ :
  (now ≤ now')%Z →
  (CheckTimeout now' (CheckTimeout now peerMap_).1).1 = (CheckTimeout now' peerMap_).1 ∧
  (CheckTimeout now' peerMap_).2
    ≡ₚ (CheckTimeout now peerMap_).2 ++ (CheckTimeout now' (CheckTimeout now peerMap_).1).2.
Proof.
  intros Hle. induction peerMap_ as [|it rest [IH1 IH2]]; [done|].
  rewrite (CheckTimeout_cons now), (CheckTimeout_cons now').
  destruct (judge now it.2) eqn:Hj; cbn [fst snd].
  - rewrite (CheckTimeout_cons now').
    destruct (judge now' it.2); cbn [fst snd].
    + rewrite IH1. done.
    + done.
    + split; [done|]. rewrite IH2. apply Permutation_middle.
  - rewrite (judge_later now now' it.2 Hle), Hj by congruence. done.
  - rewrite (judge_later now now' it.2 Hle), Hj by congruence. cbn [fst snd].
    split; [done|]. rewrite IH2. done.
Qed.

Lemma GetFullyConnectedPeerSize_cons it rest :
  GetFullyConnectedPeerSize (it :: rest)
  = (if isFullyConnected it.2 then 1 else 0) + GetFullyConnectedPeerSize rest.
Proof.
  unfold GetFullyConnectedPeerSize. simpl.
  generalize (if isFullyConnected it.2 then 1 else 0).
  induction rest as [|e l IH]; intros n; simpl; [lia|].
  rewrite IH, (IH (if isFullyConnected e.2 then 1 else 0)).
  destruct (isFullyConnected e.2); lia.
Qed.

(** X13.  A sweep adds no peer and changes no order: the peers it leaves and
    the peers it disconnects are taken from the map in the order of the map;
    the peers that are gone are the disconnected and the invalid ones; the
    number of fully connected peers does not grow. *)
Theorem CheckTimeout_accounts now (peerMap_ : list (N * Peer)) :
  (CheckTimeout now peerMap_).1 `sublist_of` peerMap_ ∧
  (CheckTimeout now peerMap_).2 `sublist_of` peerMap_ ∧
  GetConnectedPeerSize peerMap_
    = GetConnectedPeerSize (CheckTimeout now peerMap_).1
      + length (CheckTimeout now peerMap_).2
      + length (filter (λ it, IsVaild it.2 = false) peerMap_) ∧
  GetFullyConnectedPeerSize (CheckTimeout now peerMap_).1
    ≤ GetFullyConnectedPeerSize peerMap_ ∧
  GetFullyConnectedPeerSize peerMap_ ≤ GetConnectedPeerSize peerMap_.
Proof.
  unfold GetConnectedPeerSize.
  induction peerMap_ as [|it rest (IH1 & IH2 & IH3 & IH4 & IH5)].
  - repeat split; try done; constructor.
  - rewrite CheckTimeout_cons, filter_cons, !GetFullyConnectedPeerSize_cons.
    assert (judge now it.2 = Erase ↔ IsVaild it.2 = false) as Hv.
    { unfold judge. destruct (IsVaild it.2); simpl; [|done].
      split; [|done].
      destruct (isFullyConnected it.2);
        repeat match goal with |- context [if ?c then _ else _] => destruct c end; done. }
    destruct (judge now it.2) eqn:Hj; cbn [fst snd length].
    + rewrite decide_False by (intros H; apply Hv in H; done).
      rewrite GetFullyConnectedPeerSize_cons.
      split; [by constructor|]. split; [by constructor|].
      destruct (isFullyConnected it.2); simpl; lia.
    + rewrite decide_True by (apply Hv; done). cbn [length].
      split; [by constructor|]. split; [by constructor|].
      destruct (isFullyConnected it.2); simpl; lia.
    + rewrite decide_False by (intros H; apply Hv in H; done).
      split; [by constructor|]. split; [by constructor|].
      destruct (isFullyConnected it.2); simpl; lia.
Qed.

(** ** Further properties of the handlers *)

Lemma try_addresses_dials tries : ∀ rounds peerMap_ dialed,
  try_addresses tries rounds peerMap_ = Some dialed →
  dialed = [] ∨
  ∃ i r addr, i < tries ∧ rounds !! i = Some r ∧ try_to_connect r = Some addr ∧
    HasConnectedTo addr peerMap_ = Some false ∧
    (120 ≤ u64 (round_now r - round_lastTry r))%Z ∧
    dialed = [ConnectTo addr; SetLastTry addr (round_now r)].
Proof.
  induction tries as [|tries IH]; intros rounds peerMap_ dialed H.
  - simpl in H. left. congruence.
  - destruct rounds as [|r rounds]; simpl in H; [left; congruence|].
    assert (try_addresses tries rounds peerMap_ = Some dialed →
            dialed = [] ∨
            ∃ i r0 addr, i < S tries ∧ (r :: rounds) !! i = Some r0 ∧
              try_to_connect r0 = Some addr ∧
              HasConnectedTo addr peerMap_ = Some false ∧
              (120 ≤ u64 (round_now r0 - round_lastTry r0))%Z ∧
              dialed = [ConnectTo addr; SetLastTry addr (round_now r0)]) as Hrest.
    { intros Hr. destruct (IH _ _ _ Hr) as [?|(i & r0 & addr & Hi & Hl & Hrest)]; [by left|].
      right. exists (S i), r0, addr. split; [lia|done]. }
    destruct (try_to_connect r) as [addr|] eqn:Ha; [|left; congruence].
    destruct (HasConnectedTo addr peerMap_) as [[|]|] eqn:Hc; [auto|..|done].
    destruct (Z.ltb_spec (u64 (round_now r - round_lastTry r)) 120); [auto|].
    right. exists 0, r, addr. split; [lia|]. split; [done|].
    split; [done|]. split; [done|]. split; [done|]. congruence.
Qed.

(** X14.  Above [kMax_outbound] an iteration of [OpenConnection] does nothing.
    Otherwise it dials the seed, if there is one, and at most one address:
    one that the address manager offered in one of the first hundred rounds,
    to which [HasConnectedTo] found no connection, and whose last try,
    subtracted in 64 bits, lies at least 120 seconds back; it records the
    time of that round as the last try. *)
Theorem OpenConnection_dials_one outbound seed rounds peerMap_ acts :
  OpenConnection_iteration outbound seed rounds peerMap_ = Some acts →
  ((kMax_outbound < outbound)%Z ∧ acts = []) ∨
  ((outbound ≤ kMax_outbound)%Z ∧
   ∃ dialed,
     acts = match seed with Some s => [ConnectTo s] | None => [] end ++ dialed ∧
     (dialed = [] ∨
      ∃ i r addr, i < 100 ∧ rounds !! i = Some r ∧ try_to_connect r = Some addr ∧
        HasConnectedTo addr peerMap_ = Some false ∧
        (120 ≤ u64 (round_now r - round_lastTry r))%Z ∧
        dialed = [ConnectTo addr; SetLastTry addr (round_now r)])).
Proof.
  unfold OpenConnection_iteration. intros H.
  destruct (Z.ltb_spec kMax_outbound outbound).
  - left. split; [done|congruence].
  - right. split; [done|].
    destruct (try_addresses 100 rounds peerMap_) as [dialed|] eqn:E; [|done].
    injection H as <-. exists dialed. split; [done|].
    apply (try_addresses_dials _ _ _ _ E).
Qed.

(** X15.  The difference [now - lastTry] is taken in 64 bits: an address whose
    last try is recorded in the future is not held back, it is dialed at once.
    *)
Theorem OpenConnection_lastTry_ahead tries addr now lastTry rounds peerMap_ :
  HasConnectedTo addr peerMap_ = Some false →
  (0 ≤ now < lastTry)%Z → (lastTry - now ≤ 2 ^ 64 - 120)%Z →
  try_addresses (S tries) (mkRound (Some addr) now lastTry :: rounds) peerMap_
  = Some [ConnectTo addr; SetLastTry addr now].
Proof.
  intros Hc Hnow Hgap. simpl. rewrite Hc.
  assert (u64 (now - lastTry) = now - lastTry + 2 ^ 64)%Z as ->.
  { unfold u64. symmetry. apply Z.mod_unique with (q := (-1)%Z); lia. }
  destruct (Z.ltb_spec (now - lastTry + 2 ^ 64) 120); [lia|done].
Qed.

(** X16.  [ProcessAddressMessage] stores routable addresses of the message
    only; what it relays is the list of the routable addresses of the
    message, never empty, with the sender named as the peer to leave out; it
    disconnects nobody but the sender, and the sender only if it is a seed. *)
Theorem ProcessAddressMessage_routable kMaxAddressSize IsRoutable addressList peer :
  Forall (λ act,
      match act with
      | AddNewAddress addr => addr ∈ addressList ∧ IsRoutable addr = true
      | RelayAddressMsg relayed msg_from =>
          msg_from = peer.1 ∧ relayed ≠ [] ∧
          relayed = filter (λ addr, IsRoutable addr = true) addressList
      | Disconnect p => p = peer.1 ∧ isSeed peer.2 = true
      | ConnectTo _ | SetLastTry _ _ => False
      end)
    (ProcessAddressMessage kMaxAddressSize IsRoutable addressList peer).
Proof.
  unfold ProcessAddressMessage. apply Forall_app. split.
  - destruct (decide (kMaxAddressSize < length addressList)); [constructor|].
    apply Forall_app. split.
    + apply Forall_fmap, Forall_forall. intros addr Hin. simpl.
      apply list_elem_of_filter in Hin. tauto.
    + destruct (decide (_ = [])); constructor; [|constructor]. done.
  - destruct (isSeed peer.2) eqn:Hs; constructor; [|constructor]. done.
Qed.

(** ** RelayAddressMsg *)

Lemma relay_offsets_sends draws : ∀ selectedOffset msg_from (peerMap_ : list (N * Peer)),
  NoDup peerMap_.*1 → Forall (λ offset, offset < length peerMap_) draws →
  ∃ sent, relay_offsets draws selectedOffset msg_from peerMap_ = Some sent ∧
    NoDup sent ∧ (msg_from ∉ sent) ∧ length sent ≤ length draws ∧
    ∀ c, c ∈ sent → ∃ offset it, offset ∈ draws ∧ (offset ∉ selectedOffset) ∧
                      peerMap_ !! offset = Some it ∧ it.1 = c.
Proof.
  induction draws as [|offset draws IH]; intros sel msg_from peerMap_ Hnd Hin.
  - exists []. split; [done|]. split; [constructor|]. split; [apply not_elem_of_nil|].
    split; [done|]. intros c Hc. inversion Hc.
  - apply Forall_cons in Hin as [Hlt Hin]. simpl.
    destruct (decide (offset ∈ sel)) as [Hsel|Hsel].
    + destruct (IH sel msg_from peerMap_ Hnd Hin) as (sent & -> & H1 & H2 & H3 & H4).
      exists sent. split; [done|]. split; [done|]. split; [done|]. split; [simpl; lia|].
      intros c Hc. destruct (H4 c Hc) as (o & it & Ho & Hrest).
      exists o, it. split; [by right|done].
    + destruct (lookup_lt_is_Some_2 peerMap_ offset Hlt) as [it Hit]. rewrite Hit.
      destruct (IH (sel ∪ {[offset]}) msg_from peerMap_ Hnd Hin)
        as (sent & -> & H1 & H2 & H3 & H4).
      assert (it.1 ∉ sent) as Hfresh.
      { intros Hc. destruct (H4 _ Hc) as (o & it' & _ & Hno & Hit' & Heq).
        assert (o = offset) as ->.
        { apply (NoDup_lookup peerMap_.*1 o offset it.1 Hnd).
          - rewrite list_lookup_fmap, Hit'. simpl. congruence.
          - rewrite list_lookup_fmap, Hit. done. }
        apply Hno. set_solver. }
      assert (∀ c, c ∈ sent → ∃ o it', o ∈ offset :: draws ∧ (o ∉ sel) ∧
                                  peerMap_ !! o = Some it' ∧ it'.1 = c) as H4'.
      { intros c Hc. destruct (H4 c Hc) as (o & it' & Ho & Hno & Hrest).
        exists o, it'. split; [by right|]. split; [set_solver|done]. }
      destruct (decide (it.1 = msg_from)) as [Heq|Hne].
      * exists sent. split; [done|]. split; [done|]. split; [done|]. split; [simpl; lia|done].
      * exists (it.1 :: sent). split; [done|]. split; [by constructor|].
        split; [apply not_elem_of_cons; split; [congruence|done]|]. split; [simpl; lia|].
        intros c Hc. apply elem_of_cons in Hc as [->|Hc]; [|auto].
        exists offset, it. split; [left|done].
Qed.

(** X17.  When the connection handles of the map are distinct and every draw
    lies within the map, as the distribution over [0, size - 1] provides,
    [RelayAddressMsg] never walks past the end of the map; it relays to no
    peer twice, never to the sender, only to peers of the map, and to at most
    as many peers as it draws. *)
Theorem RelayAddressMsg_sends_once draws msg_from (peerMap_ : list (N * Peer)) :
  NoDup peerMap_.*1 → Forall (λ offset, offset < length peerMap_) draws →
  ∃ sent, RelayAddressMsg_sends draws msg_from peerMap_ = Some sent ∧
    NoDup sent ∧ (msg_from ∉ sent) ∧ length sent ≤ length draws ∧
    ∀ c, c ∈ sent → c ∈ peerMap_.*1.
Proof.
  intros Hnd Hin. unfold RelayAddressMsg_sends.
  destruct (relay_offsets_sends draws ∅ msg_from peerMap_ Hnd Hin)
    as (sent & Hs & H1 & H2 & H3 & H4).
  assert (∀ c, c ∈ sent → c ∈ peerMap_.*1) as H5.
  { intros c Hc. destruct (H4 c Hc) as (o & it & _ & _ & Hit & <-).
    apply list_elem_of_fmap. exists it. split; [done|].
    apply list_elem_of_lookup. eauto. }
  destruct peerMap_ as [|e rest]; [|eauto 10].
  exists []. split; [done|]. split; [constructor|]. split; [apply not_elem_of_nil|].
  split; [simpl; lia|]. intros c Hc. inversion Hc.
Qed.

(** ** The entries of the peer map *)

Lemma GetPeer_None connection (peerMap_ : list (N * Peer)) :
  GetPeer connection peerMap_ = None ↔ connection ∉ peerMap_.*1.
Proof.
  induction peerMap_ as [|it rest IH]; simpl.
  - split; [intros _; apply not_elem_of_nil|done].
  - rewrite not_elem_of_cons. destruct (decide (it.1 = connection)) as [Heq|Hne].
    + split; [done|]. intros [? _]. done.
    + rewrite IH. split; [intros ?; split; [congruence|done]|tauto].
Qed.

Lemma GetPeer_app connection (l k : list (N * Peer)) :
  GetPeer connection (l ++ k)
  = match GetPeer connection l with Some peer => Some peer | None => GetPeer connection k end.
Proof.
  induction l as [|it l IH]; [done|]. simpl.
  destruct (decide (it.1 = connection)); done.
Qed.

Lemma GetPeer_filter connection (P : N * Peer → Prop) `{∀ it, Decision (P it)}
    (peerMap_ : list (N * Peer)) :
  NoDup peerMap_.*1 →
  GetPeer connection (filter P peerMap_)
  = match GetPeer connection peerMap_ with
    | Some peer => if decide (P (connection, peer)) then Some peer else None
    | None => None
    end.
Proof.
  induction peerMap_ as [|it rest IH]; [done|]. intros Hnd.
  rewrite fmap_cons in Hnd. apply NoDup_cons in Hnd as [Hit Hnd].
  rewrite filter_cons. simpl.
  destruct (decide (it.1 = connection)) as [Heq|Hne].
  - assert (it = (connection, it.2)) as Hpair by (destruct it; simpl in *; congruence).
    rewrite <- Hpair. destruct (decide (P it)); simpl.
    + rewrite decide_True by done. done.
    + rewrite (IH Hnd).
      assert (GetPeer connection rest = None) as ->; [|done].
      apply GetPeer_None. rewrite <- Heq. exact Hit.
  - destruct (decide (P it)); simpl; [rewrite decide_False by done|]; apply IH; done.
Qed.

(** X18.  [AddPeer] registers a peer for a connection that has none and
    changes nothing for a connection that has one: the first peer stays.
    [RemovePeer] removes the entry of the connection and no other;
    [GetConnectedPeerSize] counts accordingly. *)
Theorem AddPeer_first_stays connection peer (peerMap_ : list (N * Peer)) :
  GetPeer connection (AddPeer connection peer peerMap_)
    = Some (default peer (GetPeer connection peerMap_)) ∧
  (∀ c, c ≠ connection →
     GetPeer c (AddPeer connection peer peerMap_) = GetPeer c peerMap_ ∧
     GetPeer c (RemovePeer connection peerMap_) = GetPeer c peerMap_) ∧
  GetPeer connection (RemovePeer connection peerMap_) = None ∧
  GetConnectedPeerSize (AddPeer connection peer peerMap_)
    = match GetPeer connection peerMap_ with
      | Some _ => GetConnectedPeerSize peerMap_
      | None => S (GetConnectedPeerSize peerMap_)
      end.
Proof.
  assert (∀ c, GetPeer c (RemovePeer connection peerMap_)
               = if decide (c = connection) then None else GetPeer c peerMap_) as Hrem.
  { intros c. unfold RemovePeer. induction peerMap_ as [|it rest IH]; simpl.
    - destruct (decide _); done.
    - rewrite filter_cons. destruct (decide (it.1 ≠ connection)) as [Hne|Heq]; simpl.
      + destruct (decide (it.1 = c)) as [<-|?]; [rewrite decide_False; done|done].
      + apply dec_stable in Heq. rewrite IH.
        destruct (decide (c = connection)) as [->|Hc]; [done|].
        rewrite decide_False by congruence. done. }
  unfold AddPeer, GetConnectedPeerSize.
  split; [|split; [|split]].
  - destruct (GetPeer connection peerMap_) as [p|] eqn:E; [done|].
    rewrite GetPeer_app, E. simpl. rewrite decide_True; done.
  - intros c Hc. rewrite Hrem, decide_False by done. split; [|done].
    destruct (GetPeer connection peerMap_) as [p|] eqn:E; [done|].
    rewrite GetPeer_app. simpl. rewrite decide_False by done.
    destruct (GetPeer c peerMap_); done.
  - rewrite Hrem, decide_True; done.
  - destruct (GetPeer connection peerMap_); [done|].
    rewrite length_app. simpl. lia.
Qed.

(** X19.  The connection handles of the map stay distinct through [AddPeer],
    [RemovePeer] and [CheckTimeout]; after a sweep [GetPeer] finds exactly the
    peers it found before that the sweep has kept. *)
Theorem peerMap_handles_distinct now connection peer (peerMap_ : list (N * Peer)) :
  NoDup peerMap_.*1 →
  NoDup (AddPeer connection peer peerMap_).*1 ∧
  NoDup (RemovePeer connection peerMap_).*1 ∧
  NoDup (CheckTimeout now peerMap_).1.*1 ∧
  GetPeer connection (CheckTimeout now peerMap_).1
    = match GetPeer connection peerMap_ with
      | Some p => if decide (judge now p = Keep) then Some p else None
      | None => None
      end.
Proof.
  intros Hnd.
  assert ((CheckTimeout now peerMap_).1 = filter (λ it, judge now it.2 = Keep) peerMap_)
    as Hkept.
  { clear Hnd. induction peerMap_ as [|it rest IH]; [done|].
    rewrite CheckTimeout_cons, filter_cons.
    destruct (judge now it.2) eqn:Hj; cbn [fst].
    - rewrite decide_True by done. rewrite IH. done.
    - rewrite decide_False by done. done.
    - rewrite decide_False by done. done. }
  split; [|split; [|split]].
  - unfold AddPeer. destruct (GetPeer connection peerMap_) eqn:E; [done|].
    rewrite fmap_app. apply NoDup_app. split; [done|]. split; [|apply NoDup_singleton].
    intros c Hc Hin. apply list_elem_of_singleton in Hin as ->.
    apply GetPeer_None in E. done.
  - refine (sublist_NoDup _ _ Hnd _). apply fmap_sublist, sublist_filter.
  - rewrite Hkept. refine (sublist_NoDup _ _ Hnd _). apply fmap_sublist, sublist_filter.
  - rewrite Hkept.
    rewrite (GetPeer_filter connection (λ it, judge now it.2 = Keep)) by done. done.
Qed.

(** ** Further properties at work *)

Lemma CheckTimeout_later_witness :
  (1000 ≤ 1200)%Z ∧
  (CheckTimeout 1200
     (CheckTimeout 1000
        [(1%N, mkPeer (mkNetAddress 1 7877) false true true false 100 0 0 None);
         (2%N, mkPeer (mkNetAddress 2 7877) false false true false 0 0 900 None)]).1).1
  = (CheckTimeout 1200
       [(1%N, mkPeer (mkNetAddress 1 7877) false true true false 100 0 0 None);
        (2%N, mkPeer (mkNetAddress 2 7877) false false true false 0 0 900 None)]).1 ∧
  (CheckTimeout 1200
     [(1%N, mkPeer (mkNetAddress 1 7877) false true true false 100 0 0 None);
      (2%N, mkPeer (mkNetAddress 2 7877) false false true false 0 0 900 None)]).2
  ≡ₚ (CheckTimeout 1000
        [(1%N, mkPeer (mkNetAddress 1 7877) false true true false 100 0 0 None);
         (2%N, mkPeer (mkNetAddress 2 7877) false false true false 0 0 900 None)]).2
     ++ (CheckTimeout 1200
           (CheckTimeout 1000
              [(1%N, mkPeer (mkNetAddress 1 7877) false true true false 100 0 0 None);
               (2%N, mkPeer (mkNetAddress 2 7877) false false true false 0 0 900 None)]).1).2.
Proof.
  split; [lia|]. apply (CheckTimeout_later 1000 1200). lia.
Defined.

Example CheckTimeout_two_sweeps :
  (CheckTimeout 1000
     [(1%N, mkPeer (mkNetAddress 1 7877) false true true false 100 0 0 None);
      (2%N, mkPeer (mkNetAddress 2 7877) false false true false 0 0 900 None)]).2
  = [(1%N, mkPeer (mkNetAddress 1 7877) false true true false 100 0 0 None)] ∧
  CheckTimeout 1200
    [(1%N, mkPeer (mkNetAddress 1 7877) false true true false 100 0 0 None);
     (2%N, mkPeer (mkNetAddress 2 7877) false false true false 0 0 900 None)]
  = ([], [(1%N, mkPeer (mkNetAddress 1 7877) false true true false 100 0 0 None);
          (2%N, mkPeer (mkNetAddress 2 7877) false false true false 0 0 900 None)]).
Proof. split; reflexivity. Qed.

Lemma OpenConnection_dials_one_witness :
  OpenConnection_iteration 3 (Some (mkNetAddress 9 7877))
    [mkRound (Some (mkNetAddress 1 7877)) 1000 0;
     mkRound (Some (mkNetAddress 2 7877)) 1000 950;
     mkRound (Some (mkNetAddress 3 7877)) 1000 0;
     mkRound (Some (mkNetAddress 4 7877)) 1000 0]
    [(1%N, mkPeer (mkNetAddress 1 7877) false true true false 100 0 0
             (Some (mkVersionMessage (mkNetAddress 8 7877))))]
  = Some [ConnectTo (mkNetAddress 9 7877); ConnectTo (mkNetAddress 3 7877);
          SetLastTry (mkNetAddress 3 7877) 1000] ∧
  (((kMax_outbound < 3)%Z ∧
    [ConnectTo (mkNetAddress 9 7877); ConnectTo (mkNetAddress 3 7877);
     SetLastTry (mkNetAddress 3 7877) 1000] = []) ∨
   ((3 ≤ kMax_outbound)%Z ∧
    ∃ dialed,
      [ConnectTo (mkNetAddress 9 7877); ConnectTo (mkNetAddress 3 7877);
       SetLastTry (mkNetAddress 3 7877) 1000]
      = match Some (mkNetAddress 9 7877) with
        | Some s => [ConnectTo s]
        | None => []
        end ++ dialed ∧
      (dialed = [] ∨
       ∃ i r addr, i < 100 ∧
         [mkRound (Some (mkNetAddress 1 7877)) 1000 0;
          mkRound (Some (mkNetAddress 2 7877)) 1000 950;
          mkRound (Some (mkNetAddress 3 7877)) 1000 0;
          mkRound (Some (mkNetAddress 4 7877)) 1000 0] !! i = Some r ∧
         try_to_connect r = Some addr ∧
         HasConnectedTo addr
           [(1%N, mkPeer (mkNetAddress 1 7877) false true true false 100 0 0
                    (Some (mkVersionMessage (mkNetAddress 8 7877))))] = Some false ∧
         (120 ≤ u64 (round_now r - round_lastTry r))%Z ∧
         dialed = [ConnectTo addr; SetLastTry addr (round_now r)]))).
Proof.
  split; [reflexivity|].
  apply (OpenConnection_dials_one 3 (Some (mkNetAddress 9 7877))). reflexivity.
Defined.

Lemma OpenConnection_lastTry_ahead_witness :
  HasConnectedTo (mkNetAddress 2 7877) [] = Some false ∧
  (0 ≤ 1000 < 1060)%Z ∧ (1060 - 1000 ≤ 2 ^ 64 - 120)%Z ∧
  try_addresses 100 [mkRound (Some (mkNetAddress 2 7877)) 1000 1060] []
  = Some [ConnectTo (mkNetAddress 2 7877); SetLastTry (mkNetAddress 2 7877) 1000].
Proof.
  split; [reflexivity|]. split; [lia|]. split; [lia|].
  apply (OpenConnection_lastTry_ahead 99 (mkNetAddress 2 7877) 1000 1060 [] []);
    [reflexivity|lia|lia].
Defined.

Lemma RelayAddressMsg_sends_once_witness :
  NoDup [(1%N, mkPeer (mkNetAddress 1 7877) false true true false 100 0 0 None);
         (2%N, mkPeer (mkNetAddress 2 7877) false true true false 100 0 0 None);
         (3%N, mkPeer (mkNetAddress 3 7877) false true true false 100 0 0 None)].*1 ∧
  Forall (λ offset,
      offset < length
        [(1%N, mkPeer (mkNetAddress 1 7877) false true true false 100 0 0 None);
         (2%N, mkPeer (mkNetAddress 2 7877) false true true false 100 0 0 None);
         (3%N, mkPeer (mkNetAddress 3 7877) false true true false 100 0 0 None)])
    [2; 0; 2; 1] ∧
  ∃ sent,
    RelayAddressMsg_sends [2; 0; 2; 1] 1
      [(1%N, mkPeer (mkNetAddress 1 7877) false true true false 100 0 0 None);
       (2%N, mkPeer (mkNetAddress 2 7877) false true true false 100 0 0 None);
       (3%N, mkPeer (mkNetAddress 3 7877) false true true false 100 0 0 None)]
    = Some sent ∧
    NoDup sent ∧ (1%N ∉ sent) ∧ length sent ≤ length [2; 0; 2; 1] ∧
    ∀ c, c ∈ sent →
      c ∈ [(1%N, mkPeer (mkNetAddress 1 7877) false true true false 100 0 0 None);
           (2%N, mkPeer (mkNetAddress 2 7877) false true true false 100 0 0 None);
           (3%N, mkPeer (mkNetAddress 3 7877) false true true false 100 0 0 None)].*1.
Proof.
  assert (NoDup [(1%N, mkPeer (mkNetAddress 1 7877) false true true false 100 0 0 None);
                 (2%N, mkPeer (mkNetAddress 2 7877) false true true false 100 0 0 None);
                 (3%N, mkPeer (mkNetAddress 3 7877) false true true false 100 0 0 None)].*1)
    as Hnd by (apply (bool_decide_unpack (NoDup [1%N; 2%N; 3%N])); vm_compute; exact I).
  assert (Forall (λ offset,
      offset < length
        [(1%N, mkPeer (mkNetAddress 1 7877) false true true false 100 0 0 None);
         (2%N, mkPeer (mkNetAddress 2 7877) false true true false 100 0 0 None);
         (3%N, mkPeer (mkNetAddress 3 7877) false true true false 100 0 0 None)])
    [2; 0; 2; 1]) as Hin by (repeat constructor; simpl; lia).
  split; [exact Hnd|]. split; [exact Hin|].
  apply (RelayAddressMsg_sends_once [2; 0; 2; 1] 1 _ Hnd Hin).
Defined.

Example RelayAddressMsg_skips_sender_and_repeats :
  RelayAddressMsg_sends [2; 0; 2; 1] 1
    [(1%N, mkPeer (mkNetAddress 1 7877) false true true false 100 0 0 None);
     (2%N, mkPeer (mkNetAddress 2 7877) false true true false 100 0 0 None);
     (3%N, mkPeer (mkNetAddress 3 7877) false true true false 100 0 0 None)]
  = Some [3%N; 2%N].
Proof. vm_compute. reflexivity. Qed.

Lemma peerMap_handles_distinct_witness :
  NoDup [(1%N, mkPeer (mkNetAddress 1 7877) false true true false 100 0 0 None);
         (2%N, mkPeer (mkNetAddress 2 7877) false false true false 0 0 900 None)].*1 ∧
  NoDup (AddPeer 3 (mkPeer (mkNetAddress 3 7877) false false true false 0 0 990 None)
           [(1%N, mkPeer (mkNetAddress 1 7877) false true true false 100 0 0 None);
            (2%N, mkPeer (mkNetAddress 2 7877) false false true false 0 0 900 None)]).*1 ∧
  NoDup (RemovePeer 3
           [(1%N, mkPeer (mkNetAddress 1 7877) false true true false 100 0 0 None);
            (2%N, mkPeer (mkNetAddress 2 7877) false false true false 0 0 900 None)]).*1 ∧
  NoDup (CheckTimeout 1000
           [(1%N, mkPeer (mkNetAddress 1 7877) false true true false 100 0 0 None);
            (2%N, mkPeer (mkNetAddress 2 7877) false false true false 0 0 900 None)]).1.*1 ∧
  GetPeer 3
    (CheckTimeout 1000
       [(1%N, mkPeer (mkNetAddress 1 7877) false true true false 100 0 0 None);
        (2%N, mkPeer (mkNetAddress 2 7877) false false true false 0 0 900 None)]).1
  = match GetPeer 3
            [(1%N, mkPeer (mkNetAddress 1 7877) false true true false 100 0 0 None);
             (2%N, mkPeer (mkNetAddress 2 7877) false false true false 0 0 900 None)] with
    | Some p => if decide (judge 1000 p = Keep) then Some p else None
    | None => None
    end.
Proof.
  assert (NoDup [(1%N, mkPeer (mkNetAddress 1 7877) false true true false 100 0 0 None);
                 (2%N, mkPeer (mkNetAddress 2 7877) false false true false 0 0 900 None)].*1)
    as Hnd by (apply (bool_decide_unpack (NoDup [1%N; 2%N])); vm_compute; exact I).
  split; [exact Hnd|].
  apply (peerMap_handles_distinct 1000 3 _ _ Hnd).
Defined.

(** A second peer for a connection that has one is not registered. *)
Example AddPeer_twice :
  GetPeer 1
    (AddPeer 1 (mkPeer (mkNetAddress 3 7877) false false true false 0 0 990 None)
       (AddPeer 1 (mkPeer (mkNetAddress 1 7877) false true true false 100 0 0 None) []))
  = Some (mkPeer (mkNetAddress 1 7877) false true true false 100 0 0 None).
Proof. reflexivity. Qed.

Lemma HasConnectedTo_with_versions_witness :
  (∀ peer,
     peer ∈ [(1%N, mkPeer (mkNetAddress 1 7877) false true true false 100 0 0
                     (Some (mkVersionMessage (mkNetAddress 8 7877))))] →
     is_Some (versionMessage peer.2)) ∧
  ∃ r,
    HasConnectedTo (mkNetAddress 8 7877)
      [(1%N, mkPeer (mkNetAddress 1 7877) false true true false 100 0 0
               (Some (mkVersionMessage (mkNetAddress 8 7877))))] = Some r ∧
    (r = true ↔
     ∃ peer,
       peer ∈ [(1%N, mkPeer (mkNetAddress 1 7877) false true true false 100 0 0
                       (Some (mkVersionMessage (mkNetAddress 8 7877))))] ∧
       (mkNetAddress 8 7877 = address peer.2 ∨
        ∃ version, versionMessage peer.2 = Some version ∧
                   mkNetAddress 8 7877 = address_me_ version)).
Proof.
  assert (∀ peer,
     peer ∈ [(1%N, mkPeer (mkNetAddress 1 7877) false true true false 100 0 0
                     (Some (mkVersionMessage (mkNetAddress 8 7877))))] →
     is_Some (versionMessage peer.2)) as Hall.
  { intros peer Hin. apply list_elem_of_singleton in Hin as ->. simpl. eauto. }
  split; [exact Hall|].
  apply (HasConnectedTo_with_versions (mkNetAddress 8 7877) _ Hall).
Defined.

Example HasConnectedTo_address_me :
  HasConnectedTo (mkNetAddress 8 7877)
    [(1%N, mkPeer (mkNetAddress 1 7877) false true true false 100 0 0
             (Some (mkVersionMessage (mkNetAddress 8 7877))))] = Some true.
Proof. reflexivity. Qed.

End PeerManagerProps.

(** * Properties of the concurrent containers *)

Module ConcurrentContainerProps.

Import ConcurrentContainer.

Section ConcurrentHashMap.

Context `{Countable K} {V : Type}.

(** X20.  [update_key] succeeds exactly when the old key is there and the new
    key is free or the old key itself; the value then sits under the new key,
    the old key is gone, and nothing else has changed. *)
Theorem update_key_moves (oldKey newKey : K) (c : gmap K V) :
  ((update_key oldKey newKey c).2 = true ↔
     is_Some (c !! oldKey) ∧ (newKey = oldKey ∨ c !! newKey = None)) ∧
  ((update_key oldKey newKey c).2 = true →
     (update_key oldKey newKey c).1 !! newKey = c !! oldKey ∧
     (newKey ≠ oldKey → (update_key oldKey newKey c).1 !! oldKey = None) ∧
     (∀ k, k ≠ oldKey → k ≠ newKey → (update_key oldKey newKey c).1 !! k = c !! k) ∧
     size (update_key oldKey newKey c).1 = size c).
Proof.
  unfold update_key. destruct (c !! oldKey) as [entry|] eqn:Hold; simpl.
  - destruct (decide (newKey = oldKey)) as [->|Hne].
    + rewrite lookup_delete_eq. simpl. split; [split; [eauto|done]|]. intros _.
      rewrite lookup_insert_eq. split; [done|]. split; [done|]. split.
      * intros k Hk _. rewrite lookup_insert_ne, lookup_delete_ne; done.
      * rewrite insert_delete_eq, insert_id; done.
    + rewrite lookup_delete_ne by done.
      destruct (c !! newKey) as [w|] eqn:Hnew; simpl.
      * split; [|done]. split; [done|]. intros [_ [?|?]]; done.
      * split; [split; [eauto|done]|]. intros _.
        rewrite lookup_insert_eq. split; [done|]. split.
        { intros _. rewrite lookup_insert_ne, lookup_delete_eq; done. }
        split.
        { intros k Hk1 Hk2. rewrite lookup_insert_ne, lookup_delete_ne; done. }
        rewrite map_size_insert_None by (rewrite lookup_delete_ne; done).
        rewrite map_size_delete, Hold.
        assert (size c ≠ 0); [|lia].
        intros Hz. apply map_size_empty_iff in Hz. rewrite Hz, lookup_empty in Hold. done.
  - split; [|done]. split; [done|]. intros [[? ?] _]. done.
Qed.

(** X21.  When the new key is taken by another entry, [update_key] fails and
    the entry of the old key is lost all the same. *)
Theorem update_key_collision (oldKey newKey : K) (c : gmap K V) :
  is_Some (c !! oldKey) → is_Some (c !! newKey) → newKey ≠ oldKey →
  update_key oldKey newKey c = (delete oldKey c, false) ∧
  contains oldKey (update_key oldKey newKey c).1 = false ∧
  (update_key oldKey newKey c).1 !! newKey = c !! newKey ∧
  S (size (update_key oldKey newKey c).1) = size c.
Proof.
  intros [entry Hold] [w Hnew] Hne. unfold update_key, contains.
  rewrite Hold. cbn zeta. rewrite lookup_delete_ne, Hnew by done. cbn [fst snd].
  split; [done|]. split.
  - apply bool_decide_eq_false_2. rewrite lookup_delete_eq. intros [? ?]. done.
  - split; [rewrite lookup_delete_ne; done|].
    rewrite map_size_delete, Hold.
    assert (size c ≠ 0); [|lia].
    intros Hz. apply map_size_empty_iff in Hz. rewrite Hz, lookup_empty in Hold. done.
Qed.

(** X22.  [update_value] changes the value of a key that is there and inserts
    nothing: [get_value] reads the new value back, or leaves its argument as
    it was when the key is missing. *)
Theorem update_value_get_value (k : K) (v v0 : V) (c : gmap K V) :
  get_value k v0 (update_value k v c).1
    = (if contains k c then v else v0, contains k c) ∧
  (update_value k v c).2 = contains k c ∧
  (∀ k', k' ≠ k → (update_value k v c).1 !! k' = c !! k') ∧
  size (update_value k v c).1 = size c.
Proof.
  unfold get_value, update_value, contains.
  destruct (c !! k) as [w|] eqn:Hk; cbn [fst snd].
  - rewrite lookup_insert_eq, bool_decide_eq_true_2 by eauto.
    split; [done|]. split; [done|]. split.
    + intros k' Hne. rewrite lookup_insert_ne; done.
    + rewrite map_size_insert_Some; eauto.
  - rewrite Hk, bool_decide_eq_false_2 by (intros [? ?]; done). done.
Qed.

Lemma random_steps_stops (rand : nat → nat) (size : nat) : ∀ fuel i,
  size ≠ 0 → i < size → size ≤ fuel + i →
  ∃ j, random_steps fuel rand size i = Some j ∧ j < size.
Proof.
  induction fuel as [|fuel IH]; intros i Hsize Hi Hfuel; [lia|].
  simpl. destruct (decide (i < rand i mod size)) as [Hlt|Hge].
  - pose proof (Nat.mod_upper_bound (rand i) size Hsize).
    apply IH; [done|lia|lia].
  - exists i. done.
Qed.

(** X23.  With as many rounds as the map has entries, [random_value] returns:
    an empty map gives no value, any other map the value of one of its
    entries; the iterator is never advanced to [end()], whatever [rand()]
    answers. *)
Theorem random_value_of_entry (fuel : nat) (rand : nat → nat) (entries : list (K * V)) :
  length entries ≤ fuel →
  match entries with
  | [] => random_value fuel rand entries = Some None
  | _ => ∃ it, it ∈ entries ∧ random_value fuel rand entries = Some (Some it.2)
  end.
Proof.
  intros Hfuel. destruct entries as [|e entries]; [done|].
  unfold random_value.
  destruct (random_steps_stops rand (length (e :: entries)) fuel 0) as (j & -> & Hj);
    [done|simpl; lia|lia|].
  destruct (lookup_lt_is_Some_2 (e :: entries) j Hj) as [it Hit]. rewrite Hit.
  exists it. split; [|done]. apply list_elem_of_lookup. eauto.
Qed.

End ConcurrentHashMap.

Section ConcurrentQueue.

Context {T : Type}.

Lemma drain_loop_takes : ∀ rounds (dest c : list T),
  rounds ≤ length c → drain_loop rounds dest c = Some (dest ++ take rounds c, drop rounds c).
Proof.
  induction rounds as [|rounds IH]; intros dest c Hlen; simpl.
  - rewrite take_0, drop_0, app_nil_r. done.
  - destruct c as [|front c]; [simpl in Hlen; lia|].
    rewrite IH by (simpl in Hlen; lia). simpl. rewrite <- app_assoc. done.
Qed.

(** X24.  [drain_to] moves the first [n] elements of the queue, or all of them
    if there are fewer, to the back of [dest] in their order, and returns how
    many it moved: no element is lost and none is read from an empty queue. *)
Theorem drain_to_moves_front (dest : list T) (n : nat) (c : list T) :
  (Z.of_nat (n `min` length c) < 2 ^ 31)%Z →
  drain_to dest n c = (Some (dest ++ take n c, drop n c), n `min` length c) ∧
  (dest ++ take n c) ++ drop n c = dest ++ c ∧
  length (take n c) = n `min` length c.
Proof.
  intros Hint. unfold drain_to. rewrite decide_True by done.
  rewrite drain_loop_takes by lia.
  split; [|split].
  - destruct (decide (n ≤ length c)) as [Hle|Hgt].
    + rewrite Nat.min_l by done. done.
    + rewrite Nat.min_r by lia. rewrite !take_ge, !drop_ge by lia. done.
  - rewrite <- app_assoc, take_drop. done.
  - apply length_take.
Qed.

End ConcurrentQueue.

Lemma update_key_collision_witness :
  is_Some (({[1 := 10; 2 := 20]} : gmap nat nat) !! 1) ∧
  is_Some (({[1 := 10; 2 := 20]} : gmap nat nat) !! 2) ∧
  2 ≠ 1 ∧
  update_key 1 2 ({[1 := 10; 2 := 20]} : gmap nat nat)
    = (delete 1 ({[1 := 10; 2 := 20]} : gmap nat nat), false) ∧
  contains 1 (update_key 1 2 ({[1 := 10; 2 := 20]} : gmap nat nat)).1 = false ∧
  (update_key 1 2 ({[1 := 10; 2 := 20]} : gmap nat nat)).1 !! 2
    = ({[1 := 10; 2 := 20]} : gmap nat nat) !! 2 ∧
  S (size (update_key 1 2 ({[1 := 10; 2 := 20]} : gmap nat nat)).1)
    = size ({[1 := 10; 2 := 20]} : gmap nat nat).
Proof.
  assert (is_Some (({[1 := 10; 2 := 20]} : gmap nat nat) !! 1)) as H1
    by (vm_compute; eauto).
  assert (is_Some (({[1 := 10; 2 := 20]} : gmap nat nat) !! 2)) as H2
    by (vm_compute; eauto).
  split; [exact H1|]. split; [exact H2|]. split; [lia|].
  apply (update_key_collision 1 2 _ H1 H2). lia.
Defined.

Lemma random_value_of_entry_witness :
  length [(1, 10); (2, 20); (3, 30)] ≤ 3 ∧
  ∃ it, it ∈ [(1, 10); (2, 20); (3, 30)] ∧
    random_value 3 (λ i, 7 + i) [(1, 10); (2, 20); (3, 30)] = Some (Some it.2).
Proof.
  split; [simpl; lia|].
  apply (random_value_of_entry 3 (λ i, 7 + i) [(1, 10); (2, 20); (3, 30)]). simpl. lia.
Defined.

Example random_value_rounds :
  random_value 3 (λ i, 7 + i) [(1, 10); (2, 20); (3, 30)] = Some (Some 30).
Proof. reflexivity. Qed.

Lemma drain_to_moves_front_witness :
  (Z.of_nat (5 `min` length [1; 2; 3]) < 2 ^ 31)%Z ∧
  drain_to [0] 5 [1; 2; 3] = (Some ([0] ++ take 5 [1; 2; 3], drop 5 [1; 2; 3]),
                              5 `min` length [1; 2; 3]) ∧
  ([0] ++ take 5 [1; 2; 3]) ++ drop 5 [1; 2; 3] = [0] ++ [1; 2; 3] ∧
  length (take 5 [1; 2; 3]) = 5 `min` length [1; 2; 3].
Proof.
  split; [simpl; lia|]. apply (drain_to_moves_front [0] 5 [1; 2; 3]). simpl. lia.
Defined.

End ConcurrentContainerProps.

(** * Properties of the database wrapper *)

Module DBWrapperProps.

Import DBWrapper.

Section HandleMap.

Context {Handle : Type}.

Lemma InitHandleMap_loop_other : ∀ columnNames handles (handleMap_ : gmap string Handle) k,
  k ∉ columnNames →
  InitHandleMap_loop handles columnNames handleMap_ !! k = handleMap_ !! k.
Proof.
  induction columnNames as [|k0 ks IH]; intros handles m k Hk; [done|].
  apply not_elem_of_cons in Hk as [Hne Hk].
  destruct handles as [|v vs]; [done|]. simpl.
  rewrite IH by done. rewrite lookup_insert_ne; done.
Qed.

Lemma InitHandleMap_loop_at : ∀ columnNames handles (handleMap_ : gmap string Handle) i k,
  NoDup columnNames → columnNames !! i = Some k →
  InitHandleMap_loop handles columnNames handleMap_ !! k
  = match handles !! i with Some h => Some h | None => handleMap_ !! k end.
Proof.
  induction columnNames as [|k0 ks IH]; intros handles m i k Hnd Hi; [done|].
  apply NoDup_cons in Hnd as [Hk0 Hnd].
  destruct handles as [|v vs]; [done|]. simpl.
  destruct i as [|i]; simpl in *.
  - injection Hi as ->. rewrite InitHandleMap_loop_other by done.
    apply lookup_insert_eq.
  - rewrite (IH vs _ i k Hnd Hi). destruct (vs !! i); [done|].
    apply lookup_insert_ne. intros ->. apply Hk0. apply list_elem_of_lookup. eauto.
Qed.

Lemma InitHandleMap_loop_keeps : ∀ columnNames handles (handleMap_ : gmap string Handle) k,
  is_Some (handleMap_ !! k) →
  is_Some (InitHandleMap_loop handles columnNames handleMap_ !! k).
Proof.
  induction columnNames as [|k0 ks IH]; intros handles m k Hk; [done|].
  destruct handles as [|v vs]; [done|]. simpl. apply IH.
  destruct (decide (k = k0)) as [->|Hne].
  - rewrite lookup_insert_eq. eauto.
  - rewrite lookup_insert_ne; done.
Qed.

Lemma InitHandleMap_None (handles : list Handle) (columnNames : list string) :
  InitHandleMap handles columnNames ∅ = None ↔ handles = [] ∨ columnNames = [].
Proof.
  unfold InitHandleMap.
  destruct columnNames as [|k ks]; [simpl; rewrite decide_True by done; tauto|].
  destruct handles as [|v vs]; [simpl; rewrite decide_True by done; tauto|].
  cbv zeta. rewrite decide_False.
  - split; [done|]. intros [?|?]; done.
  - intros He.
    destruct (InitHandleMap_loop_keeps ks vs (<[k := v]> ∅) k) as [h Hh].
    { rewrite lookup_insert_eq. eauto. }
    simpl in He. rewrite He, lookup_empty in Hh. done.
Qed.

(** X25.  Starting from an empty map, the assertion of [InitHandleMap] fails
    exactly when there is no column name or no handle. *)
Theorem InitHandleMap_assertion (handles : list Handle) (columnNames : list string) :
  InitHandleMap handles columnNames ∅ = None ↔ handles = [] ∨ columnNames = [].
Proof. apply InitHandleMap_None. Qed.

(** X26.  With distinct column names, [InitHandleMap] stores for every name
    the handle at the same position; a name beyond the last handle, like a
    name that was not given, gets none. *)
Theorem InitHandleMap_by_position (handles : list Handle) (columnNames : list string) :
  NoDup columnNames → handles ≠ [] → columnNames ≠ [] →
  ∃ handleMap_,
    InitHandleMap handles columnNames ∅ = Some handleMap_ ∧
    (∀ i k, columnNames !! i = Some k → handleMap_ !! k = handles !! i) ∧
    (∀ k, k ∉ columnNames → handleMap_ !! k = None).
Proof.
  intros Hnd Hh Hn.
  destruct (InitHandleMap handles columnNames ∅) as [m|] eqn:E.
  - exists m. split; [done|]. unfold InitHandleMap in E. cbv zeta in E.
    destruct (decide _); [done|]. injection E as <-. split.
    + intros i k Hi. rewrite (InitHandleMap_loop_at _ _ _ i k Hnd Hi).
      destruct (handles !! i); [done|]. apply lookup_empty.
    + intros k Hk. rewrite InitHandleMap_loop_other by done. apply lookup_empty.
  - apply InitHandleMap_None in E as [?|?]; done.
Qed.

End HandleMap.

Lemma InitHandleMap_by_position_witness :
  NoDup ["default"; "ms"; "utxo"]%string ∧ [7; 8] ≠ [] ∧
  ["default"; "ms"; "utxo"]%string ≠ [] ∧
  ∃ handleMap_,
    InitHandleMap [7; 8] ["default"; "ms"; "utxo"]%string ∅ = Some handleMap_ ∧
    (∀ i k, ["default"; "ms"; "utxo"]%string !! i = Some k →
            handleMap_ !! k = [7; 8] !! i) ∧
    (∀ k, k ∉ ["default"; "ms"; "utxo"]%string → handleMap_ !! k = None).
Proof.
  assert (NoDup ["default"; "ms"; "utxo"]%string) as Hnd
    by (apply (bool_decide_unpack (NoDup ["default"; "ms"; "utxo"]%string));
        vm_compute; exact I).
  split; [exact Hnd|]. split; [discriminate|]. split; [discriminate|].
  apply (InitHandleMap_by_position [7; 8] ["default"; "ms"; "utxo"]%string Hnd);
    discriminate.
Defined.

(** A column name given twice keeps the handle of its last position. *)
Example InitHandleMap_repeated_name :
  InitHandleMap [7; 8] ["ms"; "ms"]%string ∅ = Some {["ms"%string := 8]}.
Proof. vm_compute. reflexivity. Qed.

End DBWrapperProps.
